(** * Player: subtitle chunker, frame renderer, playback sequencer, recorder

    A shallow embedding of [src/components/Player.tsx] (the [Player]
    component of zen-create) and the properties of its timing, rendering
    and capture logic.

    Conventions of the embedding.
    - A JavaScript string is the list of its UTF-16 code units; [length]
      is the JavaScript [.length].
    - JavaScript numbers are kept abstract in the subtitle chunker
      ([NumOps]) and instantiated twice: with the rationals, where the
      arithmetic is exact, and with IEEE 754 binary64 as specified by the
      standard library's [SpecFloat], which is what the engine computes.
      The renderer and the sequencer are stated over the rationals.
    - The component is a state ([Sequencer.Player]: React state, refs, and
      what the platform holds for it) and state-passing functions.  A
      function of the component is made anew by every render and reads
      the state of its own render through its closure; the functions that
      do so take that render ([Sequencer.Render]) as an argument, and the
      state records which render made each pending handler.
    - The store of projects ([services/storageService.ts]) is code in a
      monad of state and exceptions ([Js.Eff]) over what [localStorage]
      holds under the key of the application. *)

From Stdlib Require Import String Ascii.
From Stdlib Require Import List Bool Arith ZArith NArith QArith Qminmax.
From Stdlib Require Import Lia Lqa.
From Stdlib Require Import Floats.SpecFloat.
Import ListNotations.

Set Implicit Arguments.

(* ================================================================== *)
(** * JavaScript strings *)
(* ================================================================== *)

Module JsString.

(** A string is its sequence of UTF-16 code units. *)
Definition jsstring := list N.

Definition of_string (s : string) : jsstring :=
  List.map N_of_ascii (list_ascii_of_string s).

(** The character class of the split expression
    [/([，。！？；：,.!?]+)/]. *)
Definition isPunct (c : N) : bool :=
  existsb (N.eqb c)
    [ 65292 (* ， *); 12290 (* 。 *); 65281 (* ！ *); 65311 (* ？ *);
      65307 (* ； *); 65306 (* ： *);
      44 (* , *); 46 (* . *); 33 (* ! *); 63 (* ? *) ]%N.

(** WhiteSpace and LineTerminator code units, as removed by
    [String.prototype.trim]. *)
Definition isWhiteSpace (c : N) : bool :=
  existsb (N.eqb c)
    [ 9; 10; 11; 12; 13; 32; 160; 5760; 8232; 8233; 8239; 8287; 12288;
      65279 ]%N
  || ((8192 <=? c) && (c <=? 8202))%N.

Fixpoint trimStart (s : jsstring) : jsstring :=
  match s with
  | [] => []
  | c :: r => if isWhiteSpace c then trimStart r else s
  end.

Definition trim (s : jsstring) : jsstring :=
  rev (trimStart (rev (trimStart s))).

(** [s.split(/([...]+)/)]: the pieces between maximal runs of
    punctuation, with every run (the capture group) kept between them.
    The result alternates text, run, text, ..., text; [cur] is the piece
    being read, reversed, and [inRun] tells whether it is a run. *)
Fixpoint split_from (s : jsstring) (cur : jsstring) (inRun : bool)
  : list jsstring :=
  match s with
  | [] => if inRun then [rev cur; []] else [rev cur]
  | c :: r =>
      if Bool.eqb (isPunct c) inRun
      then split_from r (c :: cur) inRun
      else rev cur :: split_from r [c] (negb inRun)
  end.

Definition split (s : jsstring) : list jsstring := split_from s [] false.

(** JavaScript truthiness of a string. *)
Definition truthy (s : jsstring) : bool :=
  match s with [] => false | _ => true end.

End JsString.
Import JsString.

(* ================================================================== *)
(** * Numbers *)
(* ================================================================== *)

(** The operations on JavaScript numbers that the chunker uses. *)
Record NumOps (num : Type) : Type := {
  n_zero : num;
  n_of_nat : nat -> num;              (* an integer literal or a [.length] *)
  n_add : num -> num -> num;
  n_mul : num -> num -> num;
  n_div : num -> num -> num;
  n_truthy : num -> bool               (* ToBoolean *)
}.

Definition QofNat (n : nat) : Q := inject_Z (Z.of_nat n).

(** Exact arithmetic. *)
Definition QOps : NumOps Q := {|
  n_zero := 0%Q;
  n_of_nat := QofNat;
  n_add := Qplus;
  n_mul := Qmult;
  n_div := Qdiv;
  n_truthy := fun q => negb (Qeq_bool q 0)
|}.

(** IEEE 754 binary64, round to nearest even. *)
Module F64.
Definition prec : Z := 53.
Definition emax : Z := 1024.
Definition float := spec_float.
Definition of_Z (z : Z) : float := binary_normalize prec emax z 0 false.
Definition add := SFadd prec emax.
Definition mul := SFmul prec emax.
Definition div := SFdiv prec emax.
Definition eqb := SFeqb.
(** ToBoolean: false for +0, -0 and NaN. *)
Definition truthy (x : float) : bool :=
  match x with
  | S754_zero _ | S754_nan => false
  | _ => true
  end.
End F64.

Definition F64Ops : NumOps F64.float := {|
  n_zero := S754_zero false;
  n_of_nat := fun n => F64.of_Z (Z.of_nat n);
  n_add := F64.add;
  n_mul := F64.mul;
  n_div := F64.div;
  n_truthy := F64.truthy
|}.

(* ================================================================== *)
(** * Scenes and the subtitle chunker ([currentSubtitles]) *)
(* ================================================================== *)

Section Chunker.

Context {num : Type} (ops : NumOps num).

(** [interface Scene] of the project, the fields the player reads.
    An optional field is an [option]. *)
Record Scene : Type := {
  id : string;
  narration : jsstring;
  imageUrl : option string;
  videoUrl : option string;
  audioUrl : option string;
  audioDuration : option num
}.

Record SubtitleChunk : Type := {
  text : jsstring;
  start : num;
  end_ : num
}.

(** [x || d] for an optional number. *)
Definition num_or (x : option num) (d : num) : num :=
  match x with
  | Some v => if n_truthy ops v then v else d
  | None => d
  end.

(** The [reduce] over the split array: at every even index whose piece
    is not blank, push the trimmed piece followed by the run after it
    ([arr[i+1] || '']). *)
Definition reduce_step (arr : list jsstring) (acc : list jsstring)
    (ic : nat * jsstring) : list jsstring :=
  let (i, curr) := ic in
  if Nat.even i && truthy (trim curr)
  then acc ++ [trim curr ++ nth (i + 1) arr []]
  else acc.

Definition parts_of (txt : jsstring) : list jsstring :=
  let arr := split txt in
  fold_left (reduce_step arr) (combine (seq 0 (length arr)) arr) [].

Definition finalParts_of (txt : jsstring) : list jsstring :=
  let parts := parts_of txt in
  if 0 <? length parts then parts else [txt].

(** [finalParts.reduce((acc, p) => acc + p.length, 0)] *)
Definition totalChars_of (finalParts : list jsstring) : nat :=
  fold_left (fun acc p => (acc + length p)%nat) finalParts 0%nat.

Definition partDuration (totalChars : nat) (duration : num)
    (part : jsstring) : num :=
  if 0 <? totalChars
  then n_mul ops
         (n_div ops (n_of_nat ops (length part)) (n_of_nat ops totalChars))
         duration
  else duration.

(** One turn of [finalParts.forEach]: the state is the running
    [currentTime] and the [chunks] pushed so far. *)
Definition forEach_step (totalChars : nat) (duration : num)
    (st : num * list SubtitleChunk) (part : jsstring)
  : num * list SubtitleChunk :=
  let (currentTime, chunks) := st in
  let pd := partDuration totalChars duration part in
  (n_add ops currentTime pd,
   chunks ++ [ {| text := part;
                  start := currentTime;
                  end_ := n_add ops currentTime pd |} ]).

Definition chunks_of (finalParts : list jsstring) (duration : num)
  : list SubtitleChunk :=
  let totalChars := totalChars_of finalParts in
  snd (fold_left (forEach_step totalChars duration) finalParts
         (n_zero ops, [])).

Definition currentSubtitles (currentScene : option Scene)
  : list SubtitleChunk :=
  match currentScene with
  | None => []
  | Some sc =>
      let txt := narration sc in          (* narration || '' *)
      let duration := num_or (audioDuration sc) (n_of_nat ops 5) in
      chunks_of (finalParts_of txt) duration
  end.

End Chunker.

Arguments Scene : clear implicits.
Arguments SubtitleChunk : clear implicits.

(* ================================================================== *)
(** * The frame renderer ([renderFrame], [drawImageProp]) *)
(* ================================================================== *)

Module Renderer.

Local Open Scope Q_scope.

(** The [<video>] element behind [videoRef]. *)
Record Video : Type := {
  readyState : nat;
  paused : bool;
  videoWidth : nat;
  videoHeight : nat
}.

(** The [<img>] element behind [imgRef], by the state of its image
    request.  A broken or unavailable image has no natural size. *)
Inductive Image : Type :=
| ImgUnavailable (complete_ : bool)              (* no source, or loading *)
| ImgBroken                                      (* the load failed *)
| ImgAvailable (complete_ : bool) (w h : nat).   (* partly or fully loaded *)

Definition complete (i : Image) : bool :=
  match i with
  | ImgUnavailable c => c
  | ImgBroken => true
  | ImgAvailable c _ _ => c
  end.

Definition naturalWidth (i : Image) : nat :=
  match i with ImgAvailable _ w _ => w | _ => 0%nat end.

Definition naturalHeight (i : Image) : nat :=
  match i with ImgAvailable _ _ h => h | _ => 0%nat end.

(** [HTMLVideoElement | HTMLImageElement] *)
Inductive Source : Type :=
| SrcVideo (v : Video)
| SrcImage (i : Image).

(** The [<canvas>] behind [canvasRef]; [context2d] tells whether
    [getContext('2d')] gives a context. *)
Record Canvas : Type := {
  width : nat;
  height : nat;
  context2d : bool
}.

(** What a tick leaves on the 2D context and the frame scheduler. *)
Inductive DrawCmd : Type :=
| FillRect (fillStyle : string) (x y w h : Q)
| DrawImage (img : Source) (dx dy dw dh : Q)
| StrokeText (t : jsstring) (x y : Q)
| FillText (fillStyle : string) (t : jsstring) (x y : Q)
| RequestAnimationFrame.

Inductive Exn : Type :=
| InvalidStateError.

(** Drawing code: it appends to the commands issued so far, or throws. *)
Definition Draw (A : Type) : Type := list DrawCmd -> Exn + (A * list DrawCmd).

Definition ret {A} (a : A) : Draw A := fun log => inr (a, log).

Definition bind {A B} (m : Draw A) (k : A -> Draw B) : Draw B :=
  fun log =>
    match m log with
    | inl e => inl e
    | inr (a, log') => k a log'
    end.

Definition emit (c : DrawCmd) : Draw unit := fun log => inr (tt, log ++ [c]).

Definition throw {A} (e : Exn) : Draw A := fun _ => inl e.

Declare Scope draw_scope.
Delimit Scope draw_scope with draw.
Notation "m1 ;; m2" := (bind m1 (fun _ => m2))
  (at level 61, right associativity) : draw_scope.

(** [ctx.drawImage]: the platform throws [InvalidStateError] for an
    image element whose request is broken; any other unusable source is
    skipped silently by the canvas itself. *)
Definition ctx_drawImage (img : Source) (dx dy dw dh : Q) : Draw unit :=
  match img with
  | SrcImage ImgBroken => throw InvalidStateError
  | _ => emit (DrawImage img dx dy dw dh)
  end.

Definition run {A} (m : Draw A) : Exn + list DrawCmd :=
  match m [] with
  | inl e => inl e
  | inr (_, log) => inr log
  end.

Local Open Scope draw_scope.

(** [drawImageProp(ctx, img, x, y, w, h, offsetX, offsetY, zoomFactor)] *)
Definition drawImageProp (img : Source) (x y w h : Q)
    (offsetX offsetY zoomFactor : Q) : Draw unit :=
  let imgW := match img with
              | SrcVideo v => videoWidth v
              | SrcImage i => naturalWidth i
              end in
  let imgH := match img with
              | SrcVideo v => videoHeight v
              | SrcImage i => naturalHeight i
              end in
  if (imgW =? 0)%nat || (imgH =? 0)%nat then ret tt
  else
    let baseScale := Qmax (w / QofNat imgW) (h / QofNat imgH) in
    let scale := baseScale * zoomFactor in
    let nw := QofNat imgW * scale in
    let nh := QofNat imgH * scale in
    let xPos := x + (w - nw) * offsetX in
    let yPos := y + (h - nh) * offsetY in
    ctx_drawImage img xPos yPos nw nh.

(** The Ken Burns zoom of a tick: [1.0 + progress * 0.15]. *)
Definition sceneDurationMs (currentScene : option (Scene Q)) : Q :=
  num_or QOps
    (match currentScene with
     | Some sc => audioDuration sc
     | None => None
     end) 5 * 1000.

Definition kenBurnsProgress (currentScene : option (Scene Q))
    (now sceneStartTime : Q) : Q :=
  let duration := sceneDurationMs currentScene in
  let elapsed := now - sceneStartTime in
  Qmin (elapsed / duration) 1.

Definition kenBurnsScale (currentScene : option (Scene Q))
    (now sceneStartTime : Q) : Q :=
  1 + kenBurnsProgress currentScene now sceneStartTime * (15 # 100).

Definition activeSubtitle (subs : list (SubtitleChunk Q)) (audioTime : Q)
  : option (SubtitleChunk Q) :=
  find (fun s => Qle_bool (start s) audioTime && Qle_bool audioTime (end_ s))
       subs.

(** What the closure and the refs hold when a tick runs. *)
Record Tick : Type := {
  currentScene : option (Scene Q);
  subtitles : list (SubtitleChunk Q);     (* currentSubtitles *)
  playing : bool;                         (* isPlaying *)
  canvas : option Canvas;                 (* canvasRef.current *)
  videoEl : Video;                        (* videoRef.current *)
  imgEl : Image;                          (* imgRef.current *)
  sceneStartTime : Q;                     (* sceneStartTimeRef.current *)
  audioTime : Q;                          (* narrationRef.current.currentTime *)
  now : Q                                 (* Date.now() *)
}.

Definition drawSubtitles (t : Tick) (cw ch : Q) : Draw unit :=
  match currentScene t with
  | Some _ =>
      if playing t then
        match activeSubtitle (subtitles t) (audioTime t) with
        | Some activeSub =>
            let x := cw / 2 in
            let y := ch - 80 in
            emit (StrokeText (text activeSub) x y) ;;
            emit (FillText "white" (text activeSub) x y)
        | None => ret tt
        end
      else ret tt
  | None => ret tt
  end.

Definition renderFrame (t : Tick) : Draw unit :=
  match canvas t with
  | None => ret tt
  | Some cv =>
      if negb (context2d cv) then ret tt
      else
        let cw := QofNat (width cv) in
        let ch := QofNat (height cv) in
        emit (FillRect "#000" 0 0 cw ch) ;;
        let videoReady := (2 <=? readyState (videoEl t))%nat in
        let imgReady :=
          complete (imgEl t) && (0 <? naturalWidth (imgEl t))%nat in
        (if videoReady && negb (paused (videoEl t))
         then drawImageProp (SrcVideo (videoEl t)) 0 0 cw ch (1 # 2) (1 # 2) 1
         else if imgReady
         then
           let scale :=
             kenBurnsScale (currentScene t) (now t) (sceneStartTime t) in
           drawImageProp (SrcImage (imgEl t)) 0 0 cw ch (1 # 2) (1 # 2) scale
         else emit (FillRect "#111" 0 0 cw ch)) ;;
        drawSubtitles t cw ch ;;
        emit RequestAnimationFrame
  end.

End Renderer.

(* ================================================================== *)
(** * The playback sequencer and the recorder *)
(* ================================================================== *)

Module Sequencer.

Local Open Scope Q_scope.

(** Truthiness of an optional URL ([undefined] and [''] are falsy). *)
Definition url_truthy (u : option string) : bool :=
  match u with
  | Some EmptyString | None => false
  | Some _ => true
  end.

(** What the functions made by one render of the component see of its
    state: a closure keeps the [const]s of the render that made it. *)
Record Render : Type := {
  seenIndex : nat;          (* currentSceneIndex, which gives currentScene *)
  seenPlaying : bool;       (* isPlaying *)
  seenRecording : bool      (* isRecording *)
}.

(** Playback of the narration element.  While the promise of [play()] is
    pending the element holds its [catch] handler: the delay it will pass
    to [setTimeout] and the render whose [handleNext] it will schedule. *)
Inductive NarrationStatus : Type :=
| NarrIdle
| NarrPending (fallbackMs : Q) (madeIn : Render)
| NarrPlaying
| NarrEnded
| NarrPaused.

Inductive TimerHandler : Type :=
| HandleNext (madeIn : Render)   (* setTimeout(handleNext, ...) *)
| ClearStatusMsg.                (* setTimeout(() => setStatusMsg(''), 3000) *)

Record Timer : Type := {
  handler : TimerHandler;
  delayMs : Q;
  clearedByCleanup : bool   (* the effect returns [() => clearTimeout(t)] *)
}.

Inductive AudioContextState : Type :=
| CtxRunning
| CtxSuspended
| CtxClosed.

Inductive RecordingState : Type :=
| RecInactive
| RecRecording.

(** A [MediaRecorder]: [stopEventPending] holds between [stop()] and the
    [stop] event, during which the last [dataavailable] is delivered. *)
Record MediaRecorder : Type := {
  mimeType : string;
  state : RecordingState;
  onstopSet : bool;
  stopEventPending : bool
}.

(** A [Blob] is its bytes; [new Blob(parts)] concatenates. *)
Definition Blob : Type := list N.
Definition size (b : Blob) : nat := length b.
Definition newBlob (parts : list Blob) : Blob := concat parts.

Record File : Type := {
  fileStamp : Q;          (* the [Date.now()] of the file name *)
  fileType : string;
  fileData : Blob
}.

(** The state of the mounted component: the React state, what the refs
    hold, and what the platform holds for it (timers, listeners, the frame
    request, downloads and alerts). *)
Record Player : Type := MkPlayer {
  currentSceneIndex : nat;
    (* useState(0) *)
  isPlaying : bool;
    (* useState(false) *)
  isRecording : bool;
    (* useState(false) *)
  statusMsg : string;
    (* useState('') *)
  videoSrc : option string;
    (* videoRef.current.src *)
  videoPaused : bool;
    (* videoRef.current.paused *)
  imgSrc : option string;
    (* imgRef.current.src *)
  narrationSrc : option string;
    (* narrationRef.current.src *)
  narrationStatus : NarrationStatus;
    (* playback of narrationRef.current *)
  endedHandler : Render;
    (* the render whose handleEnded listens to 'ended' *)
  bgmPaused : bool;
    (* bgmRef.current.paused *)
  frameLoop : option Render;
    (* the render whose renderFrame the frame request of requestRef will run *)
  sceneStartTime : Q;
    (* sceneStartTimeRef.current *)
  timers : list Timer;
    (* pending setTimeout calls *)
  audioCtx : option AudioContextState;
    (* audioCtxRef.current *)
  destNode : bool;
    (* destRef.current is set *)
  mediaRecorder : option MediaRecorder;
    (* mediaRecorderRef.current *)
  recordedChunks : list Blob;
    (* recordedChunksRef.current *)
  downloads : list File;
    (* files offered through the download link *)
  alerts : list string
    (* alert(...) calls *)
}.

(** Field updates. *)
Definition set_currentSceneIndex (v : nat) (p : Player) : Player :=
  MkPlayer v (isPlaying p) (isRecording p) (statusMsg p) (videoSrc p)
    (videoPaused p) (imgSrc p) (narrationSrc p) (narrationStatus p)
    (endedHandler p) (bgmPaused p) (frameLoop p) (sceneStartTime p)
    (timers p) (audioCtx p) (destNode p) (mediaRecorder p)
    (recordedChunks p) (downloads p) (alerts p).
Definition set_isPlaying (v : bool) (p : Player) : Player :=
  MkPlayer (currentSceneIndex p) v (isRecording p) (statusMsg p)
    (videoSrc p) (videoPaused p) (imgSrc p) (narrationSrc p)
    (narrationStatus p) (endedHandler p) (bgmPaused p) (frameLoop p)
    (sceneStartTime p) (timers p) (audioCtx p) (destNode p)
    (mediaRecorder p) (recordedChunks p) (downloads p) (alerts p).
Definition set_isRecording (v : bool) (p : Player) : Player :=
  MkPlayer (currentSceneIndex p) (isPlaying p) v (statusMsg p) (videoSrc p)
    (videoPaused p) (imgSrc p) (narrationSrc p) (narrationStatus p)
    (endedHandler p) (bgmPaused p) (frameLoop p) (sceneStartTime p)
    (timers p) (audioCtx p) (destNode p) (mediaRecorder p)
    (recordedChunks p) (downloads p) (alerts p).
Definition set_statusMsg (v : string) (p : Player) : Player :=
  MkPlayer (currentSceneIndex p) (isPlaying p) (isRecording p) v
    (videoSrc p) (videoPaused p) (imgSrc p) (narrationSrc p)
    (narrationStatus p) (endedHandler p) (bgmPaused p) (frameLoop p)
    (sceneStartTime p) (timers p) (audioCtx p) (destNode p)
    (mediaRecorder p) (recordedChunks p) (downloads p) (alerts p).
Definition set_videoSrc (v : option string) (p : Player) : Player :=
  MkPlayer (currentSceneIndex p) (isPlaying p) (isRecording p)
    (statusMsg p) v (videoPaused p) (imgSrc p) (narrationSrc p)
    (narrationStatus p) (endedHandler p) (bgmPaused p) (frameLoop p)
    (sceneStartTime p) (timers p) (audioCtx p) (destNode p)
    (mediaRecorder p) (recordedChunks p) (downloads p) (alerts p).
Definition set_videoPaused (v : bool) (p : Player) : Player :=
  MkPlayer (currentSceneIndex p) (isPlaying p) (isRecording p)
    (statusMsg p) (videoSrc p) v (imgSrc p) (narrationSrc p)
    (narrationStatus p) (endedHandler p) (bgmPaused p) (frameLoop p)
    (sceneStartTime p) (timers p) (audioCtx p) (destNode p)
    (mediaRecorder p) (recordedChunks p) (downloads p) (alerts p).
Definition set_imgSrc (v : option string) (p : Player) : Player :=
  MkPlayer (currentSceneIndex p) (isPlaying p) (isRecording p)
    (statusMsg p) (videoSrc p) (videoPaused p) v (narrationSrc p)
    (narrationStatus p) (endedHandler p) (bgmPaused p) (frameLoop p)
    (sceneStartTime p) (timers p) (audioCtx p) (destNode p)
    (mediaRecorder p) (recordedChunks p) (downloads p) (alerts p).
Definition set_narrationSrc (v : option string) (p : Player) : Player :=
  MkPlayer (currentSceneIndex p) (isPlaying p) (isRecording p)
    (statusMsg p) (videoSrc p) (videoPaused p) (imgSrc p) v
    (narrationStatus p) (endedHandler p) (bgmPaused p) (frameLoop p)
    (sceneStartTime p) (timers p) (audioCtx p) (destNode p)
    (mediaRecorder p) (recordedChunks p) (downloads p) (alerts p).
Definition set_narrationStatus (v : NarrationStatus) (p : Player) : Player :=
  MkPlayer (currentSceneIndex p) (isPlaying p) (isRecording p)
    (statusMsg p) (videoSrc p) (videoPaused p) (imgSrc p) (narrationSrc p)
    v (endedHandler p) (bgmPaused p) (frameLoop p) (sceneStartTime p)
    (timers p) (audioCtx p) (destNode p) (mediaRecorder p)
    (recordedChunks p) (downloads p) (alerts p).
Definition set_endedHandler (v : Render) (p : Player) : Player :=
  MkPlayer (currentSceneIndex p) (isPlaying p) (isRecording p)
    (statusMsg p) (videoSrc p) (videoPaused p) (imgSrc p) (narrationSrc p)
    (narrationStatus p) v (bgmPaused p) (frameLoop p) (sceneStartTime p)
    (timers p) (audioCtx p) (destNode p) (mediaRecorder p)
    (recordedChunks p) (downloads p) (alerts p).
Definition set_bgmPaused (v : bool) (p : Player) : Player :=
  MkPlayer (currentSceneIndex p) (isPlaying p) (isRecording p)
    (statusMsg p) (videoSrc p) (videoPaused p) (imgSrc p) (narrationSrc p)
    (narrationStatus p) (endedHandler p) v (frameLoop p) (sceneStartTime p)
    (timers p) (audioCtx p) (destNode p) (mediaRecorder p)
    (recordedChunks p) (downloads p) (alerts p).
Definition set_frameLoop (v : option Render) (p : Player) : Player :=
  MkPlayer (currentSceneIndex p) (isPlaying p) (isRecording p)
    (statusMsg p) (videoSrc p) (videoPaused p) (imgSrc p) (narrationSrc p)
    (narrationStatus p) (endedHandler p) (bgmPaused p) v (sceneStartTime p)
    (timers p) (audioCtx p) (destNode p) (mediaRecorder p)
    (recordedChunks p) (downloads p) (alerts p).
Definition set_sceneStartTime (v : Q) (p : Player) : Player :=
  MkPlayer (currentSceneIndex p) (isPlaying p) (isRecording p)
    (statusMsg p) (videoSrc p) (videoPaused p) (imgSrc p) (narrationSrc p)
    (narrationStatus p) (endedHandler p) (bgmPaused p) (frameLoop p) v
    (timers p) (audioCtx p) (destNode p) (mediaRecorder p)
    (recordedChunks p) (downloads p) (alerts p).
Definition set_timers (v : list Timer) (p : Player) : Player :=
  MkPlayer (currentSceneIndex p) (isPlaying p) (isRecording p)
    (statusMsg p) (videoSrc p) (videoPaused p) (imgSrc p) (narrationSrc p)
    (narrationStatus p) (endedHandler p) (bgmPaused p) (frameLoop p)
    (sceneStartTime p) v (audioCtx p) (destNode p) (mediaRecorder p)
    (recordedChunks p) (downloads p) (alerts p).
Definition set_audioCtx (v : option AudioContextState) (p : Player) : Player :=
  MkPlayer (currentSceneIndex p) (isPlaying p) (isRecording p)
    (statusMsg p) (videoSrc p) (videoPaused p) (imgSrc p) (narrationSrc p)
    (narrationStatus p) (endedHandler p) (bgmPaused p) (frameLoop p)
    (sceneStartTime p) (timers p) v (destNode p) (mediaRecorder p)
    (recordedChunks p) (downloads p) (alerts p).
Definition set_destNode (v : bool) (p : Player) : Player :=
  MkPlayer (currentSceneIndex p) (isPlaying p) (isRecording p)
    (statusMsg p) (videoSrc p) (videoPaused p) (imgSrc p) (narrationSrc p)
    (narrationStatus p) (endedHandler p) (bgmPaused p) (frameLoop p)
    (sceneStartTime p) (timers p) (audioCtx p) v (mediaRecorder p)
    (recordedChunks p) (downloads p) (alerts p).
Definition set_mediaRecorder (v : option MediaRecorder) (p : Player) : Player :=
  MkPlayer (currentSceneIndex p) (isPlaying p) (isRecording p)
    (statusMsg p) (videoSrc p) (videoPaused p) (imgSrc p) (narrationSrc p)
    (narrationStatus p) (endedHandler p) (bgmPaused p) (frameLoop p)
    (sceneStartTime p) (timers p) (audioCtx p) (destNode p) v
    (recordedChunks p) (downloads p) (alerts p).
Definition set_recordedChunks (v : list Blob) (p : Player) : Player :=
  MkPlayer (currentSceneIndex p) (isPlaying p) (isRecording p)
    (statusMsg p) (videoSrc p) (videoPaused p) (imgSrc p) (narrationSrc p)
    (narrationStatus p) (endedHandler p) (bgmPaused p) (frameLoop p)
    (sceneStartTime p) (timers p) (audioCtx p) (destNode p)
    (mediaRecorder p) v (downloads p) (alerts p).
Definition set_downloads (v : list File) (p : Player) : Player :=
  MkPlayer (currentSceneIndex p) (isPlaying p) (isRecording p)
    (statusMsg p) (videoSrc p) (videoPaused p) (imgSrc p) (narrationSrc p)
    (narrationStatus p) (endedHandler p) (bgmPaused p) (frameLoop p)
    (sceneStartTime p) (timers p) (audioCtx p) (destNode p)
    (mediaRecorder p) (recordedChunks p) v (alerts p).
Definition set_alerts (v : list string) (p : Player) : Player :=
  MkPlayer (currentSceneIndex p) (isPlaying p) (isRecording p)
    (statusMsg p) (videoSrc p) (videoPaused p) (imgSrc p) (narrationSrc p)
    (narrationStatus p) (endedHandler p) (bgmPaused p) (frameLoop p)
    (sceneStartTime p) (timers p) (audioCtx p) (destNode p)
    (mediaRecorder p) (recordedChunks p) (downloads p) v.

(** The component as mounted: the listener of 'ended' comes from the
    first render. *)
Definition initialPlayer : Player :=
  MkPlayer 0 false false "" None true None None NarrIdle
    {| seenIndex := 0; seenPlaying := false; seenRecording := false |}
    true None 0 [] None false None [] [] [].

(** The render of a committed state. *)
Definition render_of (p : Player) : Render :=
  {| seenIndex := currentSceneIndex p;
     seenPlaying := isPlaying p;
     seenRecording := isRecording p |}.

(** A frame request is pending: the render loop runs. *)
Definition frameRequested (p : Player) : bool :=
  match frameLoop p with
  | Some _ => true
  | None => false
  end.

(** ** State passing *)

Definition M (A : Type) : Type := Player -> A * Player.

Definition ret {A} (a : A) : M A := fun p => (a, p).
Definition bind {A B} (m : M A) (k : A -> M B) : M B :=
  fun p => let (a, p') := m p in k a p'.
Definition get : M Player := fun p => (p, p).
Definition modify (f : Player -> Player) : M unit := fun p => (tt, f p).
Definition exec {A} (m : M A) (p : Player) : Player := snd (m p).

Declare Scope seq_scope.
Delimit Scope seq_scope with seq.
Notation "x <- m ;; k" := (bind m (fun x => k))
  (at level 61, m at next level, right associativity) : seq_scope.
Notation "m1 ;; m2" := (bind m1 (fun _ => m2))
  (at level 61, right associativity) : seq_scope.
Local Open Scope seq_scope.

(** ** The platform calls the component makes *)

Definition setTimeout (h : TimerHandler) (ms : Q) (cleared : bool) : M unit :=
  modify (fun p =>
    set_timers (timers p ++ [ {| handler := h; delayMs := ms;
                                 clearedByCleanup := cleared |} ]) p).

(** A pending [play()] promise is rejected when the element is paused or
    given a new source; its [catch] handler then schedules the fallback
    advance. *)
Definition rejectPendingPlay : M unit :=
  p <- get ;;
  match narrationStatus p with
  | NarrPending ms r => setTimeout (HandleNext r) ms false
  | _ => ret tt
  end.

Definition narration_pause : M unit :=
  rejectPendingPlay ;;
  modify (fun p =>
    match narrationStatus p with
    | NarrPending _ _ | NarrPlaying => set_narrationStatus NarrPaused p
    | _ => p
    end).

Definition narration_setSrc (u : option string) : M unit :=
  rejectPendingPlay ;;
  modify (fun p => set_narrationStatus NarrIdle (set_narrationSrc u p)).

(** [narrationRef.current.play().catch(() => setTimeout(handleNext, ms))],
    called by the render [r]. *)
Definition narration_play (ms : Q) (r : Render) : M unit :=
  modify (set_narrationStatus (NarrPending ms r)).

Definition bgm_pause : M unit := modify (set_bgmPaused true).
Definition bgm_play : M unit := modify (set_bgmPaused false).
Definition video_pause : M unit := modify (set_videoPaused true).
(** [videoRef.current.play().catch(console.warn)] *)
Definition video_play : M unit := modify (set_videoPaused false).
(** [requestRef.current = requestAnimationFrame(renderFrame)], with the
    [renderFrame] of the render [r]; that function requests itself again
    at the end of every tick. *)
Definition requestAnimationFrame (r : Render) : M unit :=
  modify (set_frameLoop (Some r)).
Definition cancelAnimationFrame : M unit := modify (set_frameLoop None).
Definition alert (msg : string) : M unit :=
  modify (fun p => set_alerts (alerts p ++ [msg]) p).

Definition setCurrentSceneIndex (i : nat) : M unit :=
  modify (set_currentSceneIndex i).
Definition setIsPlaying (b : bool) : M unit := modify (set_isPlaying b).
Definition setIsRecording (b : bool) : M unit := modify (set_isRecording b).
Definition setStatusMsg (s : string) : M unit := modify (set_statusMsg s).

(** ** The component's functions

    Each takes the render [r] that made it where it reads state through
    its closure. *)

(** [stopRecording]; the [onstop] handler it installs is [onstop] below. *)
Definition stopRecording : M unit :=
  p <- get ;;
  match mediaRecorder p with
  | Some rcd =>
      match state rcd with
      | RecInactive => ret tt
      | RecRecording =>
          modify (set_mediaRecorder
                    (Some {| mimeType := mimeType rcd;
                             state := RecInactive;
                             onstopSet := true;
                             stopEventPending := true |}))
      end
  | None => ret tt
  end.

(** [finishPlayback] *)
Definition finishPlayback (r : Render) : M unit :=
  setIsPlaying false ;;
  bgm_pause ;;
  narration_pause ;;
  video_pause ;;
  cancelAnimationFrame ;;
  if seenRecording r then stopRecording else ret tt.

(** [handleNext]: the updater passed to [setCurrentSceneIndex] gets the
    latest index as [prev]; [scenes_length] is the [scenes.length] of the
    props. *)
Definition handleNext (scenes_length : nat) (r : Render) : M unit :=
  p <- get ;;
  let prev := currentSceneIndex p in
  let next := (prev + 1)%nat in
  if (next <? scenes_length)%nat
  then setCurrentSceneIndex next
  else finishPlayback r ;; setCurrentSceneIndex prev.

(** The scene effect (dependencies [currentSceneIndex], [isPlaying]); it
    runs in the render of the state just committed. *)
Definition sceneEffect (scenes : list (Scene Q)) (now : Q) : M unit :=
  p <- get ;;
  let r := render_of p in
  if negb (seenPlaying r) then ret tt
  else
    match nth_error scenes (seenIndex r) with
    | None => ret tt
    | Some scene =>
        modify (set_sceneStartTime now) ;;
        (if url_truthy (videoUrl scene)
         then modify (set_videoSrc (videoUrl scene)) ;;
              video_play ;;
              modify (set_imgSrc None)
         else if url_truthy (imageUrl scene)
         then modify (set_imgSrc (imageUrl scene)) ;;
              video_pause ;;
              modify (set_videoSrc None)
         else modify (set_imgSrc None) ;;
              video_pause) ;;
        if url_truthy (audioUrl scene)
        then narration_setSrc (audioUrl scene) ;;
             (* currentTime = 0 *)
             narration_play (num_or QOps (audioDuration scene) 5 * 1000) r
        else setTimeout (HandleNext r) 5000 true
    end.

(** The cleanup the scene effect returned: [clearTimeout(t)]. *)
Definition sceneEffect_cleanup : M unit :=
  modify (fun p =>
    set_timers (filter (fun t => negb (clearedByCleanup t)) (timers p)) p).

(** The effect that listens to 'ended' (dependencies [currentSceneIndex],
    [scenes.length]): its cleanup removes the listener of its last run and
    it adds the [handleEnded] of the render of the state just committed. *)
Definition endedEffect : M unit :=
  modify (fun p => set_endedHandler (render_of p) p).

(** [recorder.ondataavailable] *)
Definition ondataavailable (data : Blob) : M unit :=
  if (0 <? size data)%nat
  then modify (fun p => set_recordedChunks (recordedChunks p ++ [data]) p)
  else ret tt.

(** [mediaRecorderRef.current.onstop] *)
Definition onstop (now : Q) : M unit :=
  p <- get ;;
  let blob := newBlob (recordedChunks p) in
  modify (fun p =>
    set_downloads (downloads p ++ [ {| fileStamp := now;
                                       fileType := "video/webm";
                                       fileData := blob |} ]) p) ;;
  setIsRecording false ;;
  setStatusMsg "下载已开始！" ;;
  setTimeout ClearStatusMsg 3000 false.

(** What [startPlayback] finds in the browser. *)
Record Env : Type := {
  canvasMounted : bool;                 (* canvasRef.current *)
  vp9Supported : bool;                  (* MediaRecorder.isTypeSupported *)
  recorderThrows : string -> bool       (* new MediaRecorder(..) throws *)
}.

(** The recording branch of [startPlayback]; the result tells whether
    the function returned from its [catch] block. *)
Definition setupRecording (env : Env) : M bool :=
  p <- get ;;
  (match audioCtx p with
   | None | Some CtxClosed =>
       modify (set_audioCtx (Some CtxRunning)) ;;
       modify (set_destNode true)
       (* the two media element sources are connected inside [try] *)
   | Some CtxSuspended => modify (set_audioCtx (Some CtxRunning))
   | Some CtxRunning => ret tt
   end) ;;
  p <- get ;;
  if canvasMounted env && destNode p
  then
    let mime := if vp9Supported env
                then "video/webm;codecs=vp9"%string
                else "video/webm"%string in
    if recorderThrows env mime
    then alert "浏览器不支持此录制格式。" ;;
         setIsRecording false ;;
         ret true
    else modify (set_mediaRecorder
                   (Some {| mimeType := mime;
                            state := RecRecording;
                            onstopSet := false;
                            stopEventPending := false |})) ;;
         ret false
  else ret false.

(** [startPlayback], as made by the render [r]: the [renderFrame] it
    passes to [requestAnimationFrame] is the one of that render. *)
Definition startPlayback (r : Render) (env : Env) (recording : bool)
  : M unit :=
  setIsPlaying true ;;
  setCurrentSceneIndex 0 ;;
  setIsRecording recording ;;
  setStatusMsg (if recording then "正在录制并合成视频..." else "") ;;
  modify (set_recordedChunks []) ;;
  returned <- (if recording then setupRecording env else ret false) ;;
  if returned then ret tt
  else requestAnimationFrame r ;;
       (* bgmRef.current.currentTime = 0 *)
       bgm_play.

(** ** The component as a transition system *)

(** After a handler has run, React commits the new state and runs again
    the effects of which a dependency changed, the cleanup of the last run
    first: the scene effect for [currentSceneIndex] and [isPlaying], the
    'ended' effect for [currentSceneIndex] (the scene list is fixed). *)
Definition commit (scenes : list (Scene Q)) (now : Q) (old : Player)
  : M unit :=
  p <- get ;;
  let sameIndex := Nat.eqb (currentSceneIndex old) (currentSceneIndex p) in
  (if sameIndex && Bool.eqb (isPlaying old) (isPlaying p)
   then ret tt
   else sceneEffect_cleanup ;; sceneEffect scenes now) ;;
  if sameIndex then ret tt else endedEffect.

(** What happens to the mounted component. *)
Inductive Event : Type :=
| EvStart (env : Env) (recording : bool)   (* a start button is clicked *)
| EvPlaySettled (started : bool)           (* the promise of play() settles *)
| EvEnded                                  (* 'ended' on the narration *)
| EvTimer (k : nat)                        (* the k-th pending timer fires *)
| EvData (data : Blob)                     (* 'dataavailable' *)
| EvRecorderStop.                          (* 'stop' on the recorder *)

Definition remove_nth {A} (k : nat) (l : list A) : list A :=
  firstn k l ++ skipn (S k) l.

(** One event at time [now]; [None] when the event cannot occur in this
    state.  The start buttons are shown only while nothing plays, and the
    handlers they call come from the render of the current state. *)
Definition step (scenes : list (Scene Q)) (now : Q) (p : Player) (e : Event)
  : option Player :=
  match e with
  | EvStart env recording =>
      if isPlaying p then None
      else Some (exec (startPlayback (render_of p) env recording ;;
                       commit scenes now p) p)
  | EvPlaySettled started =>
      match narrationStatus p with
      | NarrPending ms r =>
          Some (if started
                then set_narrationStatus NarrPlaying p
                else exec (setTimeout (HandleNext r) ms false)
                       (set_narrationStatus NarrIdle p))
      | _ => None
      end
  | EvEnded =>
      match narrationStatus p with
      | NarrPlaying =>
          let p1 := set_narrationStatus NarrEnded p in
          Some (exec (handleNext (length scenes) (endedHandler p1) ;;
                      commit scenes now p1) p1)
      | _ => None
      end
  | EvTimer k =>
      match nth_error (timers p) k with
      | Some t =>
          let p1 := set_timers (remove_nth k (timers p)) p in
          Some (match handler t with
                | HandleNext r =>
                    exec (handleNext (length scenes) r ;;
                          commit scenes now p1) p1
                | ClearStatusMsg => set_statusMsg "" p1
                end)
      | None => None
      end
  | EvData data =>
      match mediaRecorder p with
      | Some rcd =>
          match state rcd with
          | RecRecording => Some (exec (ondataavailable data) p)
          | RecInactive =>
              if stopEventPending rcd
              then Some (exec (ondataavailable data) p)
              else None
          end
      | None => None
      end
  | EvRecorderStop =>
      match mediaRecorder p with
      | Some rcd =>
          if stopEventPending rcd
          then
            let p1 := set_mediaRecorder
                        (Some {| mimeType := mimeType rcd; state := state rcd;
                                 onstopSet := onstopSet rcd;
                                 stopEventPending := false |}) p in
            Some (if onstopSet rcd then exec (onstop now) p1 else p1)
          else None
      | None => None
      end
  end.

(** A run: events with their times, from a state. *)
Fixpoint run (scenes : list (Scene Q)) (p : Player)
    (es : list (Q * Event)) : option Player :=
  match es with
  | [] => Some p
  | (now, e) :: rest =>
      match step scenes now p e with
      | Some p' => run scenes p' rest
      | None => None
      end
  end.

(** The tick that the pending frame request runs: the closure of
    [renderFrame] holds the scene, the subtitles and the playing flag of
    its render; the refs hold what they hold now. *)
Definition loopTick (scenes : list (Scene Q)) (p : Player)
    (cv : option Renderer.Canvas) (v : Renderer.Video) (i : Renderer.Image)
    (audioTime now : Q) : option Renderer.Tick :=
  match frameLoop p with
  | Some r =>
      Some {| Renderer.currentScene := nth_error scenes (seenIndex r);
              Renderer.subtitles :=
                currentSubtitles QOps (nth_error scenes (seenIndex r));
              Renderer.playing := seenPlaying r;
              Renderer.canvas := cv;
              Renderer.videoEl := v;
              Renderer.imgEl := i;
              Renderer.sceneStartTime := sceneStartTime p;
              Renderer.audioTime := audioTime;
              Renderer.now := now |}
  | None => None
  end.

End Sequencer.

(* ================================================================== *)
(** * Vocabulary of the statements *)
(* ================================================================== *)

Section ChunkerVocabulary.

Context {num : Type} (ops : NumOps num).

(** The chunks that [forEach] pushes for [parts] when it starts at
    [currentTime]. *)
Fixpoint chunks_from (totalChars : nat) (duration : num)
    (currentTime : num) (parts : list jsstring) : list (SubtitleChunk num) :=
  match parts with
  | [] => []
  | part :: rest =>
      let e := n_add ops currentTime
                 (partDuration ops totalChars duration part) in
      {| text := part; start := currentTime; end_ := e |}
        :: chunks_from totalChars duration e rest
  end.

(** The running sum that [currentTime] holds after [parts]. *)
Definition time_after (totalChars : nat) (duration : num)
    (currentTime : num) (parts : list jsstring) : num :=
  fold_left
    (fun t part => n_add ops t (partDuration ops totalChars duration part))
    parts currentTime.

(** The first chunk starts at [t] and every other chunk starts where the
    chunk before it ends. *)
Fixpoint contiguous_from (t : num) (cs : list (SubtitleChunk num)) : Prop :=
  match cs with
  | [] => True
  | c :: rest => start c = t /\ contiguous_from (end_ c) rest
  end.

End ChunkerVocabulary.

(** The duration the chunker works with: [audioDuration || 5]. *)
Definition sceneDuration {num} (ops : NumOps num) (sc : Scene num) : num :=
  num_or ops (audioDuration sc) (n_of_nat ops 5).

(** The scenes of the examples: only narration and duration matter to the
    chunker. *)
Definition narrated {num : Type} (s : string) (d : option num) : Scene num :=
  {| id := "s"; narration := of_string s;
     imageUrl := None; videoUrl := None; audioUrl := None;
     audioDuration := d |}.

Section RendererVocabulary.

Import Renderer.

(** The visual of a tick is the clip when it is ready and playing, else
    the image when it is completely loaded. *)
Definition clipUsable (t : Tick) : bool :=
  (2 <=? readyState (videoEl t))%nat && negb (paused (videoEl t)).

Definition imageUsable (t : Tick) : bool :=
  complete (imgEl t) && (0 <? naturalWidth (imgEl t))%nat.

End RendererVocabulary.

Section SequencerVocabulary.

Import Sequencer.
Local Open Scope Q_scope.

(** What can advance a playing scene. *)
Inductive AdvanceSource : Type :=
| ByNarration                 (* the narration is awaited: play() then 'ended' *)
| ByTimeout (ms : Q).         (* a pending setTimeout(handleNext, ms) *)

Definition isAdvanceTimer (t : Timer) : bool :=
  match handler t with
  | HandleNext _ => true
  | ClearStatusMsg => false
  end.

Definition narrationAwaited (p : Player) : bool :=
  match narrationStatus p with
  | NarrPending _ _ | NarrPlaying => true
  | _ => false
  end.

Definition scheduledAdvances (p : Player) : list AdvanceSource :=
  (if narrationAwaited p then [ByNarration] else [])
  ++ List.map (fun t => ByTimeout (delayMs t))
       (filter isAdvanceTimer (timers p)).

Definition advanceTimers (p : Player) : list Timer :=
  filter isAdvanceTimer (timers p).

(** The delay of the fallback advance of a scene with narration. *)
Definition fallbackMs (scene : Scene Q) : Q :=
  num_or QOps (audioDuration scene) 5 * 1000.

(** Nothing is scheduled to advance. *)
Definition quiet (p : Player) : Prop :=
  advanceTimers p = [] /\ narrationAwaited p = false.

(** The one advance of the current scene is scheduled: its narration is
    awaited, or its play was rejected and the fallback timer is pending,
    or it has no narration and the five second timer is pending. *)
Definition armed (scenes : list (Scene Q)) (p : Player) : Prop :=
  match nth_error scenes (currentSceneIndex p) with
  | Some scene =>
      if url_truthy (audioUrl scene) then
        (advanceTimers p = []
         /\ ((exists r, narrationStatus p = NarrPending (fallbackMs scene) r)
             \/ narrationStatus p = NarrPlaying))
        \/ (narrationStatus p = NarrIdle
            /\ exists t, advanceTimers p = [t] /\ delayMs t = fallbackMs scene)
      else
        narrationAwaited p = false
        /\ exists t, advanceTimers p = [t] /\ delayMs t = 5000
  | None => quiet p
  end.

Definition advance_inv (scenes : list (Scene Q)) (p : Player) : Prop :=
  if isPlaying p then armed scenes p else quiet p.

(** Two players agree on what the scheduling of advances reads. *)
Definition same_schedule (p q : Player) : Prop :=
  currentSceneIndex p = currentSceneIndex q
  /\ isPlaying p = isPlaying q
  /\ narrationStatus p = narrationStatus q
  /\ advanceTimers p = advanceTimers q.

(** A browser whose [MediaRecorder] constructor throws for every type. *)
Definition noEncoder : Env :=
  {| canvasMounted := true; vp9Supported := false;
     recorderThrows := fun _ => true |}.

Definition anyEncoder : Env :=
  {| canvasMounted := true; vp9Supported := true;
     recorderThrows := fun _ => false |}.

Definition deliver (ds : list Blob) (p : Player) : Player :=
  fold_left (fun q d => exec (ondataavailable d) q) ds p.

Definition nonEmpty (b : Blob) : bool := (0 <? size b)%nat.

(** ** Examples *)

Definition sceneWithAudio : Scene Q :=
  {| id := "1"; narration := of_string "A. B!";
     imageUrl := Some "i"%string; videoUrl := None;
     audioUrl := Some "a"%string; audioDuration := Some 4%Q |}.

Definition sceneSilent : Scene Q :=
  {| id := "2"; narration := of_string "Om.";
     imageUrl := None; videoUrl := None;
     audioUrl := None; audioDuration := None |}.

Definition twoScenes : list (Scene Q) := [sceneWithAudio; sceneSilent].

(** A preview of [twoScenes]: the first narration is rejected and its
    fallback timer fires, which enters the second scene. *)
Definition demoEvents : list (Q * Event) :=
  [ (0%Q, EvStart anyEncoder false);
    (1%Q, EvPlaySettled false);
    (4001%Q, EvTimer 0) ].

Definition demoState : Player :=
  Eval vm_compute in
    match run twoScenes initialPlayer demoEvents with
    | Some p => p
    | None => initialPlayer
    end.

(** Playing the second and last of [twoScenes], before its effect ran. *)
Definition playingSilent : Player :=
  Eval vm_compute in set_isPlaying true (set_currentSceneIndex 1 initialPlayer).

(** The same with a recorder that is recording. *)
Definition recordingLast : Player :=
  Eval vm_compute in
    set_mediaRecorder
      (Some {| mimeType := "video/webm"; state := RecRecording;
               onstopSet := false; stopEventPending := false |})
      (set_isRecording true playingSilent).

(** Two scenes with an image each, narrated for 2 and for 10 seconds. *)
Definition sceneShort : Scene Q :=
  {| id := "short"; narration := of_string "Om.";
     imageUrl := Some "i1"%string; videoUrl := None;
     audioUrl := Some "a1"%string; audioDuration := Some 2%Q |}.

Definition sceneLong : Scene Q :=
  {| id := "long"; narration := of_string "Calm! Go.";
     imageUrl := Some "i2"%string; videoUrl := None;
     audioUrl := Some "a2"%string; audioDuration := Some 10%Q |}.

(** A preview in which the first narration plays to its end at time 2000
    and the second one starts. *)
Definition secondScenePlaying : list (Q * Event) :=
  [ (0%Q, EvStart anyEncoder false); (1%Q, EvPlaySettled true);
    (2000%Q, EvEnded); (2001%Q, EvPlaySettled true) ].

(** The zoom of the tick that the pending frame request runs at [now]. *)
Definition loopZoom (scenes : list (Scene Q)) (p : Player) (now : Q)
  : option Q :=
  option_map
    (fun t => Renderer.kenBurnsScale (Renderer.currentScene t)
                (Renderer.now t) (Renderer.sceneStartTime t))
    (loopTick scenes p None
       {| Renderer.readyState := 0; Renderer.paused := true;
          Renderer.videoWidth := 0; Renderer.videoHeight := 0 |}
       (Renderer.ImgAvailable true 1920 1080) 0 now).

End SequencerVocabulary.

(* ================================================================== *)
(** * Vocabulary of binary64 *)
(* ================================================================== *)

(** A number of binary64 that is neither negative nor a NaN: [+0], a
    positive number of the format, or [+Infinity]. *)
Definition nonneg64 (x : F64.float) : bool :=
  match x with
  | S754_zero false | S754_infinity false => true
  | S754_finite false m e => bounded 53 1024 m e
  | _ => false
  end.

(** A positive number of the format. *)
Definition finitePositive64 (x : F64.float) : bool :=
  match x with
  | S754_finite false m e => bounded 53 1024 m e
  | _ => false
  end.

Section WaitingVocabulary.

Import Sequencer.

(** The event fires a pending [setTimeout(handleNext, ...)]. *)
Definition firesAdvance (p : Player) (e : Event) : bool :=
  match e with
  | EvTimer k =>
      match nth_error (timers p) k with
      | Some t => isAdvanceTimer t
      | None => false
      end
  | _ => false
  end.

(** A run during which no advance timer fires. *)
Fixpoint runWaiting (scenes : list (Scene Q)) (p : Player)
    (es : list (Q * Event)) : option Player :=
  match es with
  | [] => Some p
  | (now, e) :: rest =>
      if firesAdvance p e then None
      else match step scenes now p e with
           | Some p' => runWaiting scenes p' rest
           | None => None
           end
  end.

(** A silent scene followed by a narrated one, and the player that the
    start of a preview at time 0 leaves in the first of them. *)
Definition silentFirst : list (Scene Q) := [sceneSilent; sceneWithAudio].

Definition silentEntered : Player :=
  Eval vm_compute in
    match step silentFirst 0 initialPlayer (EvStart anyEncoder false) with
    | Some p => p
    | None => initialPlayer
    end.

End WaitingVocabulary.

(* ================================================================== *)
(** * Thrown values and effectful code *)
(* ================================================================== *)

Module Js.

(** A thrown value: its [name] and its [message]. *)
Record Thrown : Type := {
  errName : string;
  message : string
}.

(** An exception of the platform ([TypeError], [SyntaxError], a
    [DOMException]). *)
Definition PlatformError (name : string) : Thrown :=
  {| errName := name; message := name |}.

(** Code that reads and writes a state [S] and returns or throws; what it
    wrote before it threw stays written. *)
Definition Eff (S A : Type) : Type := S -> (Thrown + A) * S.

Definition ret {S A} (a : A) : Eff S A := fun s => (inr a, s).

Definition bind {S A B} (m : Eff S A) (k : A -> Eff S B) : Eff S B :=
  fun s =>
    match m s with
    | (inl e, s') => (inl e, s')
    | (inr a, s') => k a s'
    end.

Definition throw {S A} (e : Thrown) : Eff S A := fun s => (inl e, s).

(** [try { m } catch (e) { h e }] *)
Definition try_catch {S A} (m : Eff S A) (h : Thrown -> Eff S A) : Eff S A :=
  fun s =>
    match m s with
    | (inl e, s') => h e s'
    | (inr a, s') => (inr a, s')
    end.

Definition get {S} : Eff S S := fun s => (inr s, s).
Definition modify {S} (f : S -> S) : Eff S unit := fun s => (inr tt, f s).

(** Code on a part of the state. *)
Definition zoom {S T A} (proj : S -> T) (inj : T -> S -> S) (m : Eff T A)
  : Eff S A :=
  fun s =>
    match m (proj s) with
    | (r, t') => (r, inj t' s)
    end.

Definition returns {S A} (m : Eff S A) (s : S) : bool :=
  match fst (m s) with
  | inr _ => true
  | inl _ => false
  end.

Definition state_after {S A} (m : Eff S A) (s : S) : S := snd (m s).

Declare Scope eff_scope.
Delimit Scope eff_scope with eff.
Notation "x <- m ;; k" := (bind m (fun x => k))
  (at level 61, m at next level, right associativity) : eff_scope.
Notation "m1 ;; m2" := (bind m1 (fun _ => m2))
  (at level 61, right associativity) : eff_scope.

(** [arr.findIndex(f)]; [None] stands for [-1]. *)
Fixpoint findIndex {A} (f : A -> bool) (l : list A) : option nat :=
  match l with
  | [] => None
  | x :: r => if f x then Some 0%nat else option_map S (findIndex f r)
  end.

(** [arr[i] = v] for an index below the length. *)
Fixpoint set_nth {A} (i : nat) (v : A) (l : list A) : list A :=
  match l, i with
  | [], _ => []
  | _ :: r, O => v :: r
  | x :: r, S j => x :: set_nth j v r
  end.

End Js.

(* ================================================================== *)
(** * Scenes and projects ([types.ts]) *)
(* ================================================================== *)

Module Types.

(** [interface Scene], all of its fields. *)
Record Scene : Type := MkScene {
  id : string;
  narration : jsstring;
  visualPrompt : string;
  imageUrl : option string;
  videoUrl : option string;
  audioUrl : option string;
  audioDuration : option Q;
  isGeneratingImage : bool;
  isGeneratingVideo : bool;
  isGeneratingAudio : bool
}.

End Types.

Module Project.

(** [interface Project]; [globalCharacter] and [globalStyle] are the two
    properties that [handleCreateScript] adds to the object. *)
Record Project : Type := MkProject {
  id : string;
  createdAt : Z;
  updatedAt : Z;
  title : string;
  targetAudience : string;
  coreValue : string;
  scenes : list Types.Scene;
  globalCharacter : option string;
  globalStyle : option string
}.

Definition set_updatedAt (v : Z) (p : Project) : Project :=
  MkProject (id p) (createdAt p) v (title p) (targetAudience p) (coreValue p)
    (scenes p) (globalCharacter p) (globalStyle p).

End Project.

(* ================================================================== *)
(** * The project store ([services/storageService.ts]) *)
(* ================================================================== *)

Module Storage.

Import Js.
Local Open Scope eff_scope.

Definition Project : Type := Project.Project.

(** What [JSON.parse] makes of a text that it accepts.  An array is taken
    to hold projects, as the return type of [getProjectsFromStorage]
    declares. *)
Inductive Parsed : Type :=
| PArray (l : list Project)
| PNotArray.

(** The text under [STORAGE_KEY], by what [JSON.parse] does with it;
    [JSON.stringify] of an array of projects is the text that parses back
    to that array. *)
Inductive Text : Type :=
| EmptyText                  (* [''] *)
| Malformed                  (* [JSON.parse] throws *)
| Json (v : Parsed).

Definition text_truthy (t : Text) : bool :=
  match t with
  | EmptyText => false
  | _ => true
  end.

Definition JSON_stringify (l : list Project) : Text := Json (PArray l).

(** [localStorage] and the console. *)
Record Store : Type := {
  item : option Text;          (* [localStorage.getItem(STORAGE_KEY)] *)
  console : list string        (* [console.error] calls *)
}.

(** How the storage of the browser behaves: [getItem] may throw (access
    denied), [setItem] may throw (quota exceeded). *)
Record Browser : Type := {
  getItemThrows : bool;
  setItemAccepts : list Project -> bool
}.

Definition localStorage_getItem (b : Browser) : Eff Store (option Text) :=
  if getItemThrows b then throw (PlatformError "SecurityError")
  else s <- get ;; ret (item s).

Definition localStorage_setItem (b : Browser) (l : list Project)
  : Eff Store unit :=
  if setItemAccepts b l
  then modify (fun s => {| item := Some (JSON_stringify l);
                           console := console s |})
  else throw (PlatformError "QuotaExceededError").

Definition JSON_parse (t : Text) : Eff Store Parsed :=
  match t with
  | Json v => ret v
  | _ => throw (PlatformError "SyntaxError")
  end.

Definition console_error (msg : string) : Eff Store unit :=
  modify (fun s => {| item := item s; console := console s ++ [msg] |}).

(** [getProjectsFromStorage] *)
Definition getProjectsFromStorage (b : Browser) : Eff Store Parsed :=
  try_catch
    (raw <- localStorage_getItem b ;;
     match raw with
     | Some t => if text_truthy t then JSON_parse t else ret (PArray [])
     | None => ret (PArray [])
     end)
    (fun _ => ret (PArray [])).

(** A method of arrays called on the parsed value: a [TypeError] when the
    value is not an array. *)
Definition as_array (v : Parsed) : Eff Store (list Project) :=
  match v with
  | PArray l => ret l
  | PNotArray => throw (PlatformError "TypeError")
  end.

Definition same_id (pid : string) (p : Project) : bool :=
  String.eqb (Project.id p) pid.

(** [saveProjectToStorage(project)].  The function writes [updatedAt] into
    the object it is given, so that object is part of the state. *)
Definition on_store {A} (m : Eff Store A) : Eff (Project * Store) A :=
  zoom snd (fun t s => (fst s, t)) m.

Definition the_project : Eff (Project * Store) Project :=
  zoom fst (fun o s => (o, snd s)) get.

Definition saveProjectToStorage (b : Browser) (now : Z)
  : Eff (Project * Store) unit :=
  try_catch
    (existing <- on_store (getProjectsFromStorage b) ;;
     project <- the_project ;;
     l <- on_store (as_array existing) ;;
     let index := findIndex (same_id (Project.id project)) l in
     (* project.updatedAt = Date.now() *)
     modify (fun s => (Project.set_updatedAt now (fst s), snd s)) ;;
     project <- the_project ;;
     let l' := match index with
               | Some i => set_nth i project l      (* existing[index] = project *)
               | None => project :: l               (* existing.unshift(project) *)
               end in
     on_store (localStorage_setItem b l'))
    (fun _ => on_store (console_error "Failed to save project")).

(** [deleteProjectFromStorage(id)] *)
Definition deleteProjectFromStorage (b : Browser) (pid : string)
  : Eff Store (list Project) :=
  try_catch
    (existing <- getProjectsFromStorage b ;;
     l <- as_array existing ;;
     let filtered := filter (fun p => negb (same_id pid p)) l in
     localStorage_setItem b filtered ;;
     ret filtered)
    (fun _ => console_error "Failed to delete project" ;; ret []).

End Storage.

Section StorageVocabulary.

Import Js Storage.

(** What the store reads as: the array under the key, and the empty array
    when the key is absent, its text is empty or malformed, or the storage
    cannot be read. *)
Definition contents (b : Browser) (s : Store) : Parsed :=
  if getItemThrows b then PArray []
  else match item s with
       | Some (Json v) => v
       | _ => PArray []
       end.

(** The array that [saveProjectToStorage] writes for [project] over [l]. *)
Definition with_saved (project : Project) (l : list Project) : list Project :=
  match findIndex (same_id (Project.id project)) l with
  | Some i => set_nth i project l
  | None => project :: l
  end.

Definition without_id (pid : string) (l : list Project) : list Project :=
  filter (fun p => negb (same_id pid p)) l.

Definition ids (l : list Project) : list string := List.map Project.id l.

(** A browser whose storage works, and one whose storage is full. *)
Definition workingStorage : Browser :=
  {| getItemThrows := false; setItemAccepts := fun _ => true |}.

Definition fullStorage : Browser :=
  {| getItemThrows := false; setItemAccepts := fun _ => false |}.

Definition demoProject (pid : string) (t : string) : Project :=
  {| Project.id := pid; Project.createdAt := 1; Project.updatedAt := 1;
     Project.title := t; Project.targetAudience := "Children";
     Project.coreValue := "Compassion"; Project.scenes := [];
     Project.globalCharacter := None; Project.globalStyle := None |}.

Definition demoStore : Store :=
  {| item := Some (Json (PArray [demoProject "a" "A"; demoProject "b" "B"]));
     console := [] |}.

Definition brokenStore : Store :=
  {| item := Some (Json PNotArray); console := [] |}.

End StorageVocabulary.

(* ================================================================== *)
(** * The subtitle chunker *)
(* ================================================================== *)

Section ChunkerFacts.

Context {num : Type} (ops : NumOps num).

Lemma forEach_fold (totalChars : nat) (duration : num) :
  forall parts t acc,
    fold_left (forEach_step ops totalChars duration) parts (t, acc)
    = (time_after ops totalChars duration t parts,
       acc ++ chunks_from ops totalChars duration t parts).
Proof.
  induction parts as [|part rest IH]; intros t acc; simpl.
  - now rewrite app_nil_r.
  - rewrite IH. unfold time_after; simpl. now rewrite <- app_assoc.
Qed.

Lemma chunks_of_from (finalParts : list jsstring) (duration : num) :
  chunks_of ops finalParts duration
  = chunks_from ops (totalChars_of finalParts) duration (n_zero ops)
      finalParts.
Proof. unfold chunks_of. now rewrite forEach_fold. Qed.

Lemma chunks_from_contiguous (totalChars : nat) (duration : num) :
  forall parts t,
    contiguous_from t (chunks_from ops totalChars duration t parts).
Proof. induction parts as [|part rest IH]; intros t; simpl; auto. Qed.

Lemma chunks_from_length (totalChars : nat) (duration : num) :
  forall parts t,
    length (chunks_from ops totalChars duration t parts) = length parts.
Proof. induction parts as [|part rest IH]; intros t; simpl; auto. Qed.

Lemma contiguous_from_nth :
  forall (cs : list (SubtitleChunk num)) t i c c',
    contiguous_from t cs ->
    nth_error cs i = Some c -> nth_error cs (S i) = Some c' ->
    start c' = end_ c.
Proof.
  induction cs as [|c0 rest IH]; intros t i c c' Hc Hi Hs.
  - destruct i; discriminate.
  - destruct Hc as [_ Hrest]. destruct i as [|i]; simpl in *.
    + injection Hi as <-. destruct rest as [|c1 rest']; [discriminate|].
      simpl in Hs. injection Hs as <-. now destruct Hrest.
    + eapply IH; eauto.
Qed.

(** The chunk at index [i] is the [i]-th part, it starts at the running
    sum of the durations before it and ends one duration later. *)
Lemma chunks_from_nth (totalChars : nat) (duration : num) :
  forall parts t i part,
    nth_error parts i = Some part ->
    nth_error (chunks_from ops totalChars duration t parts) i
    = Some {| text := part;
              start := time_after ops totalChars duration t (firstn i parts);
              end_ := n_add ops
                        (time_after ops totalChars duration t (firstn i parts))
                        (partDuration ops totalChars duration part) |}.
Proof.
  induction parts as [|p0 rest IH]; intros t i part Hi.
  - destruct i; discriminate.
  - destruct i as [|i]; simpl in *.
    + now injection Hi as <-.
    + rewrite (IH _ _ _ Hi). reflexivity.
Qed.

Lemma time_after_app (totalChars : nat) (duration : num) :
  forall l1 l2 t,
    time_after ops totalChars duration t (l1 ++ l2)
    = time_after ops totalChars duration
        (time_after ops totalChars duration t l1) l2.
Proof. intros; unfold time_after; now rewrite fold_left_app. Qed.

Lemma firstn_pred_last {A} (l : list A) (x : A) :
  nth_error l (length l - 1) = Some x ->
  l = firstn (length l - 1) l ++ [x].
Proof.
  induction l as [|a [|b r] IH]; intros H.
  - discriminate.
  - simpl in *. congruence.
  - replace (length (a :: b :: r) - 1)%nat with (S (length (b :: r) - 1)) in *
      by (simpl; lia).
    simpl firstn. simpl nth_error in H.
    rewrite <- app_comm_cons. f_equal. apply IH, H.
Qed.

(** The last chunk ends at the running sum over all parts. *)
Lemma chunks_from_last (totalChars : nat) (duration : num) :
  forall parts t,
    parts <> [] ->
    exists c,
      nth_error (chunks_from ops totalChars duration t parts)
        (length parts - 1) = Some c
      /\ end_ c = time_after ops totalChars duration t parts.
Proof.
  intros parts t Hne.
  assert (Hlt : (length parts - 1 < length parts)%nat).
  { destruct parts; [congruence | simpl; lia]. }
  destruct (nth_error parts (length parts - 1)) as [part|] eqn:Hp;
    [| apply nth_error_None in Hp; lia].
  eexists; split; [apply chunks_from_nth; exact Hp|]. simpl.
  rewrite (firstn_pred_last _ Hp) at 3.
  rewrite time_after_app. reflexivity.
Qed.

End ChunkerFacts.

(** ** The parts of a narration *)

Lemma reduce_keeps_nonempty (arr : list jsstring) :
  forall l acc,
    Forall (fun part => part <> []) acc ->
    Forall (fun part => part <> []) (fold_left (reduce_step arr) l acc).
Proof.
  induction l as [|[i curr] l IH]; intros acc Hacc; simpl; auto.
  apply IH.
  destruct (Nat.even i && truthy (trim curr)) eqn:E; auto.
  apply Forall_app; split; auto.
  constructor; auto.
  apply andb_true_iff in E as [_ E].
  destruct (trim curr); [discriminate | discriminate].
Qed.

Lemma parts_of_nonempty (txt : jsstring) :
  Forall (fun part => part <> []) (parts_of txt).
Proof. apply reduce_keeps_nonempty; constructor. Qed.

Lemma finalParts_of_not_nil (txt : jsstring) : finalParts_of txt <> [].
Proof.
  unfold finalParts_of.
  destruct (parts_of txt) as [|part rest]; simpl; discriminate.
Qed.

(** The [reduce] counts the characters of the parts. *)
Lemma totalChars_concat (fp : list jsstring) :
  totalChars_of fp = length (concat fp).
Proof.
  unfold totalChars_of.
  enough (H : forall n,
             fold_left (fun acc p => (acc + length p)%nat) fp n
             = (n + length (concat fp))%nat) by apply H.
  induction fp as [|p fp IH]; intros n; cbn [fold_left concat].
  - cbn. lia.
  - rewrite IH, length_app. lia.
Qed.

(** No characters at all: the narration is empty and is the only part. *)
Lemma totalChars_zero (txt : jsstring) :
  totalChars_of (finalParts_of txt) = 0%nat ->
  finalParts_of txt = [txt] /\ txt = [].
Proof.
  rewrite totalChars_concat. unfold finalParts_of.
  pose proof (parts_of_nonempty txt) as Hne.
  destruct (parts_of txt) as [|part rest]; simpl; intros H.
  - rewrite app_nil_r in H. split; [reflexivity|].
    now apply length_zero_iff_nil.
  - inversion Hne as [|? ? Hpart _]; subst.
    rewrite length_app in H. destruct part; [congruence | simpl in H; lia].
Qed.

(** ** Exact arithmetic *)

Section ExactChunks.

Local Open Scope Q_scope.

Lemma QofNat_nonneg (n : nat) : 0 <= QofNat n.
Proof. unfold QofNat, Qle; simpl. lia. Qed.

Lemma QofNat_pos (n : nat) : (0 < n)%nat -> 0 < QofNat n.
Proof. unfold QofNat, Qlt; simpl. lia. Qed.

Lemma QofNat_plus (a b : nat) : QofNat (a + b) == QofNat a + QofNat b.
Proof. unfold QofNat. now rewrite Nat2Z.inj_add, inject_Z_plus. Qed.

Lemma partDuration_exact (L : nat) (D : Q) (part : jsstring) :
  (0 < L)%nat ->
  partDuration QOps L D part == D * QofNat (length part) / QofNat L.
Proof.
  intros HL. unfold partDuration.
  destruct (0 <? L)%nat eqn:E; [| apply Nat.ltb_ge in E; lia].
  simpl.
  field. apply Qnot_eq_sym, Qlt_not_eq, QofNat_pos, HL.
Qed.

Lemma partDuration_nonneg (L : nat) (D : Q) (part : jsstring) :
  0 <= D -> 0 <= partDuration QOps L D part.
Proof.
  intros HD. unfold partDuration.
  destruct (0 <? L)%nat eqn:E; [|exact HD].
  apply Nat.ltb_lt in E. simpl.
  apply Qmult_le_0_compat; [|exact HD].
  apply Qle_shift_div_l; [now apply QofNat_pos|].
  rewrite Qmult_0_l. apply QofNat_nonneg.
Qed.

(** The running sum, in closed form. *)
Lemma time_after_exact (L : nat) (D : Q) :
  (0 < L)%nat ->
  forall parts t,
    time_after QOps L D t parts
    == t + D * QofNat (length (concat parts)) / QofNat L.
Proof.
  intros HL.
  assert (HLq : ~ QofNat L == 0) by apply Qnot_eq_sym, Qlt_not_eq, QofNat_pos, HL.
  induction parts as [|part rest IH]; intros t.
  - simpl. change (QofNat 0) with 0. now field.
  - change (time_after QOps L D t (part :: rest))
      with (time_after QOps L D (t + partDuration QOps L D part) rest).
    rewrite IH, (partDuration_exact D part HL).
    simpl concat. rewrite length_app, QofNat_plus. now field.
Qed.

End ExactChunks.

(** Every chunk is one part, and ends one part duration after it starts. *)
Lemma chunk_at {num : Type} (ops : NumOps num) (L : nat) (D : num) :
  forall parts t i c,
    nth_error (chunks_from ops L D t parts) i = Some c ->
    exists part,
      nth_error parts i = Some part
      /\ text c = part
      /\ end_ c = n_add ops (start c) (partDuration ops L D part).
Proof.
  intros parts t i c Hc.
  destruct (nth_error parts i) as [part|] eqn:Hp.
  - rewrite (chunks_from_nth ops L D parts t _ Hp) in Hc.
    injection Hc as <-. now exists part.
  - apply nth_error_None in Hp.
    rewrite <- (chunks_from_length ops L D parts t) in Hp.
    apply nth_error_None in Hp. congruence.
Qed.

Section Binary64Facts.

Local Open Scope Z_scope.

(** ** Digits *)

Lemma digits2_pos_size (p : positive) : digits2_pos p = Pos.size p.
Proof. induction p; simpl; congruence. Qed.

Lemma Zdigits2_spec (p : positive) :
  2 ^ (Zdigits2 (Zpos p) - 1) <= Zpos p < 2 ^ Zdigits2 (Zpos p).
Proof.
  unfold Zdigits2. rewrite digits2_pos_size. split.
  - pose proof (Pos.size_le p) as H.
    assert (H2 : (2 ^ Z.pos (Pos.size p) <= Z.pos p~0)).
    { rewrite <- Pos2Z.inj_pow. exact H. }
    replace (Z.pos (Pos.size p)) with (Z.succ (Z.pos (Pos.size p) - 1)) in H2
      by lia.
    rewrite Z.pow_succ_r in H2 by lia. lia.
  - pose proof (Pos.size_gt p) as H.
    rewrite <- Pos2Z.inj_pow. exact H.
Qed.

Lemma Zdigits2_pos (p : positive) : 0 < Zdigits2 (Zpos p).
Proof. simpl. lia. Qed.

Lemma Zdigits2_unique (z k : Z) :
  0 < k -> 2 ^ (k - 1) <= z < 2 ^ k -> Zdigits2 z = k.
Proof.
  intros Hk [Hlo Hhi].
  assert (Hz : 0 < z) by (pose proof (Z.pow_pos_nonneg 2 (k - 1)); lia).
  destruct z as [|p|p]; try lia.
  pose proof (Zdigits2_spec p) as [Hlo' Hhi'].
  pose proof (Zdigits2_pos p) as Hd.
  set (d := Zdigits2 (Z.pos p)) in *.
  destruct (Z.lt_trichotomy d k) as [Hlt | [Heq | Hgt]]; [|exact Heq|].
  - assert (2 ^ d <= 2 ^ (k - 1)) by (apply Z.pow_le_mono_r; lia). lia.
  - assert (2 ^ k <= 2 ^ (d - 1)) by (apply Z.pow_le_mono_r; lia). lia.
Qed.

Lemma Zdigits2_le (a b : Z) : 0 < a -> a <= b -> Zdigits2 a <= Zdigits2 b.
Proof.
  intros Ha Hab.
  destruct a as [|p|p]; try lia. destruct b as [|q|q]; try lia.
  pose proof (Zdigits2_spec p) as [Hlo _].
  pose proof (Zdigits2_spec q) as [_ Hhi].
  pose proof (Zdigits2_pos p). pose proof (Zdigits2_pos q).
  destruct (Z_le_gt_dec (Zdigits2 (Z.pos p)) (Zdigits2 (Z.pos q)));
    [assumption|].
  assert (2 ^ Zdigits2 (Z.pos q) <= 2 ^ (Zdigits2 (Z.pos p) - 1))
    by (apply Z.pow_le_mono_r; lia).
  lia.
Qed.

Lemma Zdigits2_nonneg (z : Z) : 0 <= Zdigits2 z.
Proof. destruct z; simpl; lia. Qed.

(** The digits of [z * 2 ^ k]. *)
Lemma Zdigits2_mul_pow2 (z k : Z) :
  0 < z -> 0 <= k -> Zdigits2 (z * 2 ^ k) = Zdigits2 z + k.
Proof.
  intros Hz Hk. destruct z as [|p|p]; try lia.
  pose proof (Zdigits2_spec p) as [Hlo Hhi].
  pose proof (Zdigits2_pos p) as Hd.
  apply Zdigits2_unique; [lia|].
  replace (Zdigits2 (Z.pos p) + k - 1) with ((Zdigits2 (Z.pos p) - 1) + k)
    by lia.
  rewrite !Z.pow_add_r by lia.
  pose proof (Z.pow_pos_nonneg 2 k). split; nia.
Qed.

(** The digits of [z / 2 ^ n] when something is left. *)
Lemma Zdigits2_div_pow2 (z n : Z) :
  0 < z -> 0 <= n -> n < Zdigits2 z ->
  0 < z / 2 ^ n /\ Zdigits2 (z / 2 ^ n) = Zdigits2 z - n.
Proof.
  intros Hz Hn Hlt. destruct z as [|p|p]; try lia.
  pose proof (Zdigits2_spec p) as [Hlo Hhi].
  set (d := Zdigits2 (Z.pos p)) in *.
  assert (Hp : 0 < 2 ^ n) by (apply Z.pow_pos_nonneg; lia).
  assert (Hlo' : 2 ^ (d - n - 1) <= Z.pos p / 2 ^ n).
  { apply Z.div_le_lower_bound; [lia|].
    rewrite <- Z.pow_add_r by lia.
    replace (n + (d - n - 1)) with (d - 1) by lia. exact Hlo. }
  assert (Hhi' : Z.pos p / 2 ^ n < 2 ^ (d - n)).
  { apply Z.div_lt_upper_bound; [lia|].
    rewrite <- Z.pow_add_r by lia.
    replace (n + (d - n)) with d by lia. exact Hhi. }
  assert (0 < 2 ^ (d - n - 1)) by (apply Z.pow_pos_nonneg; lia).
  split; [lia|].
  apply Zdigits2_unique; [lia|]. split; [|exact Hhi'].
  replace (d - n - 1) with (d - n - 1) in Hlo' by lia. exact Hlo'.
Qed.

Lemma Zdigits2_div_pow2_zero (z n : Z) :
  0 <= z -> 0 <= n -> Zdigits2 z <= n -> z / 2 ^ n = 0.
Proof.
  intros Hz Hn Hle. destruct z as [|p|p]; try lia.
  - apply Z.div_0_l. pose proof (Z.pow_pos_nonneg 2 n). lia.
  - pose proof (Zdigits2_spec p) as [_ Hhi].
    apply Z.div_small. split; [lia|].
    assert (2 ^ Zdigits2 (Z.pos p) <= 2 ^ n) by (apply Z.pow_le_mono_r; lia).
    lia.
Qed.

(** ** Shifting right *)

Lemma shr_1_m (mrs : shr_record) :
  0 <= shr_m mrs -> shr_m (shr_1 mrs) = shr_m mrs / 2.
Proof.
  destruct mrs as [m r s]. cbn [shr_m]. intros Hm.
  destruct m as [|[p|p|]|p]; cbn [shr_1 shr_m]; try lia.
  - reflexivity.
  - rewrite Pos2Z.inj_xI. apply Z.div_unique with 1; lia.
  - rewrite Pos2Z.inj_xO. apply Z.div_unique with 0; lia.
  - reflexivity.
Qed.

Lemma shr_1_nonneg (mrs : shr_record) :
  0 <= shr_m mrs -> 0 <= shr_m (shr_1 mrs).
Proof.
  intros H. rewrite shr_1_m by exact H. apply Z.div_pos; lia.
Qed.

Lemma pow2_xI (p : positive) : 2 ^ Z.pos p~1 = 2 * (2 ^ Z.pos p * 2 ^ Z.pos p).
Proof.
  rewrite (Pos2Z.inj_xI p).
  replace (2 * Z.pos p + 1) with (1 + (Z.pos p + Z.pos p)) by lia.
  rewrite Z.pow_add_r by lia. rewrite Z.pow_add_r by lia. reflexivity.
Qed.

Lemma pow2_xO (p : positive) : 2 ^ Z.pos p~0 = 2 ^ Z.pos p * 2 ^ Z.pos p.
Proof.
  rewrite (Pos2Z.inj_xO p).
  replace (2 * Z.pos p) with (Z.pos p + Z.pos p) by lia.
  rewrite Z.pow_add_r by lia. reflexivity.
Qed.

Lemma iter_pos_shr (p : positive) :
  forall mrs,
    0 <= shr_m mrs ->
    shr_m (iter_pos shr_1 p mrs) = shr_m mrs / 2 ^ Zpos p.
Proof.
  induction p as [p IH | p IH |]; intros mrs Hm; cbn [iter_pos].
  - assert (H1 : 0 <= shr_m (shr_1 mrs)) by now apply shr_1_nonneg.
    assert (H2 : 0 <= shr_m (iter_pos shr_1 p (shr_1 mrs))).
    { rewrite IH by exact H1. apply Z.div_pos; [lia|].
      apply Z.pow_pos_nonneg; lia. }
    rewrite IH by exact H2. rewrite IH by exact H1. rewrite shr_1_m by exact Hm.
    assert (Hp : 0 < 2 ^ Z.pos p) by (apply Z.pow_pos_nonneg; lia).
    rewrite pow2_xI.
    rewrite Z.div_div by lia. rewrite Z.div_div by lia.
    f_equal; lia.
  - assert (H2 : 0 <= shr_m (iter_pos shr_1 p mrs)).
    { rewrite IH by exact Hm. apply Z.div_pos; [lia|].
      apply Z.pow_pos_nonneg; lia. }
    rewrite IH by exact H2. rewrite IH by exact Hm.
    assert (Hp : 0 < 2 ^ Z.pos p) by (apply Z.pow_pos_nonneg; lia).
    rewrite pow2_xO. rewrite Z.div_div by lia. reflexivity.
  - rewrite shr_1_m by exact Hm. reflexivity.
Qed.

Lemma shr_record_of_loc_m (m : Z) (l : location) :
  shr_m (shr_record_of_loc m l) = m.
Proof. destruct l as [|[| |]]; reflexivity. Qed.

(** [shr_fexp] when the mantissa is not below its exponent: the mantissa is
    divided by the power of two that brings the exponent to [fexp]. *)
Lemma shr_fexp_spec (m e : Z) (l : location) :
  0 <= m ->
  e <= fexp 53 1024 (Zdigits2 m + e) ->
  shr_m (fst (shr_fexp 53 1024 m e l))
  = m / 2 ^ (fexp 53 1024 (Zdigits2 m + e) - e)
  /\ snd (shr_fexp 53 1024 m e l) = fexp 53 1024 (Zdigits2 m + e).
Proof.
  intros Hm Hn. unfold shr_fexp, shr.
  destruct (fexp 53 1024 (Zdigits2 m + e) - e) as [|p|p] eqn:En; try lia.
  - cbn [fst snd]. rewrite shr_record_of_loc_m.
    change (2 ^ 0) with 1. rewrite Z.div_1_r. split; [reflexivity | lia].
  - cbn [fst snd]. rewrite iter_pos_shr by (rewrite shr_record_of_loc_m; lia).
    rewrite shr_record_of_loc_m. split; [reflexivity | lia].
Qed.

Lemma round_nearest_even_bounds (m : Z) (l : location) :
  m <= round_nearest_even m l <= m + 1.
Proof.
  unfold round_nearest_even. destruct l as [|[| |]]; try lia.
  destruct (Z.even m); lia.
Qed.

Lemma fexp_unfold (e : Z) : fexp 53 1024 e = Z.max (e - 53) (-1074).
Proof. reflexivity. Qed.

(** ** Rounding *)

(** What [binary_round_aux] answers for a mantissa that is not below its
    exponent: never a NaN; a finite answer is a number of the format, its
    exponent is at least the exponent [et] the mantissa is shifted to and
    at most the one of a mantissa with a digit more, and at [et] its
    mantissa is at least the truncated one. *)
Lemma binary_round_aux_spec (s : bool) (mx ex : Z) (l : location) :
  0 <= mx ->
  ex <= fexp 53 1024 (Zdigits2 mx + ex) ->
  let et := fexp 53 1024 (Zdigits2 mx + ex) in
  match binary_round_aux 53 1024 s mx ex l with
  | S754_zero s' => s' = s /\ mx / 2 ^ (et - ex) = 0
  | S754_infinity s' => s' = s /\ 971 < fexp 53 1024 (Zdigits2 mx + ex + 1)
  | S754_finite s' m e =>
      s' = s /\ bounded 53 1024 m e = true /\ et <= e
      /\ e <= fexp 53 1024 (Zdigits2 mx + ex + 1)
      /\ (e = et -> mx / 2 ^ (et - ex) <= Zpos m)
  | S754_nan => False
  end.
Proof.
  intros Hmx Hex et. unfold binary_round_aux.
  destruct (shr_fexp_spec l Hmx Hex) as [Hm' He'].
  destruct (shr_fexp 53 1024 mx ex l) as [mrs' e'] eqn:E1.
  cbn [fst snd] in Hm', He'. fold et in Hm', He'.
  set (m' := shr_m mrs') in *.
  pose proof (round_nearest_even_bounds m' (loc_of_shr_record mrs')) as Hm1.
  set (m1 := round_nearest_even m' (loc_of_shr_record mrs')) in *.
  assert (Hp : 0 < 2 ^ (et - ex)) by (apply Z.pow_pos_nonneg; lia).
  assert (Hm'0 : 0 <= m') by (rewrite Hm'; apply Z.div_pos; lia).
  (* the exponent after the first shift, against the digits left *)
  assert (Hdig : (0 < m' /\ Zdigits2 m' + e' = Zdigits2 mx + ex)
                 \/ (m' = 0 /\ e' = -1074)).
  { destruct (Z_lt_le_dec (et - ex) (Zdigits2 mx)) as [Hlt|Hge].
    - left. assert (Hmx0 : 0 < mx).
      { destruct mx; simpl in Hlt; lia. }
      destruct (@Zdigits2_div_pow2 mx (et - ex) Hmx0) as [H1 H2]; try lia.
      rewrite <- Hm' in H1, H2. split; [exact H1|]. lia.
    - right. split.
      + rewrite Hm'. apply Zdigits2_div_pow2_zero; lia.
      + pose proof (Zdigits2_nonneg mx). subst et.
        rewrite fexp_unfold in *. lia. }
  assert (He'min : -1074 <= e') by (subst et; rewrite He', fexp_unfold; lia).
  assert (Hd1 : Zdigits2 m' <= Zdigits2 m1 <= Zdigits2 m' + 1).
  { destruct Hm1 as [Hlo Hhi]. destruct (Z.eq_dec m1 m') as [->|Hne]; [lia|].
    assert (Heq : m1 = m' + 1) by lia.
    destruct (Z.eq_dec m' 0) as [Hz|Hnz].
    - rewrite Heq, Hz. simpl. lia.
    - split; [apply Zdigits2_le; lia|].
      assert (Hm'pos : 0 < m') by lia.
      destruct m' as [|p|p] eqn:Ep; try lia.
      pose proof (Zdigits2_spec p) as [_ Hhi'].
      pose proof (Zdigits2_pos p).
      destruct (Z.eq_dec (Z.pos p + 1) (2 ^ Zdigits2 (Z.pos p))) as [Hpow|Hnp].
      + rewrite Heq. rewrite (@Zdigits2_unique (Z.pos p + 1)
                                (Zdigits2 (Z.pos p) + 1)); try lia.
        replace (Zdigits2 (Z.pos p) + 1 - 1) with (Zdigits2 (Z.pos p)) by lia.
        rewrite Z.pow_add_r by lia. lia.
      + rewrite Heq. rewrite (@Zdigits2_unique (Z.pos p + 1)
                                (Zdigits2 (Z.pos p))); try lia.
        pose proof (Zdigits2_spec p) as [Hlo' _]. lia. }
  (* the second shift *)
  assert (Hex2 : 0 < m1 -> e' <= fexp 53 1024 (Zdigits2 m1 + e')).
  { intros Hm1pos. rewrite fexp_unfold.
    destruct Hdig as [[Hpos Hsum] | [Hz He]].
    - subst et. rewrite fexp_unfold in He'. lia.
    - lia. }
  destruct (Z.eq_dec m1 0) as [Hz1|Hnz1].
  - (* everything was shifted out *)
    assert (Hm'z : m' = 0) by lia.
    rewrite Hz1. unfold shr_fexp, shr. cbn [Zdigits2 Z.add].
    destruct (fexp 53 1024 e' - e') eqn:En; cbn [shr_record_of_loc shr_m];
      try (split; [reflexivity | now rewrite <- Hm']).
    rewrite iter_pos_shr by (cbn; lia). cbn [shr_m].
    rewrite Z.div_0_l by (pose proof (Z.pow_pos_nonneg 2 (Z.pos p)); lia).
    split; [reflexivity | now rewrite <- Hm'].
  - assert (Hm1pos : 0 < m1) by lia.
    specialize (Hex2 Hm1pos).
    destruct (@shr_fexp_spec m1 e' loc_Exact) as [Hm'' He'']; try lia.
    destruct (shr_fexp 53 1024 m1 e' loc_Exact) as [mrs'' e''] eqn:E2.
    cbn [fst snd] in Hm'', He''.
    set (n2 := fexp 53 1024 (Zdigits2 m1 + e') - e') in *.
    assert (Hd1pos : 0 < Zdigits2 m1).
    { destruct m1; simpl; lia. }
    assert (Hn2 : n2 < Zdigits2 m1).
    { subst n2. rewrite fexp_unfold. lia. }
    destruct (@Zdigits2_div_pow2 m1 n2 Hm1pos) as [Hm''pos Hd'']; try lia.
    rewrite <- Hm'' in Hm''pos, Hd''.
    destruct (shr_m mrs'') as [|m|m] eqn:Em; try lia.
    destruct (e'' <=? 1024 - 53) eqn:Ebound.
    + split; [reflexivity|]. split; [|split; [|split]].
      * unfold bounded, canonical_mantissa.
        apply andb_true_iff. split; [|exact Ebound].
        apply Z.eqb_eq.
        change (Z.pos (digits2_pos m)) with (Zdigits2 (Z.pos m)).
        rewrite Hd''. replace (Zdigits2 m1 - n2 + e'')
          with (Zdigits2 m1 + e') by (subst n2; lia).
        lia.
      * lia.
      * rewrite !fexp_unfold in *. subst n2.
        destruct Hdig as [[Hpos Hsum] | [Hz He]]; [lia|].
        assert (Hdz : Zdigits2 m' = 0) by (rewrite Hz; reflexivity). lia.
      * intros Heq. assert (Hn0 : n2 = 0) by (subst n2; lia).
        rewrite Hn0 in Hm''. change (2 ^ 0) with 1 in Hm''.
        rewrite Z.div_1_r in Hm''. rewrite <- Hm'. lia.
    + split; [reflexivity|]. apply Z.leb_gt in Ebound.
      rewrite !fexp_unfold in *. subst n2.
      destruct Hdig as [[Hpos Hsum] | [Hz He]]; [lia|].
      assert (Hdz : Zdigits2 m' = 0) by (rewrite Hz; reflexivity). lia.
Qed.

(** ** The operations on non-negative numbers *)

Lemma iter_xO_pow2 (m d : positive) :
  Zpos (Pos.iter xO m d) = Zpos m * 2 ^ Zpos d.
Proof.
  induction d as [|d IH] using Pos.peano_ind.
  - cbn [Pos.iter]. rewrite Pos2Z.inj_xO. change (2 ^ 1) with 2. lia.
  - rewrite Pos.iter_succ, Pos2Z.inj_xO, IH, Pos2Z.inj_succ.
    rewrite Z.pow_succ_r by lia. lia.
Qed.

(** [shl_align] to an exponent that is not above: the mantissa is
    multiplied by the power of two in between. *)
Lemma shl_align_le (m : positive) (e e' : Z) :
  e' <= e ->
  Zpos (fst (shl_align m e e')) = Zpos m * 2 ^ (e - e')
  /\ snd (shl_align m e e') = e'.
Proof.
  intros Hle. unfold shl_align.
  destruct (e' - e) as [|d|d] eqn:Ed; cbn [fst snd]; try lia.
  - replace (e - e') with 0 by lia. change (2 ^ 0) with 1. split; lia.
  - rewrite iter_xO_pow2. replace (e - e') with (Z.pos d) by lia. split; lia.
Qed.

Lemma shl_align_ge (m : positive) (e e' : Z) :
  e <= e' -> shl_align m e e' = (m, e).
Proof.
  intros Hle. unfold shl_align. destruct (e' - e) eqn:Ed; try reflexivity. lia.
Qed.

(** A valid finite number: its exponent and digits. *)
Lemma bounded_unfold (m : positive) (e : Z) :
  bounded 53 1024 m e = true <->
  Z.max (Zdigits2 (Zpos m) + e - 53) (-1074) = e /\ e <= 971.
Proof.
  unfold bounded, canonical_mantissa. rewrite andb_true_iff, Z.eqb_eq, Z.leb_le.
  rewrite fexp_unfold. reflexivity.
Qed.

(** [binary_round] of a mantissa at an exponent of the format: a number
    of the format or an infinity, with the sign given. *)
Lemma binary_round_spec (s : bool) (m : positive) (e : Z) :
  -1074 <= e ->
  match binary_round 53 1024 s m e with
  | S754_finite s' m' e' =>
      s' = s /\ bounded 53 1024 m' e' = true
      /\ fexp 53 1024 (Zdigits2 (Zpos m) + e) <= e'
         <= fexp 53 1024 (Zdigits2 (Zpos m) + e + 1)
  | S754_infinity s' =>
      s' = s /\ 971 < fexp 53 1024 (Zdigits2 (Zpos m) + e + 1)
  | _ => False
  end.
Proof.
  intros He. unfold binary_round.
  change (Z.pos (digits2_pos m)) with (Zdigits2 (Z.pos m)).
  pose proof (Zdigits2_pos m) as Hd.
  destruct (Z_le_gt_dec e (fexp 53 1024 (Zdigits2 (Z.pos m) + e)))
    as [Hle|Hgt].
  - rewrite shl_align_ge by exact Hle.
    pose proof (@binary_round_aux_spec s (Z.pos m) e loc_Exact
                  (Pos2Z.is_nonneg m) Hle) as H.
    cbv zeta in H.
    destruct (binary_round_aux 53 1024 s (Z.pos m) e loc_Exact)
      as [s'|s'|  |s' m' e']; try tauto.
    destruct H as [_ H]. exfalso.
    destruct (@Zdigits2_div_pow2 (Z.pos m)
                (fexp 53 1024 (Zdigits2 (Z.pos m) + e) - e)) as [H1 _];
      try lia.
    rewrite fexp_unfold. lia.
  - destruct (@shl_align_le m e (fexp 53 1024 (Zdigits2 (Z.pos m) + e)))
      as [Hmz Hez]; [lia|].
    destruct (shl_align m e (fexp 53 1024 (Zdigits2 (Z.pos m) + e)))
      as [mz ez]. cbn [fst snd] in Hmz, Hez.
    assert (Hdz : Zdigits2 (Z.pos mz) + ez = Zdigits2 (Z.pos m) + e).
    { rewrite Hmz, Zdigits2_mul_pow2 by lia. lia. }
    assert (Hle : ez <= fexp 53 1024 (Zdigits2 (Z.pos mz) + ez))
      by (rewrite Hdz; lia).
    pose proof (@binary_round_aux_spec s (Z.pos mz) ez loc_Exact
                  (Pos2Z.is_nonneg mz) Hle) as H.
    cbv zeta in H. rewrite Hdz in H.
    destruct (binary_round_aux 53 1024 s (Z.pos mz) ez loc_Exact)
      as [s'|s'|  |s' m' e']; try tauto.
    destruct H as [_ H]. exfalso.
    replace (fexp 53 1024 (Zdigits2 (Z.pos m) + e) - ez) with 0 in H by lia.
    change (2 ^ 0) with 1 in H. rewrite Z.div_1_r in H. lia.
Qed.

Lemma finitePositive_nonneg (x : F64.float) :
  finitePositive64 x = true -> nonneg64 x = true.
Proof. destruct x as [[|]|[|]| |[|] m e]; simpl; auto. Qed.

(** A positive integer below [2 ^ 53] is a number of the format, with an
    exponent between -52 and 1. *)
Lemma of_Z_small (z : Z) :
  0 < z < 2 ^ 53 ->
  exists m e,
    F64.of_Z z = S754_finite false m e
    /\ bounded 53 1024 m e = true /\ -52 <= e <= 1.
Proof.
  intros [Hpos Hlt]. destruct z as [|p|p]; try lia.
  unfold F64.of_Z, binary_normalize.
  pose proof (@binary_round_spec false p 0 ltac:(lia)) as H.
  change F64.prec with 53. change F64.emax with 1024.
  assert (Hd : 0 < Zdigits2 (Z.pos p) <= 53).
  { split; [apply Zdigits2_pos|].
    destruct (Z_le_gt_dec (Zdigits2 (Z.pos p)) 53); [assumption|].
    pose proof (Zdigits2_spec p) as [Hlo _].
    assert (2 ^ 53 <= 2 ^ (Zdigits2 (Z.pos p) - 1))
      by (apply Z.pow_le_mono_r; lia).
    lia. }
  destruct (binary_round 53 1024 false p 0) as [s'|s'| |s' m' e'];
    try tauto.
  - exfalso. destruct H as [_ H]. rewrite fexp_unfold in H. lia.
  - destruct H as (-> & Hb & He). exists m', e'.
    split; [reflexivity|]. split; [exact Hb|].
    rewrite !fexp_unfold in He. lia.
Qed.

Lemma of_Z_small_positive (z : Z) :
  0 < z < 2 ^ 53 -> finitePositive64 (F64.of_Z z) = true.
Proof.
  intros Hz. destruct (of_Z_small Hz) as (m & e & -> & Hb & _). exact Hb.
Qed.

(** Adding two numbers that are not negative gives one that is not
    negative, and not below the first. *)
Lemma add_nonneg_ge (x y : F64.float) :
  nonneg64 x = true -> nonneg64 y = true ->
  nonneg64 (F64.add x y) = true /\ SFleb x (F64.add x y) = true.
Proof.
  unfold F64.add. change F64.prec with 53. change F64.emax with 1024.
  destruct x as [[|]|[|]| |[|] mx ex]; cbn [nonneg64]; try discriminate;
    destruct y as [[|]|[|]| |[|] my ey]; cbn [nonneg64]; try discriminate;
    intros Hx Hy; cbn [SFadd]; try (split; [assumption || reflexivity | reflexivity]).
  - (* a number and zero *)
    split; [exact Hx|]. unfold SFleb, SFcompare.
    rewrite Z.compare_refl. now rewrite Pos.compare_cont_refl.
  - (* two numbers *)
    apply bounded_unfold in Hx as [Hcx Hbx]. apply bounded_unfold in Hy as [Hcy Hby].
    pose proof (Zdigits2_pos mx) as Hdx. pose proof (Zdigits2_pos my) as Hdy.
    set (ez := Z.min ex ey).
    destruct (@shl_align_le mx ex ez ltac:(subst ez; lia)) as [Hmx' _].
    destruct (@shl_align_le my ey ez ltac:(subst ez; lia)) as [Hmy' _].
    set (mx' := fst (shl_align mx ex ez)) in *.
    set (my' := fst (shl_align my ey ez)) in *.
    cbn [cond_Zopp]. change (Z.pos mx' + Z.pos my') with (Z.pos (mx' + my')).
    cbn [binary_normalize]. unfold binary_round.
    change (Z.pos (digits2_pos (mx' + my'))) with (Zdigits2 (Z.pos (mx' + my'))).
    set (m := (mx' + my')%positive).
    assert (Hpx : 0 < 2 ^ (ex - ez)) by (apply Z.pow_pos_nonneg; subst ez; lia).
    assert (Hm : Z.pos mx * 2 ^ (ex - ez) <= Z.pos m) by (subst m; lia).
    assert (Hdm : Zdigits2 (Z.pos mx) + (ex - ez) <= Zdigits2 (Z.pos m)).
    { rewrite <- Zdigits2_mul_pow2 by (subst ez; lia).
      apply Zdigits2_le; [nia | exact Hm]. }
    assert (Het : ex <= fexp 53 1024 (Zdigits2 (Z.pos m) + ez))
      by (rewrite fexp_unfold; lia).
    rewrite shl_align_ge by (subst ez; lia).
    pose proof (@binary_round_aux_spec false (Z.pos m) ez loc_Exact
                  (Pos2Z.is_nonneg m) ltac:(subst ez; lia)) as H.
    cbv zeta in H.
    destruct (binary_round_aux 53 1024 false (Z.pos m) ez loc_Exact)
      as [s'|s'| |s' m'' e'']; try tauto.
    + exfalso. destruct H as [_ H].
      assert (Hn0 : 0 <= fexp 53 1024 (Zdigits2 (Z.pos m) + ez) - ez)
        by (subst ez; lia).
      assert (Hn1 : fexp 53 1024 (Zdigits2 (Z.pos m) + ez) - ez
                    < Zdigits2 (Z.pos m)).
      { pose proof (Zdigits2_pos m). rewrite fexp_unfold. subst ez. lia. }
      destruct (@Zdigits2_div_pow2 (Z.pos m) _ (Pos2Z.is_pos m) Hn0 Hn1)
        as [H1 _].
      lia.
    + destruct H as [-> _]. split; reflexivity.
    + destruct H as (-> & Hb & Hle & Hmant). cbn [nonneg64].
      split; [exact Hb|]. unfold SFleb, SFcompare.
      destruct (Z.compare_spec ex e'') as [Heq|Hlt|Hgt]; [|reflexivity|lia].
      assert (Hm'' : Z.pos mx <= Z.pos m'').
      { eapply Z.le_trans; [|apply Hmant; lia].
        replace (fexp 53 1024 (Zdigits2 (Z.pos m) + ez) - ez) with (ex - ez)
          by lia.
        apply Z.div_le_lower_bound; [exact Hpx | lia]. }
      change (Pos.compare_cont Eq mx m'') with (Pos.compare mx m'').
      destruct (Pos.compare_spec mx m''); try reflexivity. lia.
Qed.

Lemma Zdigits2_ge_pow2 (z k : Z) :
  0 <= k -> 2 ^ k <= z -> k + 1 <= Zdigits2 z.
Proof.
  intros Hk Hz.
  assert (Hp : 0 < 2 ^ k) by (apply Z.pow_pos_nonneg; lia).
  assert (H : Zdigits2 (2 ^ k) = k + 1).
  { apply Zdigits2_unique; [lia|]. replace (k + 1 - 1) with k by lia.
    rewrite Z.pow_add_r by lia. lia. }
  rewrite <- H. apply Zdigits2_le; lia.
Qed.

(** The product of a positive number of the format and a number that is
    positive or [+Infinity] is not negative. *)
Lemma mul_nonneg (x y : F64.float) :
  finitePositive64 x = true ->
  y = S754_infinity false \/ finitePositive64 y = true ->
  nonneg64 (F64.mul x y) = true.
Proof.
  unfold F64.mul. change F64.prec with 53. change F64.emax with 1024.
  destruct x as [[|]|[|]| |[|] mx ex]; cbn [finitePositive64];
    try discriminate. intros Hx [-> | Hy]; [reflexivity|].
  destruct y as [[|]|[|]| |[|] my ey]; cbn [finitePositive64] in Hy;
    try discriminate. cbn [SFmul xorb].
  apply bounded_unfold in Hx as [Hcx Hbx].
  apply bounded_unfold in Hy as [Hcy Hby].
  pose proof (Zdigits2_spec mx) as [Hlx _].
  pose proof (Zdigits2_spec my) as [Hly _].
  pose proof (Zdigits2_pos mx) as Hdx. pose proof (Zdigits2_pos my) as Hdy.
  assert (Hd : Zdigits2 (Z.pos mx) + Zdigits2 (Z.pos my) - 1
               <= Zdigits2 (Z.pos (mx * my))).
  { replace (Zdigits2 (Z.pos mx) + Zdigits2 (Z.pos my) - 1)
      with ((Zdigits2 (Z.pos mx) - 1) + (Zdigits2 (Z.pos my) - 1) + 1) by lia.
    apply Zdigits2_ge_pow2; [lia|].
    rewrite Z.pow_add_r by lia. rewrite Pos2Z.inj_mul.
    assert (0 < 2 ^ (Zdigits2 (Z.pos mx) - 1))
      by (apply Z.pow_pos_nonneg; lia).
    assert (0 < 2 ^ (Zdigits2 (Z.pos my) - 1))
      by (apply Z.pow_pos_nonneg; lia).
    nia. }
  pose proof (@binary_round_aux_spec false (Z.pos (mx * my)) (ex + ey)
                loc_Exact (Pos2Z.is_nonneg _)
                ltac:(rewrite fexp_unfold; lia)) as H.
  cbv zeta in H.
  destruct (binary_round_aux 53 1024 false (Z.pos (mx * my)) (ex + ey)
              loc_Exact) as [s'|s'| |s' m' e']; cbn [nonneg64].
  - now destruct H as [-> _].
  - now destruct H as [-> _].
  - destruct H.
  - now destruct H as (-> & Hb & _).
Qed.

(** The quotient of two positive integers below [2 ^ 53] is a positive
    number of the format. *)
Lemma div_small (z1 z2 : Z) :
  0 < z1 < 2 ^ 53 -> 0 < z2 < 2 ^ 53 ->
  finitePositive64 (F64.div (F64.of_Z z1) (F64.of_Z z2)) = true.
Proof.
  intros Hz1 Hz2.
  destruct (of_Z_small Hz1) as (mx & ex & -> & Hbx & Hex1).
  destruct (of_Z_small Hz2) as (my & ey & -> & Hby & Hey1).
  apply bounded_unfold in Hbx as [Hcx _]. apply bounded_unfold in Hby as [Hcy _].
  unfold F64.div. change F64.prec with 53. change F64.emax with 1024.
  cbn [SFdiv xorb]. unfold SFdiv_core_binary.
  set (d1 := Zdigits2 (Z.pos mx)) in *. set (d2 := Zdigits2 (Z.pos my)) in *.
  assert (Hd1 : d1 = 53) by lia. assert (Hd2 : d2 = 53) by lia.
  set (e' := Z.min (fexp 53 1024 (d1 + ex - (d2 + ey))) (ex - ey)).
  assert (He' : e' = ex - ey - 53) by (subst e'; rewrite fexp_unfold; lia).
  set (sh := ex - ey - e').
  assert (Hsh : sh = 53) by (subst sh; lia).
  set (m' := match sh with
             | 0 => Z.pos mx
             | Z.pos _ => Z.shiftl (Z.pos mx) sh
             | Z.neg _ => 0
             end).
  assert (Hm' : m' = Z.pos mx * 2 ^ 53).
  { subst m'. rewrite Hsh. apply Z.shiftl_mul_pow2. lia. }
  assert (Hq : Z.div_eucl m' (Z.pos my) = (m' / Z.pos my, m' mod Z.pos my)).
  { unfold Z.div, Z.modulo. now destruct (Z.div_eucl m' (Z.pos my)). }
  rewrite Hq. set (q := m' / Z.pos my).
  pose proof (Zdigits2_spec mx) as [Hlx Hhx]. fold d1 in Hlx, Hhx.
  pose proof (Zdigits2_spec my) as [Hly Hhy]. fold d2 in Hly, Hhy.
  rewrite Hd1 in Hlx, Hhx. rewrite Hd2 in Hly, Hhy.
  change (53 - 1) with 52 in *.
  assert (Hp52 : 0 < 2 ^ 52) by (apply Z.pow_pos_nonneg; lia).
  assert (Hp53 : 2 ^ 53 = 2 * 2 ^ 52) by reflexivity.
  assert (Hqlo : 2 ^ 52 <= q).
  { subst q. apply Z.div_le_lower_bound; [lia|]. rewrite Hm'. nia. }
  assert (Hqhi : q < 2 ^ 54).
  { subst q. apply Z.div_lt_upper_bound; [lia|]. rewrite Hm'.
    assert (2 ^ 54 = 4 * 2 ^ 52) by reflexivity. nia. }
  assert (Hdq : 53 <= Zdigits2 q <= 54).
  { split.
    - pose proof (@Zdigits2_ge_pow2 q 52 ltac:(lia) Hqlo). lia.
    - destruct (Z_le_gt_dec (Zdigits2 q) 54); [assumption|].
      destruct q as [|pq|pq]; try lia.
      pose proof (Zdigits2_spec pq) as [Hlo _].
      assert (2 ^ 54 <= 2 ^ (Zdigits2 (Z.pos pq) - 1))
        by (apply Z.pow_le_mono_r; lia).
      lia. }
  pose proof (@binary_round_aux_spec false q e'
                (new_location (Z.pos my) (m' mod Z.pos my)) ltac:(lia)
                ltac:(rewrite fexp_unfold; lia)) as H.
  cbv zeta in H. rewrite !fexp_unfold in H.
  destruct (binary_round_aux 53 1024 false q e'
              (new_location (Z.pos my) (m' mod Z.pos my)))
    as [s'|s'| |s' m'' e'']; cbn [finitePositive64].
  - exfalso. destruct H as [_ H].
    assert (Hn : 0 <= Z.max (Zdigits2 q + e' - 53) (-1074) - e'
                 < Zdigits2 q) by lia.
    destruct (@Zdigits2_div_pow2 q _ ltac:(lia) (proj1 Hn) (proj2 Hn))
      as [Hpos _].
    lia.
  - exfalso. destruct H as [_ H]. lia.
  - destruct H.
  - now destruct H as (-> & Hb & _).
Qed.

End Binary64Facts.

(** ** The characters of the parts *)

Lemma split_from_length (s : jsstring) :
  forall cur inRun,
    length (concat (split_from s cur inRun)) = (length cur + length s)%nat.
Proof.
  induction s as [|c r IH]; intros cur inRun; cbn [split_from].
  - destruct inRun; cbn [concat]; rewrite ?app_nil_r, length_rev; cbn; lia.
  - destruct (Bool.eqb (isPunct c) inRun).
    + rewrite IH. cbn. lia.
    + cbn [concat]. rewrite length_app, IH, length_rev. cbn. lia.
Qed.

Lemma trimStart_length (s : jsstring) : (length (trimStart s) <= length s)%nat.
Proof.
  induction s as [|c r IH]; cbn; [lia|].
  destruct (isWhiteSpace c); cbn; lia.
Qed.

Lemma trim_length (s : jsstring) : (length (trim s) <= length s)%nat.
Proof.
  unfold trim. rewrite length_rev.
  etransitivity; [apply trimStart_length|]. rewrite length_rev.
  apply trimStart_length.
Qed.

(** The parts pushed from the index [length pre] on take their characters
    from the pieces not yet used. *)
Lemma reduce_chars (arr : list jsstring) :
  forall rest pre acc,
    arr = pre ++ rest ->
    (length (concat
               (fold_left (reduce_step arr)
                  (combine (seq (length pre) (length rest)) rest) acc))
     <= length (concat acc)
        + (if Nat.even (length pre)
           then length (concat rest)
           else length (concat (tl rest))))%nat.
Proof.
  induction rest as [|x r IH]; intros pre acc Harr.
  - cbn. destruct (Nat.even (length pre)); lia.
  - cbn [length seq combine fold_left].
    assert (Harr' : arr = (pre ++ [x]) ++ r) by (now rewrite <- app_assoc).
    specialize (IH (pre ++ [x])). rewrite length_app in IH. cbn [length] in IH.
    replace (length pre + 1)%nat with (S (length pre)) in IH by lia.
    rewrite Nat.even_succ in IH. rewrite <- Nat.negb_even in IH.
    unfold reduce_step at 2.
    destruct (Nat.even (length pre)) eqn:Ev; cbn [negb andb] in *.
    + assert (Hnth : nth (length pre + 1) arr [] = hd [] r).
      { rewrite Harr, app_nth2 by lia.
        replace (length pre + 1 - length pre)%nat with 1%nat by lia.
        destruct r; reflexivity. }
      destruct (truthy (trim x)).
      * etransitivity; [apply IH, Harr'|].
        rewrite concat_app, length_app. cbn [concat].
        rewrite app_nil_r, length_app, Hnth.
        pose proof (trim_length x).
        destruct r as [|y r']; cbn [hd tl concat]; rewrite !length_app;
          cbn [length]; lia.
      * etransitivity; [apply IH, Harr'|].
        cbn [concat]. rewrite length_app.
        destruct r as [|y r']; cbn [tl concat]; rewrite ?length_app; lia.
    + etransitivity; [apply IH, Harr'|]. cbn [tl]. lia.
Qed.

(** The parts hold no more characters than the narration. *)
Lemma totalChars_le_narration (txt : jsstring) :
  (totalChars_of (finalParts_of txt) <= length txt)%nat.
Proof.
  rewrite totalChars_concat. unfold finalParts_of.
  destruct (0 <? length (parts_of txt))%nat.
  - unfold parts_of.
    pose proof (@reduce_chars (split txt) (split txt) [] [] eq_refl) as H.
    cbn [length Nat.even concat] in H.
    etransitivity; [exact H|]. unfold split.
    rewrite split_from_length. cbn. lia.
  - cbn. rewrite app_nil_r. lia.
Qed.

Lemma part_le_totalChars (fp : list jsstring) (part : jsstring) :
  In part fp -> (length part <= totalChars_of fp)%nat.
Proof.
  rewrite totalChars_concat. induction fp as [|p fp IH]; [contradiction|].
  intros [->|Hin]; cbn [concat]; rewrite length_app; [lia|].
  specialize (IH Hin). lia.
Qed.

(** When the parts hold a character, none of them is empty. *)
Lemma finalParts_nonempty (txt : jsstring) (part : jsstring) :
  (0 < totalChars_of (finalParts_of txt))%nat ->
  In part (finalParts_of txt) -> part <> [].
Proof.
  rewrite totalChars_concat. unfold finalParts_of.
  pose proof (parts_of_nonempty txt) as Hne.
  destruct (0 <? length (parts_of txt))%nat.
  - intros _ Hin. rewrite Forall_forall in Hne. now apply Hne.
  - cbn. rewrite app_nil_r. intros Hpos [<-|[]]. now destruct txt.
Qed.

(** ** Binary64: the order of the chunks *)

Lemma nonneg_truthy64 (D : F64.float) :
  nonneg64 D = true -> F64.truthy D = true ->
  D = S754_infinity false \/ finitePositive64 D = true.
Proof.
  destruct D as [[|]|[|]| |[|] m e]; cbn; try discriminate; auto.
Qed.

Lemma partDuration_nonneg64 (L : nat) (D : F64.float) (part : jsstring) :
  nonneg64 D = true -> F64.truthy D = true ->
  (Z.of_nat L < 2 ^ 53)%Z ->
  (length part <= L)%nat ->
  part <> [] ->
  nonneg64 (partDuration F64Ops L D part) = true.
Proof.
  intros HD Ht HL Hpart Hne. unfold partDuration.
  destruct (0 <? L)%nat eqn:E; [|exact HD].
  cbn [n_mul n_div n_of_nat F64Ops].
  apply mul_nonneg; [|now apply nonneg_truthy64].
  assert (0 < length part)%nat by (destruct part; [congruence | cbn; lia]).
  apply div_small; lia.
Qed.

Lemma chunks_from_order64 (L : nat) (D : F64.float) :
  nonneg64 D = true -> F64.truthy D = true ->
  (Z.of_nat L < 2 ^ 53)%Z ->
  forall parts t,
    nonneg64 t = true ->
    (forall part, In part parts ->
                  (length part <= L)%nat /\ ((0 < L)%nat -> part <> [])) ->
    forall i c,
      nth_error (chunks_from F64Ops L D t parts) i = Some c ->
      nonneg64 (start c) = true /\ nonneg64 (end_ c) = true
      /\ SFleb (start c) (end_ c) = true.
Proof.
  intros HD Ht HL. induction parts as [|part rest IH]; intros t Hnt Hparts i c Hc.
  - destruct i; discriminate.
  - cbn [chunks_from] in Hc.
    assert (Hpd : nonneg64 (partDuration F64Ops L D part) = true).
    { destruct (Hparts part (or_introl eq_refl)) as [Hle Hne].
      destruct (Nat.eq_dec L 0) as [->|Hpos].
      - unfold partDuration. exact HD.
      - apply partDuration_nonneg64; auto. apply Hne. lia. }
    destruct (add_nonneg_ge t _ Hnt Hpd) as [Hsum Hle].
    destruct i as [|i]; cbn [nth_error] in Hc.
    + injection Hc as <-. cbn [start end_]. auto.
    + eapply IH; [exact Hsum | | exact Hc].
      intros p Hp. apply Hparts. now right.
Qed.

(** The duration the chunker works with is a number other than zero. *)
Lemma sceneDuration_truthy64 (sc : Scene F64.float) :
  F64.truthy (sceneDuration F64Ops sc) = true.
Proof.
  unfold sceneDuration, num_or. cbn [n_truthy n_of_nat F64Ops].
  destruct (audioDuration sc) as [v|]; [|vm_compute; reflexivity].
  destruct (F64.truthy v) eqn:E; [exact E | vm_compute; reflexivity].
Qed.

(** C1, as the code has it.  For every scene, in whatever arithmetic the
    chunker runs: there is a first chunk and it starts at 0, and every
    later chunk starts exactly where the chunk before it ends.  In
    binary64, the arithmetic of the engine, for a narration of fewer than
    [2 ^ 53] code units (the longest string of the language has
    [2 ^ 53 - 1]) and a duration [D] that is not negative, [+Infinity]
    included ([D] is [audioDuration], or 5 when that is absent, zero or
    not a number): every start and every end is a number that is not
    negative, every chunk ends no earlier than it starts, and the ends
    never decrease.  In exact arithmetic, for [D >= 0], the same order
    holds and the last chunk ends at [D]. *)
Theorem subtitles_partition_duration :
  (forall (num : Type) (ops : NumOps num) (sc : Scene num),
      let chunks := currentSubtitles ops (Some sc) in
      (exists c, nth_error chunks 0 = Some c /\ start c = n_zero ops)
      /\ (forall i c c',
             nth_error chunks i = Some c -> nth_error chunks (S i) = Some c' ->
             start c' = end_ c))
  /\ (forall sc : Scene F64.float,
         let chunks := currentSubtitles F64Ops (Some sc) in
         let D := sceneDuration F64Ops sc in
         nonneg64 D = true ->
         (Z.of_nat (length (narration sc)) < 2 ^ 53)%Z ->
         (forall i c,
             nth_error chunks i = Some c ->
             nonneg64 (start c) = true /\ nonneg64 (end_ c) = true
             /\ SFleb (start c) (end_ c) = true)
         /\ (forall i c c',
                nth_error chunks i = Some c ->
                nth_error chunks (S i) = Some c' ->
                SFleb (end_ c) (end_ c') = true))
  /\ (forall sc : Scene Q,
         let chunks := currentSubtitles QOps (Some sc) in
         let D := sceneDuration QOps sc in
         (0 <= D)%Q ->
         (forall i c, nth_error chunks i = Some c -> (start c <= end_ c)%Q)
         /\ (forall i c c',
                nth_error chunks i = Some c ->
                nth_error chunks (S i) = Some c' ->
                (end_ c <= end_ c')%Q)
         /\ (exists c,
                nth_error chunks (length chunks - 1) = Some c
                /\ (end_ c == D)%Q)).
Proof.
  assert (A : forall (num : Type) (ops : NumOps num) (sc : Scene num),
      let chunks := currentSubtitles ops (Some sc) in
      (exists c, nth_error chunks 0 = Some c /\ start c = n_zero ops)
      /\ (forall i c c',
             nth_error chunks i = Some c -> nth_error chunks (S i) = Some c' ->
             start c' = end_ c)).
  { intros num ops sc chunks. subst chunks; cbn [currentSubtitles].
    rewrite chunks_of_from.
    pose proof (finalParts_of_not_nil (narration sc)) as Hne.
    split.
    - destruct (finalParts_of (narration sc)) as [|part rest]; [congruence|].
      simpl. eauto.
    - intros i c c'. eapply contiguous_from_nth, chunks_from_contiguous. }
  split; [exact A|]. split.
  - (* binary64 *)
    intros sc chunks D HD Hlen.
    destruct (A _ F64Ops sc) as [_ Hcont]. fold chunks in Hcont.
    assert (Hall : forall i c,
               nth_error chunks i = Some c ->
               nonneg64 (start c) = true /\ nonneg64 (end_ c) = true
               /\ SFleb (start c) (end_ c) = true).
    { intros i c Hc. subst chunks; cbn [currentSubtitles] in Hc.
      rewrite chunks_of_from in Hc. fold (sceneDuration F64Ops sc) in Hc.
      pose proof (totalChars_le_narration (narration sc)) as HL.
      eapply (@chunks_from_order64
                (totalChars_of (finalParts_of (narration sc))) D HD
                (sceneDuration_truthy64 sc));
        [lia | | | exact Hc]; [reflexivity|].
      intros part Hin. split; [now apply part_le_totalChars|].
      intros Hpos. now apply (@finalParts_nonempty (narration sc)). }
    split; [exact Hall|].
    intros i c c' Hc Hc'. rewrite <- (Hcont _ _ _ Hc Hc').
    now destruct (Hall _ _ Hc') as (_ & _ & H).
  - (* exact arithmetic *)
    intros sc chunks D HD.
    destruct (A Q QOps sc) as (_ & Hcont). fold chunks in Hcont.
    assert (Hse : forall i c, nth_error chunks i = Some c -> (start c <= end_ c)%Q).
    { intros i c0 Hc0. subst chunks; cbn [currentSubtitles] in Hc0.
      rewrite chunks_of_from in Hc0.
      apply chunk_at in Hc0 as (part & _ & _ & ->).
      pose proof (partDuration_nonneg
                    (totalChars_of (finalParts_of (narration sc))) part HD).
      fold (sceneDuration QOps sc) in *. fold D. simpl. lra. }
    split; [exact Hse|]. split.
    + intros i c0 c1 H0 H1. rewrite <- (Hcont _ _ _ H0 H1). eapply Hse, H1.
    + set (fp := finalParts_of (narration sc)).
      assert (Hch : chunks = chunks_from QOps (totalChars_of fp) D 0%Q fp).
      { subst chunks; cbn [currentSubtitles]. now rewrite chunks_of_from. }
      pose proof (finalParts_of_not_nil (narration sc)) as Hne. fold fp in Hne.
      destruct (chunks_from_last QOps (totalChars_of fp) D 0%Q Hne)
        as (c & Hlast & Hend).
      exists c. split.
      * rewrite Hch, chunks_from_length. exact Hlast.
      * rewrite Hend.
        destruct (Nat.eq_dec (totalChars_of fp) 0) as [Hz|Hnz].
        -- destruct (totalChars_zero (narration sc) Hz) as [Hfp _].
           fold fp in Hfp. rewrite Hz, Hfp.
           unfold time_after, partDuration; simpl. lra.
        -- rewrite time_after_exact by lia. rewrite <- totalChars_concat.
           simpl. field.
           apply Qnot_eq_sym, Qlt_not_eq, QofNat_pos. lia.
Qed.

(** With the default duration the narration "Om. Calm! Go." gives three
    chunks.  In exact arithmetic the last one ends at 5; in binary64 the
    ends of the first two are in order. *)
Lemma subtitles_partition_witness :
  (exists c,
      nth_error (currentSubtitles QOps (Some (narrated "Om. Calm! Go." None)))
        (length (currentSubtitles QOps (Some (narrated "Om. Calm! Go." None)))
         - 1)
      = Some c
      /\ (end_ c == 5)%Q)
  /\ (forall c c',
         nth_error
           (currentSubtitles F64Ops (Some (narrated "Om. Calm! Go." None))) 0
         = Some c ->
         nth_error
           (currentSubtitles F64Ops (Some (narrated "Om. Calm! Go." None))) 1
         = Some c' ->
         SFleb (end_ c) (end_ c') = true).
Proof.
  destruct subtitles_partition_duration as (_ & H64 & HQ). split.
  - destruct (HQ (narrated "Om. Calm! Go." None)) as (_ & _ & Hlast);
      [vm_compute; discriminate | exact Hlast].
  - destruct (H64 (narrated "Om. Calm! Go." None)) as [_ Hends];
      [vm_compute; reflexivity | vm_compute; reflexivity |].
    exact (Hends 0%nat).
Defined.

(** C1 as stated fails in the arithmetic of the engine: for the narration
    "Om. Calm! Go." and no [audioDuration] the duration is 5, which is
    5629499534213120 * 2^-50, and the third and last chunk ends one unit in
    the last place below it. *)
Lemma subtitles_final_end_binary64 :
  sceneDuration F64Ops (narrated "Om. Calm! Go." None)
  = S754_finite false 5629499534213120 (-50)
  /\ length (currentSubtitles F64Ops (Some (narrated "Om. Calm! Go." None)))
     = 3%nat
  /\ option_map (@end_ F64.float)
       (nth_error
          (currentSubtitles F64Ops (Some (narrated "Om. Calm! Go." None))) 2)
     = Some (S754_finite false 5629499534213119 (-50))
  /\ ~ (forall c,
           nth_error
             (currentSubtitles F64Ops (Some (narrated "Om. Calm! Go." None))) 2
           = Some c ->
           F64.eqb (end_ c)
             (sceneDuration F64Ops (narrated "Om. Calm! Go." None)) = true).
Proof.
  split; [vm_compute; reflexivity|].
  split; [vm_compute; reflexivity|].
  split; [vm_compute; reflexivity|].
  intros H.
  assert (Hc : nth_error
                 (currentSubtitles F64Ops (Some (narrated "Om. Calm! Go." None))) 2
               = Some {| text := of_string "Go.";
                         start := S754_finite false 8188362958855446 (-51);
                         end_ := S754_finite false 5629499534213119 (-50) |})
    by (vm_compute; reflexivity).
  specialize (H _ Hc). cbn [end_] in H.
  assert (Hne : F64.eqb (S754_finite false 5629499534213119 (-50))
                  (sceneDuration F64Ops (narrated "Om. Calm! Go." None))
                = false) by (vm_compute; reflexivity).
  congruence.
Qed.

Lemma totalChars_sum (fp : list jsstring) :
  totalChars_of fp = list_sum (List.map (@length N) fp).
Proof. rewrite totalChars_concat. apply length_concat. Qed.

(** C2.  The segments of a narration are its punctuation-delimited parts,
    [L] is the sum of their lengths and [D] the duration.  There are as
    many chunks as segments and the [i]-th chunk carries the [i]-th
    segment.  When [L > 0], in exact arithmetic the chunk of a segment of
    [li] characters lasts [D * li / L]; in binary64 it ends at its start
    plus [(li / L) * D], each of the three operations rounded to the
    format.  When [L = 0] the narration is empty and the only chunk, with
    the empty text, starts at 0 and ends at [D], in binary64 as in exact
    arithmetic. *)
Theorem chunk_duration_proportional :
  (forall sc : Scene Q,
      let chunks := currentSubtitles QOps (Some sc) in
      let segments := finalParts_of (narration sc) in
      let L := list_sum (List.map (@length N) segments) in
      let D := sceneDuration QOps sc in
      length chunks = length segments
      /\ (forall i seg,
             nth_error segments i = Some seg ->
             exists c,
               nth_error chunks i = Some c
               /\ text c = seg
               /\ ((0 < L)%nat ->
                   (end_ c - start c
                    == D * QofNat (length seg) / QofNat L)%Q))
      /\ (L = 0%nat ->
          exists c,
            chunks = [c] /\ text c = narration sc /\ text c = []
            /\ (start c == 0)%Q /\ (end_ c == D)%Q))
  /\ (forall sc : Scene F64.float,
         let chunks := currentSubtitles F64Ops (Some sc) in
         let segments := finalParts_of (narration sc) in
         let L := list_sum (List.map (@length N) segments) in
         let D := sceneDuration F64Ops sc in
         length chunks = length segments
         /\ (forall i seg,
                nth_error segments i = Some seg ->
                exists c,
                  nth_error chunks i = Some c
                  /\ text c = seg
                  /\ ((0 < L)%nat ->
                      end_ c
                      = F64.add (start c)
                          (F64.mul
                             (F64.div (F64.of_Z (Z.of_nat (length seg)))
                                (F64.of_Z (Z.of_nat L)))
                             D)))
         /\ (L = 0%nat ->
             exists c,
               chunks = [c] /\ text c = narration sc /\ text c = []
               /\ start c = S754_zero false /\ end_ c = D)).
Proof.
  split.
  - intros sc chunks segments L D.
    assert (HL : L = totalChars_of segments)
      by (subst L; now rewrite totalChars_sum).
    assert (Hch : chunks = chunks_from QOps L D 0%Q segments).
    { subst chunks; cbn [currentSubtitles]. rewrite chunks_of_from.
      fold segments. now rewrite <- HL. }
    rewrite Hch. split; [apply chunks_from_length|]. split.
    + intros i seg Hp. eexists. split; [apply chunks_from_nth, Hp|].
      split; [reflexivity|]. intros Hpos. cbn [start end_].
      rewrite (partDuration_exact D seg Hpos). cbn [n_add QOps]. ring.
    + intros Hz. rewrite HL in Hz.
      destruct (totalChars_zero (narration sc) Hz) as [Hfp Hnil].
      fold segments in Hfp. rewrite Hfp. eexists. split; [reflexivity|].
      cbn [text start end_]. repeat split; auto; try reflexivity.
      unfold partDuration. rewrite HL, Hz. simpl. ring.
  - intros sc chunks segments L D.
    assert (HL : L = totalChars_of segments)
      by (subst L; now rewrite totalChars_sum).
    assert (Hch : chunks = chunks_from F64Ops L D (S754_zero false) segments).
    { subst chunks; cbn [currentSubtitles]. rewrite chunks_of_from.
      fold segments. now rewrite <- HL. }
    rewrite Hch. split; [apply chunks_from_length|]. split.
    + intros i seg Hp. eexists. split; [apply chunks_from_nth, Hp|].
      split; [reflexivity|]. intros Hpos. cbn [start end_].
      unfold partDuration. apply Nat.ltb_lt in Hpos. rewrite Hpos.
      reflexivity.
    + intros Hz. rewrite HL in Hz.
      destruct (totalChars_zero (narration sc) Hz) as [Hfp Hnil].
      fold segments in Hfp. rewrite Hfp. eexists. split; [reflexivity|].
      cbn [text start end_]. repeat split; auto.
      unfold partDuration. rewrite HL, Hz. cbn [Nat.ltb Nat.leb].
      cbn [n_add F64Ops]. unfold F64.add.
      pose proof (sceneDuration_truthy64 sc) as Ht. fold D in Ht.
      destruct D as [[|]|[|]| |[|] m e]; try discriminate; reflexivity.
Qed.

(* ================================================================== *)
(** * The frame renderer *)
(* ================================================================== *)

Section RendererFacts.

Import Renderer.
Local Open Scope Q_scope.

(** The drawing helper returns normally for every source; it leaves the
    context untouched or adds the one [drawImage]. *)
Lemma drawImageProp_returns (img : Source) (x y w h ox oy z : Q)
    (log : list DrawCmd) :
  drawImageProp img x y w h ox oy z log = inr (tt, log)
  \/ exists dx dy dw dh,
       drawImageProp img x y w h ox oy z log
       = inr (tt, log ++ [DrawImage img dx dy dw dh]).
Proof.
  unfold drawImageProp.
  destruct img as [v | [c | | c iw ih]]; simpl;
    try (now left);
    match goal with
    | |- context [if ?b then _ else _] => destruct b
    end; try (now left); right; unfold ctx_drawImage, emit; eauto.
Qed.

Lemma drawSubtitles_returns (t : Tick) (cw ch : Q) :
  exists sub,
    forall log : list DrawCmd, drawSubtitles t cw ch log = inr (tt, log ++ sub).
Proof.
  unfold drawSubtitles.
  destruct (currentScene t);
    [| exists []; intros; unfold ret; now rewrite app_nil_r].
  destruct (playing t);
    [| exists []; intros; unfold ret; now rewrite app_nil_r].
  destruct (activeSubtitle (subtitles t) (audioTime t)) as [sb|];
    [| exists []; intros; unfold ret; now rewrite app_nil_r].
  eexists. intros log. unfold bind, emit. now rewrite <- app_assoc.
Qed.

(** C9.  Whatever the closure and the media handles hold, a tick returns
    normally.  With a canvas and a context, and neither a ready, playing
    clip nor a completely loaded image, it clears the canvas, draws the
    fallback fill and nothing else before the subtitles.  The drawing
    helper returns without drawing when its source has no width or no
    height. *)
Theorem renderFrame_never_throws :
  forall t : Tick,
    (exists cmds, run (renderFrame t) = inr cmds)
    /\ (forall cv,
           canvas t = Some cv -> context2d cv = true ->
           clipUsable t = false -> imageUsable t = false ->
           exists sub,
             drawSubtitles t (QofNat (width cv)) (QofNat (height cv)) []
             = inr (tt, sub)
             /\ run (renderFrame t)
                = inr ([ FillRect "#000" 0 0 (QofNat (width cv))
                           (QofNat (height cv));
                         FillRect "#111" 0 0 (QofNat (width cv))
                           (QofNat (height cv)) ]
                       ++ sub ++ [RequestAnimationFrame]))
    /\ (forall v x y w h ox oy z log,
           videoWidth v = 0%nat \/ videoHeight v = 0%nat ->
           drawImageProp (SrcVideo v) x y w h ox oy z log = inr (tt, log))
    /\ (forall i x y w h ox oy z log,
           naturalWidth i = 0%nat \/ naturalHeight i = 0%nat ->
           drawImageProp (SrcImage i) x y w h ox oy z log = inr (tt, log)).
Proof.
  intros t. split; [|split; [|split]].
  - unfold run, renderFrame.
    destruct (canvas t) as [cv|]; [| unfold ret; eauto].
    destruct (context2d cv); simpl; [| unfold ret; eauto].
    unfold bind at 1. unfold emit at 1. cbn [app].
    set (log0 := [FillRect "#000" 0 0 (QofNat (width cv)) (QofNat (height cv))]).
    unfold bind at 1.
    match goal with
    | |- context [(if ?b then ?m1 else if ?b' then ?m2 else ?m3) log0] =>
        assert (Hv : exists log1,
                   (if b then m1 else if b' then m2 else m3) log0
                   = inr (tt, log1))
    end.
    { destruct (_ && _).
      - destruct (drawImageProp_returns (SrcVideo (videoEl t)) 0 0
                    (QofNat (width cv)) (QofNat (height cv)) (1#2) (1#2) 1
                    log0) as [-> | (? & ? & ? & ? & ->)]; eauto.
      - destruct (_ && _).
        + match goal with
          | |- context [drawImageProp ?i ?x ?y ?w ?h ?ox ?oy ?z log0] =>
              destruct (drawImageProp_returns i x y w h ox oy z log0)
                as [-> | (? & ? & ? & ? & ->)]; eauto
          end.
        + unfold emit; eauto. }
    destruct Hv as [log1 ->].
    unfold bind.
    destruct (drawSubtitles_returns t (QofNat (width cv)) (QofNat (height cv)))
      as [sub Hsub].
    rewrite Hsub. unfold emit. eauto.
  - intros cv Hcv Hctx Hclip Himg.
    destruct (drawSubtitles_returns t (QofNat (width cv)) (QofNat (height cv)))
      as [sub Hsub].
    exists sub. split; [now rewrite Hsub|].
    unfold run, renderFrame. rewrite Hcv, Hctx. cbn [negb].
    unfold clipUsable in Hclip. unfold imageUsable in Himg.
    rewrite Hclip, Himg. unfold bind, emit. cbn [app].
    rewrite Hsub. now rewrite <- app_assoc.
  - intros v x y w h ox oy z log [H|H]; unfold drawImageProp; rewrite H;
      [reflexivity | now rewrite orb_true_r].
  - intros i x y w h ox oy z log [H|H]; unfold drawImageProp; rewrite H;
      [reflexivity | now rewrite orb_true_r].
Qed.

End RendererFacts.

(* ================================================================== *)
(** * The playback sequencer *)
(* ================================================================== *)

Section SequencerFacts.

Import Sequencer.
Local Open Scope Q_scope.
Local Open Scope seq_scope.

(** Runs the state-passing code of a goal; the player is best split into
    its fields first, and the values the code branches on decided. *)
Ltac seq_eval :=
  cbv beta iota zeta delta
    [exec bind ret get modify
     setTimeout rejectPendingPlay narration_pause narration_setSrc
     narration_play bgm_pause bgm_play video_pause video_play
     requestAnimationFrame cancelAnimationFrame alert
     setCurrentSceneIndex setIsPlaying setIsRecording setStatusMsg
     stopRecording finishPlayback handleNext sceneEffect sceneEffect_cleanup
     ondataavailable onstop setupRecording startPlayback commit
     set_currentSceneIndex set_isPlaying set_isRecording set_statusMsg
     set_videoSrc set_videoPaused set_imgSrc set_narrationSrc
     set_narrationStatus set_endedHandler set_bgmPaused set_frameLoop
     set_sceneStartTime
     set_timers set_audioCtx set_destNode set_mediaRecorder
     set_recordedChunks set_downloads set_alerts
     currentSceneIndex isPlaying isRecording statusMsg videoSrc videoPaused
     imgSrc narrationSrc narrationStatus endedHandler bgmPaused frameLoop
     sceneStartTime timers audioCtx destNode mediaRecorder recordedChunks
     downloads alerts render_of frameRequested endedEffect
     seenIndex seenPlaying seenRecording snd fst].

Ltac seq_run := repeat (progress (seq_eval; cbn [negb andb orb])).

Ltac split_player p :=
  destruct p as [idx pl rc msg vs vp im ns st eh bp fr sst tm ac dn mr ch dl al];
  cbn [currentSceneIndex isPlaying isRecording statusMsg videoSrc videoPaused
       imgSrc narrationSrc narrationStatus endedHandler bgmPaused frameLoop
       sceneStartTime timers audioCtx destNode mediaRecorder recordedChunks
       downloads alerts] in *.

(** ** What the sequencing reads of a player *)

Lemma startPlayback_view (r : Render) (env : Env) (recording : bool)
    (p : Player) :
  let p' := exec (startPlayback r env recording) p in
  currentSceneIndex p' = 0%nat /\ isPlaying p' = true
  /\ narrationStatus p' = narrationStatus p /\ timers p' = timers p.
Proof.
  split_player p.
  destruct recording, ac as [[| |]|], (canvasMounted env) eqn:Ec, dn,
    (vp9Supported env) eqn:Ev;
    seq_eval; rewrite ?Ec, ?Ev; cbn [andb];
    try (destruct (recorderThrows env _)); seq_eval; repeat split.
Qed.

(** ** One advance per scene *)

Lemma advance_inv_schedule (scenes : list (Scene Q)) (p q : Player) :
  same_schedule p q -> advance_inv scenes p -> advance_inv scenes q.
Proof.
  unfold same_schedule, advance_inv, armed, quiet, narrationAwaited.
  intros (-> & -> & -> & ->). auto.
Qed.

Lemma advanceTimers_cleanup (l : list Timer) :
  filter isAdvanceTimer l = [] ->
  filter isAdvanceTimer (filter (fun t => negb (clearedByCleanup t)) l) = [].
Proof.
  induction l as [|t l IH]; simpl; auto.
  destruct (isAdvanceTimer t) eqn:E; [discriminate|]. intros H.
  destruct (negb (clearedByCleanup t)); simpl; rewrite ?E; auto.
Qed.

(** Entering a scene: the cleanup of the last run and the effect, on a
    playing and quiet player, schedule the one advance of the scene. *)
Lemma entry_arms (scenes : list (Scene Q)) (now : Q) (p : Player) :
  isPlaying p = true -> quiet p ->
  let p' := exec (sceneEffect_cleanup ;; sceneEffect scenes now) p in
  currentSceneIndex p' = currentSceneIndex p
  /\ isPlaying p' = true /\ armed scenes p'.
Proof.
  intros Hpl [Htm Haw]. unfold armed, quiet, advanceTimers in *.
  unfold narrationAwaited in *. split_player p. subst pl.
  apply advanceTimers_cleanup in Htm.
  seq_run.
  destruct (nth_error scenes idx) as [scene|] eqn:Hs; seq_run;
    rewrite ?Hs; [| repeat split; auto].
  destruct (url_truthy (videoUrl scene)), (url_truthy (imageUrl scene)),
    (url_truthy (audioUrl scene)) eqn:Ea, st; try discriminate;
    seq_run; rewrite ?Hs, ?Ea; unfold fallbackMs;
    repeat split; auto;
    try (left; split; [exact Htm | left; eexists; reflexivity]);
    rewrite filter_app, Htm; simpl; eauto.
Qed.

Lemma exec_seq {A B} (m1 : M A) (m2 : M B) (p : Player) :
  exec (m1 ;; m2) p = exec m2 (exec m1 p).
Proof. unfold exec, bind. now destruct (m1 p). Qed.

Lemma exec_get {A} (k : Player -> M A) (p : Player) :
  exec (q <- get ;; k q) p = exec (k p) p.
Proof. reflexivity. Qed.

Lemma exec_commit (scenes : list (Scene Q)) (now : Q) (old p : Player) :
  exec (commit scenes now old) p
  = let p1 :=
      if Nat.eqb (currentSceneIndex old) (currentSceneIndex p)
         && Bool.eqb (isPlaying old) (isPlaying p)
      then p
      else exec (sceneEffect_cleanup ;; sceneEffect scenes now) p in
    if Nat.eqb (currentSceneIndex old) (currentSceneIndex p)
    then p1
    else set_endedHandler (render_of p1) p1.
Proof.
  unfold commit. rewrite exec_get, exec_seq.
  destruct (currentSceneIndex old =? currentSceneIndex p)%nat;
    destruct (Bool.eqb _ _); reflexivity.
Qed.

(** [handleNext] on a quiet player: the index moves on, or playback
    finishes and the index stays. *)
Lemma handleNext_view (n : nat) (r : Render) (p : Player) :
  quiet p ->
  let p' := exec (handleNext n r) p in
  timers p' = timers p /\ narrationStatus p' = narrationStatus p
  /\ (((currentSceneIndex p + 1 <? n)%nat = true
       /\ currentSceneIndex p' = (currentSceneIndex p + 1)%nat
       /\ isPlaying p' = isPlaying p)
      \/ ((currentSceneIndex p + 1 <? n)%nat = false
          /\ currentSceneIndex p' = currentSceneIndex p
          /\ isPlaying p' = false)).
Proof.
  intros [_ Haw]. unfold narrationAwaited in Haw. split_player p.
  unfold exec, handleNext, bind, get. cbn [currentSceneIndex].
  destruct (idx + 1 <? n)%nat.
  - seq_run. split; [|split]; auto.
  - destruct st, r as [ri rp [|]], mr as [[mt [|] os sp]|]; try discriminate; seq_run;
      (split; [|split]; auto).
Qed.

Lemma cleanup_quiet (scenes : list (Scene Q)) (now : Q) (p : Player) :
  isPlaying p = false -> quiet p ->
  let p' := exec (sceneEffect_cleanup ;; sceneEffect scenes now) p in
  isPlaying p' = false /\ currentSceneIndex p' = currentSceneIndex p
  /\ quiet p'.
Proof.
  intros Hpl [Htm Haw]. unfold quiet, advanceTimers, narrationAwaited in *.
  split_player p. subst pl. apply advanceTimers_cleanup in Htm.
  seq_run. auto.
Qed.

(** An advance taken while playing, with nothing else scheduled, leaves
    exactly the advance of the next scene scheduled, or none when playback
    finishes. *)
Lemma listen_schedule (q : Player) (r : Render) :
  same_schedule q (set_endedHandler r q).
Proof. unfold same_schedule, advanceTimers. split_player q. seq_run. auto. Qed.

Lemma advance_keeps_inv (scenes : list (Scene Q)) (now : Q) (r : Render)
    (p : Player) :
  isPlaying p = true -> quiet p ->
  advance_inv scenes
    (exec (handleNext (length scenes) r ;; commit scenes now p) p).
Proof.
  intros Hpl Hq. rewrite exec_seq, exec_commit. cbv zeta.
  destruct (handleNext_view (length scenes) r Hq)
    as (Htm & Hst & [(Hlt & Hidx & Hp) | (Hge & Hidx & Hp)]).
  - set (p' := exec (handleNext (length scenes) r) p) in *.
    rewrite Hidx.
    replace (currentSceneIndex p =? currentSceneIndex p + 1)%nat with false
      by (symmetry; apply Nat.eqb_neq; lia).
    cbn [andb].
    assert (Hq' : quiet p').
    { destruct Hq as [Ha Hb]. unfold quiet, advanceTimers, narrationAwaited in *.
      now rewrite Htm, Hst. }
    rewrite Hpl in Hp.
    destruct (entry_arms scenes now Hp Hq') as (_ & Hpl' & Harmed).
    eapply advance_inv_schedule; [apply listen_schedule|].
    unfold advance_inv. now rewrite Hpl'.
  - set (p' := exec (handleNext (length scenes) r) p) in *.
    rewrite Hidx, Nat.eqb_refl, Hp, Hpl. cbn [Bool.eqb andb].
    assert (Hq' : quiet p').
    { destruct Hq as [Ha Hb]. unfold quiet, advanceTimers, narrationAwaited in *.
      now rewrite Htm, Hst. }
    destruct (cleanup_quiet scenes now Hp Hq') as (Hpl' & _ & Hq'').
    unfold advance_inv. now rewrite Hpl'.
Qed.

Lemma remove_nth_split {A} (l : list A) (k : nat) (x : A) :
  nth_error l k = Some x ->
  l = firstn k l ++ x :: skipn (S k) l.
Proof.
  revert k; induction l as [|a l IH]; intros [|k] H; try discriminate.
  - simpl in *. congruence.
  - simpl in *. f_equal. now apply IH.
Qed.

Lemma filter_remove_nth {A} (f : A -> bool) (l : list A) (k : nat) (x : A) :
  nth_error l k = Some x ->
  filter f l
  = filter f (firstn k l) ++ (if f x then [x] else [])
      ++ filter f (skipn (S k) l)
  /\ filter f (remove_nth k l)
     = filter f (firstn k l) ++ filter f (skipn (S k) l).
Proof.
  intros H. split.
  - rewrite (remove_nth_split l k H) at 1.
    rewrite filter_app. simpl. now destruct (f x).
  - unfold remove_nth. apply filter_app.
Qed.

(** Firing the only advance timer leaves none. *)
Lemma fired_timer_leaves_none (l : list Timer) (k : nat) (t t0 : Timer) :
  nth_error l k = Some t -> isAdvanceTimer t = true ->
  filter isAdvanceTimer l = [t0] ->
  filter isAdvanceTimer (remove_nth k l) = [].
Proof.
  intros Hk Ht Hl.
  destruct (filter_remove_nth isAdvanceTimer l k Hk) as [H1 H2].
  rewrite Ht, Hl in H1. rewrite H2.
  destruct (filter isAdvanceTimer (firstn k l)) as [|a [|b r]];
    destruct (filter isAdvanceTimer (skipn (S k) l)); simpl in *;
    try reflexivity; try discriminate.
Qed.

Lemma other_timer_keeps (l : list Timer) (k : nat) (t : Timer) :
  nth_error l k = Some t -> isAdvanceTimer t = false ->
  filter isAdvanceTimer (remove_nth k l) = filter isAdvanceTimer l.
Proof.
  intros Hk Ht.
  destruct (filter_remove_nth isAdvanceTimer l k Hk) as [H1 H2].
  now rewrite Ht in H1; rewrite H1, H2.
Qed.

Lemma fired_timer_in (l : list Timer) (k : nat) (t : Timer) :
  nth_error l k = Some t -> isAdvanceTimer t = true ->
  filter isAdvanceTimer l <> [].
Proof.
  intros Hk Ht H.
  assert (In t (filter isAdvanceTimer l)).
  { apply filter_In. split; [eapply nth_error_In; eauto | exact Ht]. }
  rewrite H in *. contradiction.
Qed.

(** Every event keeps the schedule of advances right. *)
Lemma step_keeps_inv (scenes : list (Scene Q)) (now : Q) (p p' : Player)
    (e : Event) :
  advance_inv scenes p -> step scenes now p e = Some p' ->
  advance_inv scenes p'.
Proof.
  intros Hinv Hstep. destruct e as [env rec | started | | k | data |].
  - (* a start button *)
    simpl in Hstep. destruct (isPlaying p) eqn:Hpl; [discriminate|].
    injection Hstep as <-. unfold advance_inv in Hinv. rewrite Hpl in Hinv.
    rewrite exec_seq, exec_commit. cbv zeta.
    destruct (startPlayback_view (render_of p) env rec p)
      as (Hidx & Hp1 & Hst & Htm).
    set (p1 := exec (startPlayback (render_of p) env rec) p) in *.
    rewrite Hp1, Hpl. cbn [Bool.eqb]. rewrite andb_false_r.
    assert (Hq : quiet p1).
    { destruct Hinv. unfold quiet, advanceTimers, narrationAwaited in *.
      now rewrite Htm, Hst. }
    destruct (entry_arms scenes now Hp1 Hq) as (_ & Hpl' & Harmed).
    assert (Hin : advance_inv scenes
                    (exec (sceneEffect_cleanup ;; sceneEffect scenes now) p1))
      by (unfold advance_inv; now rewrite Hpl').
    destruct (_ =? _)%nat; [exact Hin|].
    eapply advance_inv_schedule; [apply listen_schedule | exact Hin].
  - (* the promise of play() settles *)
    simpl in Hstep.
    destruct (narrationStatus p) as [| ms r | | |] eqn:Hst; try discriminate.
    injection Hstep as <-.
    unfold advance_inv, armed, quiet, advanceTimers, narrationAwaited in *.
    split_player p. subst st.
    destruct started; seq_run.
    + destruct pl; [|destruct Hinv; discriminate].
      destruct (nth_error scenes idx) as [scene|];
        [|destruct Hinv; discriminate].
      destruct (url_truthy (audioUrl scene));
        [|destruct Hinv; discriminate].
      destruct Hinv as [[Htm _] | [Hc _]]; [|discriminate].
      left. auto.
    + destruct pl; [|destruct Hinv; discriminate].
      destruct (nth_error scenes idx) as [scene|];
        [|destruct Hinv; discriminate].
      destruct (url_truthy (audioUrl scene));
        [|destruct Hinv; discriminate].
      destruct Hinv as [[Htm [[r' Hms] | Hc]] | [Hc _]]; try discriminate.
      injection Hms as -> _. right. split; [reflexivity|].
      rewrite filter_app, Htm. simpl. eauto.
  - (* the narration ends *)
    simpl in Hstep.
    destruct (narrationStatus p) eqn:Hst; try discriminate.
    injection Hstep as <-.
    set (p1 := set_narrationStatus NarrEnded p).
    assert (Hpl : isPlaying p1 = true /\ quiet p1).
    { subst p1.
      unfold advance_inv, armed, quiet, advanceTimers, narrationAwaited in *.
      split_player p. subst st. seq_run.
      destruct pl; [|destruct Hinv; discriminate].
      split; [reflexivity|].
      destruct (nth_error scenes idx) as [scene|];
        [|destruct Hinv; discriminate].
      destruct (url_truthy (audioUrl scene));
        [|destruct Hinv; discriminate].
      destruct Hinv as [[Htm _] | [Hc _]]; [auto | discriminate]. }
    destruct Hpl as [Hpl Hq]. now apply advance_keeps_inv.
  - (* a timer fires *)
    simpl in Hstep.
    destruct (nth_error (timers p) k) as [t|] eqn:Hk; [|discriminate].
    injection Hstep as <-.
    set (p1 := set_timers (remove_nth k (timers p)) p).
    destruct (handler t) as [r|] eqn:Hh.
    + assert (Ht : isAdvanceTimer t = true)
        by (unfold isAdvanceTimer; now rewrite Hh).
      assert (Hpl : isPlaying p1 = true /\ quiet p1).
      { subst p1. pose proof (fired_timer_in _ _ Hk Ht) as Hne.
        unfold advance_inv, armed, quiet, advanceTimers, narrationAwaited in *.
        split_player p. seq_run.
        destruct pl; [|destruct Hinv; contradiction].
        split; [reflexivity|].
        destruct (nth_error scenes idx) as [scene|];
          [|destruct Hinv; contradiction].
        destruct (url_truthy (audioUrl scene)).
        - destruct Hinv as [[Htm _] | [Hst (t0 & Htm & _)]];
            [contradiction|].
          subst st. split; [|reflexivity].
          eapply fired_timer_leaves_none; eauto.
        - destruct Hinv as [Haw (t0 & Htm & _)].
          split; [|exact Haw]. eapply fired_timer_leaves_none; eauto. }
      destruct Hpl as [Hpl Hq]. now apply advance_keeps_inv.
    + assert (Ht : isAdvanceTimer t = false)
        by (unfold isAdvanceTimer; now rewrite Hh).
      apply advance_inv_schedule with (p := p); [|exact Hinv].
      pose proof (other_timer_keeps _ _ Hk Ht) as Hkeep.
      subst p1. unfold same_schedule, advanceTimers.
      split_player p. seq_run. auto.
  - (* the recorder delivers data *)
    simpl in Hstep.
    assert (Hsame : same_schedule p (exec (ondataavailable data) p)).
    { unfold same_schedule, advanceTimers, ondataavailable.
      split_player p. destruct (0 <? size data)%nat; seq_run; auto. }
    destruct (mediaRecorder p) as [rcd|]; [|discriminate].
    destruct (state rcd); [destruct (stopEventPending rcd)|];
      try discriminate; injection Hstep as <-;
      eapply advance_inv_schedule; eauto.
  - (* the recorder has stopped *)
    simpl in Hstep.
    destruct (mediaRecorder p) as [rcd|] eqn:Hm; [|discriminate].
    destruct (stopEventPending rcd); [|discriminate].
    injection Hstep as <-.
    apply advance_inv_schedule with (p := p); [|exact Hinv].
    unfold same_schedule, advanceTimers.
    split_player p. destruct (onstopSet rcd); seq_run; auto.
    rewrite filter_app. simpl. rewrite app_nil_r. auto.
Qed.

Lemma initial_inv (scenes : list (Scene Q)) : advance_inv scenes initialPlayer.
Proof. unfold advance_inv, quiet; simpl. auto. Qed.

Lemma run_keeps_inv (scenes : list (Scene Q)) :
  forall es p p',
    advance_inv scenes p -> run scenes p es = Some p' ->
    advance_inv scenes p'.
Proof.
  induction es as [|[now e] es IH]; intros p p' Hinv Hrun; simpl in Hrun.
  - now injection Hrun as <-.
  - destruct (step scenes now p e) as [p1|] eqn:Hstep; [|discriminate].
    eapply IH; [|exact Hrun]. eapply step_keeps_inv; eauto.
Qed.

(** C4.  In every state the mounted player reaches, whatever the events
    and their order: when nothing plays, no advance is scheduled; while a
    scene plays, exactly one is.  For a scene with narration it is the
    narration itself (pending or playing, to fire on 'ended'), or, with the
    narration idle because its play was rejected, the one fallback timeout
    of [(audioDuration || 5) * 1000] ms; for a scene without narration it
    is the one timeout of 5000 ms.  A timeout and an awaited narration are
    never scheduled together. *)
Theorem one_advance_per_scene :
  forall (scenes : list (Scene Q)) (es : list (Q * Event)) (p : Player),
    run scenes initialPlayer es = Some p ->
    (isPlaying p = false -> scheduledAdvances p = [])
    /\ (isPlaying p = true ->
        match nth_error scenes (currentSceneIndex p) with
        | Some scene =>
            if url_truthy (audioUrl scene)
            then scheduledAdvances p = [ByNarration]
                 \/ (narrationStatus p = NarrIdle
                     /\ scheduledAdvances p
                        = [ByTimeout
                             (num_or QOps (audioDuration scene) 5 * 1000)])
            else scheduledAdvances p = [ByTimeout 5000]
        | None => scheduledAdvances p = []
        end).
Proof.
  intros scenes es p Hrun.
  assert (Hinv : advance_inv scenes p)
    by (eapply run_keeps_inv; [apply initial_inv | exact Hrun]).
  unfold advance_inv, armed, quiet, advanceTimers in Hinv.
  unfold scheduledAdvances. split; intros Hpl; rewrite Hpl in Hinv.
  - destruct Hinv as [-> ->]. reflexivity.
  - destruct (nth_error scenes (currentSceneIndex p)) as [scene|].
    + destruct (url_truthy (audioUrl scene)).
      * destruct Hinv as [[-> Hst] | [Hst (t & -> & Hd)]].
        -- left. unfold narrationAwaited.
           destruct Hst as [[r ->] | ->]; reflexivity.
        -- right. split; [exact Hst|]. unfold narrationAwaited.
           rewrite Hst. simpl. now rewrite Hd.
      * destruct Hinv as [-> (t & -> & Hd)]. simpl. now rewrite Hd.
    + destruct Hinv as [-> ->]. reflexivity.
Qed.

(** After [demoEvents] the second scene of [twoScenes] plays, with its five
    second timeout as the only advance. *)
Lemma one_advance_per_scene_witness :
  scheduledAdvances demoState = [ByTimeout 5000].
Proof.
  destruct (@one_advance_per_scene twoScenes demoEvents demoState eq_refl)
    as [_ H].
  exact (H eq_refl).
Defined.

(** ** The scene index *)

Lemma entry_index (scenes : list (Scene Q)) (now : Q) (p : Player) :
  currentSceneIndex (exec (sceneEffect_cleanup ;; sceneEffect scenes now) p)
  = currentSceneIndex p.
Proof.
  split_player p. seq_run. destruct pl; seq_run; [|reflexivity].
  destruct (nth_error scenes idx) as [scene|]; seq_run; [|reflexivity].
  destruct (url_truthy (videoUrl scene)), (url_truthy (imageUrl scene)),
    (url_truthy (audioUrl scene)), st; seq_run; reflexivity.
Qed.

Lemma listen_index (q : Player) (r : Render) :
  currentSceneIndex (set_endedHandler r q) = currentSceneIndex q.
Proof. split_player q. reflexivity. Qed.

Lemma commit_index (scenes : list (Scene Q)) (now : Q) (old p : Player) :
  currentSceneIndex (exec (commit scenes now old) p) = currentSceneIndex p.
Proof.
  rewrite exec_commit. cbv zeta.
  destruct (_ =? _)%nat; destruct (Bool.eqb _ _); cbn [andb];
    rewrite ?listen_index; try reflexivity; apply entry_index.
Qed.

(** [handleNext] in any state: the index moves to the next scene when
    there is one; otherwise it stays and playback is finished. *)
Lemma handleNext_index (n : nat) (r : Render) (p : Player) :
  let p' := exec (handleNext n r) p in
  ((currentSceneIndex p + 1 <? n)%nat = true
   /\ p' = set_currentSceneIndex (currentSceneIndex p + 1) p)
  \/ ((currentSceneIndex p + 1 <? n)%nat = false
      /\ currentSceneIndex p' = currentSceneIndex p
      /\ isPlaying p' = false).
Proof.
  split_player p. unfold exec, handleNext, bind, get.
  cbn [currentSceneIndex].
  destruct (idx + 1 <? n)%nat; [left; seq_run; auto|].
  right. destruct st, r as [ri rp [|]], mr as [[mt [|] os sp]|]; seq_run; auto.
Qed.

Lemma step_index (scenes : list (Scene Q)) (now : Q) (p p' : Player)
    (e : Event) :
  (currentSceneIndex p < length scenes)%nat ->
  step scenes now p e = Some p' ->
  (currentSceneIndex p' < length scenes)%nat.
Proof.
  intros Hlt Hstep.
  assert (Hnext : forall r q,
             (currentSceneIndex q < length scenes)%nat ->
             (currentSceneIndex
                (exec (handleNext (length scenes) r ;; commit scenes now q) q)
              < length scenes)%nat).
  { intros r q Hq. rewrite exec_seq, commit_index.
    destruct (handleNext_index (length scenes) r q)
      as [[Hb ->] | (_ & -> & _)]; [|exact Hq].
    apply Nat.ltb_lt in Hb. split_player q. exact Hb. }
  destruct e as [env rec | started | | k | data |]; simpl in Hstep.
  - destruct (isPlaying p); [discriminate|]. injection Hstep as <-.
    rewrite exec_seq, commit_index.
    destruct (startPlayback_view (render_of p) env rec p) as (-> & _). lia.
  - destruct (narrationStatus p) eqn:Hst; try discriminate.
    injection Hstep as <-. split_player p.
    destruct started; seq_run; exact Hlt.
  - destruct (narrationStatus p); try discriminate.
    injection Hstep as <-. apply Hnext. split_player p. exact Hlt.
  - destruct (nth_error (timers p) k) as [t|]; [|discriminate].
    injection Hstep as <-. destruct (handler t) as [r|].
    + apply Hnext. split_player p. exact Hlt.
    + split_player p. exact Hlt.
  - destruct (mediaRecorder p) as [rcd|]; [|discriminate].
    assert (Hd : currentSceneIndex (exec (ondataavailable data) p)
                 = currentSceneIndex p).
    { unfold ondataavailable. split_player p.
      destruct (0 <? size data)%nat; seq_run; reflexivity. }
    destruct (state rcd); [destruct (stopEventPending rcd)|];
      try discriminate; injection Hstep as <-; now rewrite Hd.
  - destruct (mediaRecorder p) as [rcd|]; [|discriminate].
    destruct (stopEventPending rcd); [|discriminate].
    injection Hstep as <-. split_player p.
    destruct (onstopSet rcd); seq_run; exact Hlt.
Qed.

(** C10.  For a scene list that is not empty, the index of every state the
    mounted player reaches, through any events, is an index of the list, so
    the current scene is defined; and an advance taken at the last scene
    leaves the index where it is and finishes playback. *)
Theorem scene_index_in_bounds :
  forall (scenes : list (Scene Q)) (es : list (Q * Event)) (p : Player),
    scenes <> [] ->
    run scenes initialPlayer es = Some p ->
    (currentSceneIndex p < length scenes)%nat
    /\ (exists scene, nth_error scenes (currentSceneIndex p) = Some scene)
    /\ (forall r,
           (currentSceneIndex p + 1 = length scenes)%nat ->
           currentSceneIndex (exec (handleNext (length scenes) r) p)
           = currentSceneIndex p
           /\ isPlaying (exec (handleNext (length scenes) r) p) = false).
Proof.
  intros scenes es p Hne Hrun.
  assert (Hlt : (currentSceneIndex p < length scenes)%nat).
  { assert (H0 : (currentSceneIndex initialPlayer < length scenes)%nat).
    { destruct scenes; [congruence | simpl; lia]. }
    revert Hrun H0. generalize initialPlayer. clear Hne.
    induction es as [|[now e] es IH]; intros q Hrun Hq; simpl in Hrun.
    - now injection Hrun as <-.
    - destruct (step scenes now q e) as [q1|] eqn:Hstep; [|discriminate].
      eapply IH; [exact Hrun|]. eapply step_index; eauto. }
  split; [exact Hlt|]. split.
  - destruct (nth_error scenes (currentSceneIndex p)) as [scene|] eqn:E;
      [eauto|]. apply nth_error_None in E. lia.
  - intros r Hlast.
    destruct (handleNext_index (length scenes) r p)
      as [[Hb _] | (_ & Hi & Hp)]; [|auto].
    apply Nat.ltb_lt in Hb. lia.
Qed.

(** After [demoEvents] the index is 1, an index of [twoScenes]. *)
Lemma scene_index_in_bounds_witness :
  (currentSceneIndex demoState < length twoScenes)%nat.
Proof.
  destruct (@scene_index_in_bounds twoScenes demoEvents demoState) as [H _];
    [discriminate | reflexivity | exact H].
Defined.

(** ** Entering a scene without narration *)

Lemma entry_stamp (scenes : list (Scene Q)) (now : Q) (p : Player)
    (scene : Scene Q) :
  isPlaying p = true ->
  nth_error scenes (currentSceneIndex p) = Some scene ->
  let p' := exec (sceneEffect_cleanup ;; sceneEffect scenes now) p in
  sceneStartTime p' = now /\ isPlaying p' = true
  /\ currentSceneIndex p' = currentSceneIndex p.
Proof.
  intros Hpl Hs. split_player p. subst pl. seq_run. rewrite Hs. seq_run.
  destruct (url_truthy (videoUrl scene)), (url_truthy (imageUrl scene)),
    (url_truthy (audioUrl scene)), st; seq_run; auto.
Qed.

Lemma idle_effect (scenes : list (Scene Q)) (now : Q) (p : Player) :
  isPlaying p = false ->
  isPlaying (exec (sceneEffect_cleanup ;; sceneEffect scenes now) p) = false.
Proof. intros Hpl. split_player p. subst pl. seq_run. reflexivity. Qed.

Lemma listen_view (q : Player) (r : Render) :
  currentSceneIndex (set_endedHandler r q) = currentSceneIndex q
  /\ isPlaying (set_endedHandler r q) = isPlaying q
  /\ sceneStartTime (set_endedHandler r q) = sceneStartTime q.
Proof. split_player q. auto. Qed.

(** An advance, then the commit: the next scene is entered and stamped,
    or playback is finished. *)
Lemma advance_view (scenes : list (Scene Q)) (now : Q) (r : Render)
    (p : Player) :
  (currentSceneIndex p < length scenes)%nat ->
  let p' := exec (handleNext (length scenes) r ;; commit scenes now p) p in
  if (currentSceneIndex p + 1 <? length scenes)%nat
  then currentSceneIndex p' = (currentSceneIndex p + 1)%nat
       /\ isPlaying p' = isPlaying p
       /\ (isPlaying p = true -> sceneStartTime p' = now)
  else currentSceneIndex p' = currentSceneIndex p /\ isPlaying p' = false.
Proof.
  intros Hidx p'. subst p'. rewrite exec_seq, exec_commit. cbv zeta.
  destruct (handleNext_index (length scenes) r p)
    as [[Hb Heq] | (Hb & Hi & Hp)]; rewrite Hb.
  - rewrite Heq. apply Nat.ltb_lt in Hb.
    set (p1 := set_currentSceneIndex (currentSceneIndex p + 1) p).
    assert (Hi1 : currentSceneIndex p1 = (currentSceneIndex p + 1)%nat)
      by (subst p1; split_player p; reflexivity).
    assert (Hp1 : isPlaying p1 = isPlaying p)
      by (subst p1; split_player p; reflexivity).
    rewrite Hi1.
    replace (currentSceneIndex p =? currentSceneIndex p + 1)%nat with false
      by (symmetry; apply Nat.eqb_neq; lia).
    cbn [andb].
    set (pe := exec (sceneEffect_cleanup ;; sceneEffect scenes now) p1).
    destruct (listen_view pe (render_of pe)) as (-> & -> & ->).
    subst pe. rewrite entry_index, Hi1. split; [reflexivity|].
    destruct (isPlaying p) eqn:Hpl.
    + destruct (nth_error scenes (currentSceneIndex p1)) as [scene|] eqn:Hs;
        [| apply nth_error_None in Hs; lia].
      destruct (@entry_stamp scenes now p1 scene Hp1 Hs) as (Hst & Hpl' & _).
      split; [exact Hpl' | intros _; exact Hst].
    + split; [|discriminate]. apply idle_effect. exact Hp1.
  - rewrite Hi, Nat.eqb_refl. cbn [andb].
    set (p1 := exec (handleNext (length scenes) r) p) in *.
    destruct (Bool.eqb (isPlaying p) (isPlaying p1)); [auto|].
    split; [now rewrite entry_index | now apply idle_effect].
Qed.

(** The events that do not run [handleNext] or [startPlayback] leave the
    scene, the playing flag and the scene start as they are. *)
Lemma passive_step (scenes : list (Scene Q)) (now : Q) (p p' : Player)
    (e : Event) :
  step scenes now p e = Some p' ->
  firesAdvance p e = false ->
  match e with EvStart _ _ | EvEnded => False | _ => True end ->
  currentSceneIndex p' = currentSceneIndex p
  /\ isPlaying p' = isPlaying p
  /\ sceneStartTime p' = sceneStartTime p.
Proof.
  intros Hstep Hfire He.
  destruct e as [env rec | started | | k | data |]; try contradiction;
    simpl in Hstep.
  - destruct (narrationStatus p) eqn:Hst; try discriminate.
    injection Hstep as <-. split_player p.
    destruct started; seq_run; auto.
  - simpl in Hfire.
    destruct (nth_error (timers p) k) as [t|]; [|discriminate].
    injection Hstep as <-. unfold isAdvanceTimer in Hfire.
    destruct (handler t) as [r|]; [discriminate|].
    split_player p. auto.
  - destruct (mediaRecorder p) as [rcd|]; [|discriminate].
    assert (Hd : forall q, q = exec (ondataavailable data) p ->
                 currentSceneIndex q = currentSceneIndex p
                 /\ isPlaying q = isPlaying p
                 /\ sceneStartTime q = sceneStartTime p).
    { intros q ->. unfold ondataavailable. split_player p.
      destruct (0 <? size data)%nat; seq_run; auto. }
    destruct (state rcd); [destruct (stopEventPending rcd)|];
      try discriminate; injection Hstep as <-; now apply Hd.
  - destruct (mediaRecorder p) as [rcd|]; [|discriminate].
    destruct (stopEventPending rcd); [|discriminate].
    injection Hstep as <-. split_player p.
    destruct (onstopSet rcd); seq_run; auto.
Qed.

(** What holds while a scene without narration waits for its timer. *)
Lemma silent_schedule (scenes : list (Scene Q)) (p : Player)
    (scene : Scene Q) :
  advance_inv scenes p -> isPlaying p = true ->
  nth_error scenes (currentSceneIndex p) = Some scene ->
  url_truthy (audioUrl scene) = false ->
  narrationAwaited p = false
  /\ exists t, advanceTimers p = [t] /\ delayMs t = 5000.
Proof.
  unfold advance_inv, armed. intros Hinv Hpl Hs Ha.
  now rewrite Hpl, Hs, Ha in Hinv.
Qed.

Lemma waiting_step (scenes : list (Scene Q)) (now : Q) (p p' : Player)
    (e : Event) (scene : Scene Q) :
  advance_inv scenes p -> isPlaying p = true ->
  nth_error scenes (currentSceneIndex p) = Some scene ->
  url_truthy (audioUrl scene) = false ->
  firesAdvance p e = false ->
  step scenes now p e = Some p' ->
  advance_inv scenes p'
  /\ currentSceneIndex p' = currentSceneIndex p
  /\ isPlaying p' = true
  /\ sceneStartTime p' = sceneStartTime p.
Proof.
  intros Hinv Hpl Hs Ha Hfire Hstep.
  split; [eapply step_keeps_inv; eauto|].
  destruct (@silent_schedule scenes p scene Hinv Hpl Hs Ha) as [Haw _].
  assert (He : match e with EvStart _ _ | EvEnded => False | _ => True end).
  { destruct e; auto; simpl in Hstep.
    - now rewrite Hpl in Hstep.
    - unfold narrationAwaited in Haw.
      destruct (narrationStatus p); discriminate. }
  destruct (@passive_step scenes now p p' e Hstep Hfire He) as (Hi & Hp & Hst).
  rewrite Hi, Hp, Hst. auto.
Qed.

(** The event that entered a playing scene stamped its start. *)
Lemma entering_step (scenes : list (Scene Q)) (t0 : Q) (q p : Player)
    (e : Event) :
  advance_inv scenes q ->
  (currentSceneIndex q < length scenes)%nat ->
  step scenes t0 q e = Some p ->
  isPlaying p = true ->
  isPlaying q = false \/ currentSceneIndex q <> currentSceneIndex p ->
  sceneStartTime p = t0.
Proof.
  intros Hinv Hidx Hstep Hpl Hentered.
  assert (Hnext : forall r q1,
             currentSceneIndex q1 = currentSceneIndex q ->
             isPlaying q1 = isPlaying q ->
             p = exec (handleNext (length scenes) r ;; commit scenes t0 q1) q1 ->
             sceneStartTime p = t0).
  { intros r q1 Hi1 Hp1 ->.
    pose proof (@advance_view scenes t0 r q1 ltac:(lia)) as H. cbv zeta in H.
    destruct (currentSceneIndex q1 + 1 <? length scenes)%nat.
    - destruct H as (_ & Hp' & Hst). apply Hst. congruence.
    - destruct H as (_ & Hp'). congruence. }
  destruct e as [env rec | started | | k | data |].
  - simpl in Hstep. destruct (isPlaying q) eqn:Hq; [discriminate|].
    injection Hstep as <-. rewrite exec_seq, exec_commit in *. cbv zeta in *.
    destruct (startPlayback_view (render_of q) env rec q)
      as (Hi1 & Hp1 & _ & _).
    set (p1 := exec (startPlayback (render_of q) env rec) q) in *.
    rewrite Hp1, Hq in *. cbn [Bool.eqb] in *. rewrite andb_false_r in *.
    destruct (nth_error scenes (currentSceneIndex p1)) as [scene|] eqn:Hs;
      [| apply nth_error_None in Hs; lia].
    destruct (@entry_stamp scenes t0 p1 scene Hp1 Hs) as (Hst & _ & _).
    destruct (_ =? _)%nat; [exact Hst|].
    now destruct (listen_view
                    (exec (sceneEffect_cleanup ;; sceneEffect scenes t0) p1)
                    (render_of
                       (exec (sceneEffect_cleanup ;; sceneEffect scenes t0)
                          p1))) as (_ & _ & ->).
  - exfalso.
    assert (Hf : firesAdvance q (EvPlaySettled started) = false) by reflexivity.
    destruct (@passive_step scenes t0 q p _ Hstep Hf I) as (Hi & Hp & _).
    destruct Hentered; congruence.
  - simpl in Hstep. destruct (narrationStatus q) eqn:Hst; try discriminate.
    injection Hstep as Hp. symmetry in Hp.
    eapply Hnext; [| |exact Hp]; split_player q; reflexivity.
  - simpl in Hstep.
    destruct (nth_error (timers q) k) as [t|] eqn:Hk; [|discriminate].
    destruct (handler t) as [r|] eqn:Hh.
    + injection Hstep as Hp. symmetry in Hp.
      eapply Hnext; [| |exact Hp]; split_player q; reflexivity.
    + exfalso.
      assert (Hf : firesAdvance q (EvTimer k) = false).
      { simpl. rewrite Hk. unfold isAdvanceTimer. now rewrite Hh. }
      assert (Hstep' : step scenes t0 q (EvTimer k) = Some p)
        by (simpl; rewrite Hk, Hh; exact Hstep).
      destruct (@passive_step scenes t0 q p _ Hstep' Hf I) as (Hi & Hp & _).
      destruct Hentered; congruence.
  - exfalso.
    assert (Hf : firesAdvance q (EvData data) = false) by reflexivity.
    destruct (@passive_step scenes t0 q p _ Hstep Hf I) as (Hi & Hp & _).
    destruct Hentered; congruence.
  - exfalso.
    assert (Hf : firesAdvance q EvRecorderStop = false) by reflexivity.
    destruct (@passive_step scenes t0 q p _ Hstep Hf I) as (Hi & Hp & _).
    destruct Hentered; congruence.
Qed.

Lemma run_index (scenes : list (Scene Q)) :
  scenes <> [] ->
  forall es p,
    run scenes initialPlayer es = Some p ->
    (currentSceneIndex p < length scenes)%nat.
Proof.
  intros Hne es p Hrun.
  assert (H0 : (currentSceneIndex initialPlayer < length scenes)%nat).
  { destruct scenes; [congruence | simpl; lia]. }
  revert Hrun H0. generalize initialPlayer.
  induction es as [|[now e] es IH]; intros q Hrun Hq; simpl in Hrun.
  - now injection Hrun as <-.
  - destruct (step scenes now q e) as [q1|] eqn:Hstep; [|discriminate].
    eapply IH; [exact Hrun|]. eapply step_index; eauto.
Qed.

Lemma scheduled_silent (p : Player) (t : Timer) :
  narrationAwaited p = false -> advanceTimers p = [t] -> delayMs t = 5000 ->
  scheduledAdvances p = [ByTimeout 5000].
Proof.
  unfold scheduledAdvances, advanceTimers. intros -> -> <-. reflexivity.
Qed.

(** C3.  An event at time [t0] enters a scene whose [audioUrl] is absent
    or empty, whatever its [videoUrl] and [imageUrl] and whatever the
    media elements hold.  From then on, through any events that do not
    fire an advance timer, the scene stays current and playing with its
    start stamped [t0], the narration is not awaited, and the only advance
    scheduled is one timeout of 5000 ms, which runs [handleNext].  The
    browser fires that timer when its delay has elapsed, at [t0 + 5000]:
    then the scene advances, that is, the next scene is entered and
    stamped [t0 + 5000], or, after the last scene, playback finishes. *)
Theorem no_audio_five_second_timer :
  forall (scenes : list (Scene Q)) (es : list (Q * Event)) (q : Player)
         (t0 : Q) (e : Event) (p : Player) (scene : Scene Q),
    run scenes initialPlayer es = Some q ->
    step scenes t0 q e = Some p ->
    isPlaying q = false \/ currentSceneIndex q <> currentSceneIndex p ->
    isPlaying p = true ->
    nth_error scenes (currentSceneIndex p) = Some scene ->
    url_truthy (audioUrl scene) = false ->
    forall (waiting : list (Q * Event)) (p1 : Player),
      runWaiting scenes p waiting = Some p1 ->
      (currentSceneIndex p1 = currentSceneIndex p
       /\ isPlaying p1 = true
       /\ sceneStartTime p1 = t0
       /\ narrationAwaited p1 = false
       /\ scheduledAdvances p1 = [ByTimeout 5000])
      /\ exists k t r,
           nth_error (timers p1) k = Some t
           /\ handler t = HandleNext r
           /\ delayMs t = 5000
           /\ (forall j, firesAdvance p1 (EvTimer j) = true -> j = k)
           /\ exists p2,
                step scenes (t0 + delayMs t) p1 (EvTimer k) = Some p2
                /\ p2 = exec (handleNext (length scenes) r
                              ;; commit scenes (t0 + 5000)
                                   (set_timers (remove_nth k (timers p1)) p1))
                          (set_timers (remove_nth k (timers p1)) p1)
                /\ if (currentSceneIndex p + 1 <? length scenes)%nat
                   then currentSceneIndex p2 = (currentSceneIndex p + 1)%nat
                        /\ isPlaying p2 = true
                        /\ sceneStartTime p2 = t0 + 5000
                   else currentSceneIndex p2 = currentSceneIndex p
                        /\ isPlaying p2 = false.
Proof.
  intros scenes es q t0 e p scene Hrun Hstep Hentered Hpl Hs Ha waiting p1 Hw.
  assert (Hne : scenes <> []).
  { intros ->. destruct (currentSceneIndex p); discriminate. }
  assert (Hq : advance_inv scenes q)
    by (eapply run_keeps_inv; [apply initial_inv | exact Hrun]).
  assert (Hqi : (currentSceneIndex q < length scenes)%nat)
    by (eapply run_index; eauto).
  assert (Hp : advance_inv scenes p)
    by exact (@step_keeps_inv scenes t0 q p e Hq Hstep).
  assert (Hst : sceneStartTime p = t0)
    by exact (@entering_step scenes t0 q p e Hq Hqi Hstep Hpl Hentered).
  (* while waiting *)
  assert (Hwait : advance_inv scenes p1
                  /\ currentSceneIndex p1 = currentSceneIndex p
                  /\ isPlaying p1 = true /\ sceneStartTime p1 = t0).
  { clear Hstep Hentered Hrun Hq Hqi.
    revert p Hpl Hs Hp Hst Hw.
    induction waiting as [|[now e'] rest IH]; intros p Hpl Hs Hp Hst Hw;
      simpl in Hw.
    - injection Hw as <-. auto.
    - destruct (firesAdvance p e') eqn:Hf; [discriminate|].
      destruct (step scenes now p e') as [p'|] eqn:Hstep'; [|discriminate].
      destruct (@waiting_step scenes now p p' e' scene Hp Hpl Hs Ha Hf Hstep')
        as (Hp' & Hi' & Hpl' & Hst').
      destruct (IH p') as (H1 & H2 & H3 & H4); auto; try congruence.
      repeat split; auto. congruence. }
  destruct Hwait as (Hinv1 & Hi1 & Hpl1 & Hst1).
  assert (Hs1 : nth_error scenes (currentSceneIndex p1) = Some scene)
    by congruence.
  destruct (@silent_schedule scenes p1 scene Hinv1 Hpl1 Hs1 Ha)
    as (Haw & t & Htm & Hd).
  split.
  { repeat split; auto. eapply scheduled_silent; eauto. }
  assert (Hin : In t (timers p1)).
  { assert (H : In t (advanceTimers p1)) by (rewrite Htm; now left).
    unfold advanceTimers in H. now apply filter_In in H. }
  assert (Hadv : isAdvanceTimer t = true).
  { assert (H : In t (advanceTimers p1)) by (rewrite Htm; now left).
    unfold advanceTimers in H. now apply filter_In in H. }
  destruct (In_nth_error _ _ Hin) as [k Hk].
  assert (Hr : exists r, handler t = HandleNext r).
  { unfold isAdvanceTimer in Hadv. destruct (handler t) as [r|];
      [eauto | discriminate]. }
  destruct Hr as [r Hr].
  exists k, t, r. split; [exact Hk|]. split; [exact Hr|]. split; [exact Hd|].
  split.
  { intros j Hj. simpl in Hj.
    destruct (nth_error (timers p1) j) as [t'|] eqn:Hj'; [|discriminate].
    destruct (Nat.eq_dec j k) as [|Hne']; [assumption|]. exfalso.
    pose proof (@fired_timer_leaves_none (timers p1) k t t Hk Hadv Htm) as Hnone.
    assert (Hin' : In t' (filter isAdvanceTimer (remove_nth k (timers p1)))).
    { apply filter_In. split; [|exact Hj]. unfold remove_nth.
      apply in_or_app.
      destruct (Nat.lt_ge_cases j k) as [Hlt|Hge].
      - left. apply nth_error_In with (n := j).
        now rewrite nth_error_firstn, (proj2 (Nat.ltb_lt j k) Hlt).
      - right. apply nth_error_In with (n := (j - S k)%nat).
        rewrite nth_error_skipn. replace (S k + (j - S k))%nat with j by lia.
        exact Hj'. }
    now rewrite Hnone in Hin'. }
  set (p1' := set_timers (remove_nth k (timers p1)) p1).
  assert (Hp1' : currentSceneIndex p1' = currentSceneIndex p1
                 /\ isPlaying p1' = isPlaying p1)
    by (subst p1'; split_player p1; auto).
  destruct Hp1' as [Hi1' Hpl1'].
  eexists. split; [|split; [reflexivity|]].
  - simpl. rewrite Hk, Hr, Hd. reflexivity.
  - pose proof (@advance_view scenes (t0 + 5000) r p1') as H.
    cbv zeta in H. rewrite Hi1', Hi1 in H.
    assert (Hlt : (currentSceneIndex p < length scenes)%nat).
    { apply nth_error_Some. congruence. }
    specialize (H Hlt).
    destruct (currentSceneIndex p + 1 <? length scenes)%nat.
    + destruct H as (H1 & H2 & H3). rewrite Hpl1', Hpl1 in *. auto.
    + exact H.
Qed.

(** A preview of [silentFirst] started at time 0 enters the silent scene
    with the one timeout scheduled; when that timer fires, 5000 ms later,
    the second scene is playing and stamped with that time. *)
Lemma no_audio_five_second_timer_witness :
  scheduledAdvances silentEntered = [ByTimeout 5000]
  /\ exists k p2,
       step silentFirst (0 + 5000) silentEntered (EvTimer k) = Some p2
       /\ currentSceneIndex p2 = 1%nat
       /\ isPlaying p2 = true
       /\ sceneStartTime p2 = 0 + 5000.
Proof.
  destruct (@no_audio_five_second_timer silentFirst [] initialPlayer 0
              (EvStart anyEncoder false) silentEntered sceneSilent
              eq_refl eq_refl (or_introl eq_refl) eq_refl eq_refl eq_refl
              [] silentEntered eq_refl)
    as [(_ & _ & _ & _ & Hs)
        (k & t & r & _ & _ & Hd & _ & p2 & Hstep & _ & Hif)].
  split; [exact Hs|].
  exists k, p2. rewrite Hd in Hstep. split; [exact Hstep|]. exact Hif.
Defined.

(** ** Advance and finish *)

Lemma handleNext_last (n : nat) (r : Render) (p : Player) :
  (currentSceneIndex p + 1 <? n)%nat = false ->
  exec (handleNext n r) p
  = exec (finishPlayback r ;; setCurrentSceneIndex (currentSceneIndex p)) p.
Proof.
  intros H. unfold exec, handleNext, bind at 1, get. now rewrite H.
Qed.

(** [handleNext] as made by the render [r], on a playing player, followed
    by the commit of the new state.  When the incremented index is an
    index of the scene list, the index becomes it, the scene effect runs
    again for that scene (after the cleanup of its last run), stamping its
    start, and the 'ended' effect listens again.  Otherwise the index
    stays and the session is finished: not playing, music paused,
    narration neither playing nor pending, clip paused, no frame request
    pending; and when [r] saw the recording flag set, a recorder that was
    recording is stopped, with [onstop] installed and its stop event
    due. *)
Lemma advance_or_finish :
  forall (scenes : list (Scene Q)) (now : Q) (r : Render) (p : Player),
    isPlaying p = true ->
    ((currentSceneIndex p + 1 < length scenes)%nat ->
     let q := exec (sceneEffect_cleanup ;; sceneEffect scenes now)
                (set_currentSceneIndex (currentSceneIndex p + 1) p) in
     exec (handleNext (length scenes) r ;; commit scenes now p) p
     = set_endedHandler (render_of q) q
     /\ currentSceneIndex q = (currentSceneIndex p + 1)%nat
     /\ isPlaying q = true
     /\ sceneStartTime q = now)
    /\ ((length scenes <= currentSceneIndex p + 1)%nat ->
        let p' :=
          exec (handleNext (length scenes) r ;; commit scenes now p) p in
        currentSceneIndex p' = currentSceneIndex p
        /\ isPlaying p' = false
        /\ bgmPaused p' = true
        /\ narrationAwaited p' = false
        /\ videoPaused p' = true
        /\ frameRequested p' = false
        /\ (seenRecording r = true ->
            forall rcd,
              mediaRecorder p = Some rcd -> state rcd = RecRecording ->
              mediaRecorder p'
              = Some {| mimeType := mimeType rcd; state := RecInactive;
                        onstopSet := true; stopEventPending := true |})
        /\ (seenRecording r = false -> mediaRecorder p' = mediaRecorder p)).
Proof.
  intros scenes now r p Hpl. split.
  - intros Hlt q. apply Nat.ltb_lt in Hlt as Hb.
    assert (Heq : exec (handleNext (length scenes) r ;; commit scenes now p) p
                  = set_endedHandler (render_of q) q).
    { rewrite exec_seq, exec_commit. cbv zeta.
      destruct (handleNext_index (length scenes) r p)
        as [[_ ->] | [Hc _]]; [|congruence].
      replace (currentSceneIndex p
               =? currentSceneIndex
                    (set_currentSceneIndex (currentSceneIndex p + 1) p))%nat
        with false; [reflexivity|].
      symmetry. apply Nat.eqb_neq. split_player p. seq_run. lia. }
    split; [exact Heq|]. subst q.
    destruct (nth_error scenes (currentSceneIndex p + 1)) as [scene|] eqn:Hs;
      [| apply nth_error_None in Hs; lia].
    split_player p. subst pl. seq_run. rewrite Hs. seq_run.
    destruct (url_truthy (videoUrl scene)), (url_truthy (imageUrl scene)),
      (url_truthy (audioUrl scene)), st; seq_run; auto.
  - intros Hge p'. subst p'.
    assert (Hb : (currentSceneIndex p + 1 <? length scenes)%nat = false)
      by (apply Nat.ltb_ge; lia).
    rewrite exec_seq, exec_commit. cbv zeta.
    destruct (handleNext_index (length scenes) r p)
      as [[Hc _] | (_ & Hi & Hp)]; [congruence|].
    rewrite Hi, Nat.eqb_refl, Hp, Hpl. cbn [Bool.eqb andb].
    rewrite (@handleNext_last _ r p Hb).
    unfold narrationAwaited. split_player p. subst pl.
    destruct st, r as [ri rp [|]], mr as [[mt [|] os sp]|]; seq_run;
      repeat split; auto; try discriminate;
      intros _ rcd Hr; injection Hr as <-; intros Hs; simpl in *;
      try discriminate; reflexivity.
Qed.

(** An advance at the last of [twoScenes], taken by a handler that saw the
    recording, finishes playback and stops the recorder. *)
Lemma advance_or_finish_witness :
  isPlaying
    (exec (handleNext (length twoScenes) (render_of recordingLast)
           ;; commit twoScenes 9 recordingLast) recordingLast) = false
  /\ option_map state
       (mediaRecorder
          (exec (handleNext (length twoScenes) (render_of recordingLast)
                 ;; commit twoScenes 9 recordingLast) recordingLast))
     = Some RecInactive.
Proof.
  destruct (@advance_or_finish twoScenes 9 (render_of recordingLast)
              recordingLast eq_refl) as [_ H].
  destruct H as (_ & Hp & _ & _ & _ & _ & Hr & _); [simpl; lia|].
  split; [exact Hp|].
  rewrite (Hr eq_refl _ eq_refl eq_refl). reflexivity.
Defined.

(** C5, on the code.  Advancing past the last scene finishes playback, but
    it stops the recorder only when the handler that runs saw the
    recording flag set.  The 'ended' effect depends on [currentSceneIndex]
    and [scenes.length] alone, so with one scene the listener is still the
    one of the first render, made before recording began: when the
    narration of a recorded single scene ends, playback finishes, the
    recorder keeps recording and no file is offered.  When the same scene
    is advanced by its fallback timer, made by the scene effect after the
    start, the recorder is stopped; so it is after the last of two scenes,
    where the listener was renewed on the change of index. *)
Theorem single_scene_recording_not_stopped :
  option_map
    (fun p => (isPlaying p, isRecording p, frameRequested p,
               option_map state (mediaRecorder p), downloads p))
    (run [sceneWithAudio] initialPlayer
       [ (0, EvStart anyEncoder true); (1, EvPlaySettled true);
         (4001, EvEnded) ])
  = Some (false, true, false, Some RecRecording, [])
  /\ option_map
       (fun p => (isPlaying p, option_map state (mediaRecorder p)))
       (run [sceneWithAudio] initialPlayer
          [ (0, EvStart anyEncoder true); (1, EvPlaySettled false);
            (4001, EvTimer 0) ])
     = Some (false, Some RecInactive)
  /\ option_map
       (fun p => (isPlaying p, option_map state (mediaRecorder p)))
       (run [sceneSilent; sceneWithAudio] initialPlayer
          [ (0, EvStart anyEncoder true); (5000, EvTimer 0);
            (5001, EvPlaySettled true); (9001, EvEnded) ])
     = Some (false, Some RecInactive).
Proof.
  split; [vm_compute; reflexivity|].
  split; vm_compute; reflexivity.
Qed.

(** ** Starting a recording without an encoder *)

(** When the constructor of the recorder throws, [startPlayback] leaves
    the frame request and the background music as they were.  (An audio
    context, once made, comes with its destination node.) *)
Lemma startPlayback_returns_early (r : Render) (env : Env) (p : Player) :
  canvasMounted env = true ->
  (forall mime, recorderThrows env mime = true) ->
  audioCtx p = None \/ destNode p = true ->
  let p' := exec (startPlayback r env true) p in
  isPlaying p' = true /\ isRecording p' = false
  /\ mediaRecorder p' = mediaRecorder p
  /\ alerts p' = alerts p ++ ["浏览器不支持此录制格式。"%string]
  /\ frameLoop p' = frameLoop p
  /\ bgmPaused p' = bgmPaused p.
Proof.
  intros Hc Ht Hd. split_player p.
  destruct ac as [[| |]|], dn, (vp9Supported env) eqn:Ev;
    try (destruct Hd; discriminate);
    seq_run; rewrite ?Hc, ?Ev, ?Ht; seq_run; repeat split.
Qed.

(** C6, on the code.  On a freshly mounted player in a browser without an
    encoder, the click that starts a recording leaves the player playing
    and not recording, with one alert and no recorder, and the scene
    effect plays the narration of the first scene; but no frame is
    requested and the music stays paused.  The same click without
    recording, or with an encoder, requests a frame and plays the
    music. *)
Theorem recorder_failure_skips_render_loop :
  option_map
    (fun p => (isPlaying p, isRecording p, length (alerts p),
               mediaRecorder p, narrationAwaited p,
               frameRequested p, bgmPaused p))
    (run [sceneWithAudio] initialPlayer [ (0, EvStart noEncoder true) ])
  = Some (true, false, 1%nat, None, true, false, true)
  /\ option_map
       (fun p => (isPlaying p, narrationAwaited p,
                  frameRequested p, bgmPaused p))
       (run [sceneWithAudio] initialPlayer [ (0, EvStart noEncoder false) ])
     = Some (true, true, true, false)
  /\ option_map
       (fun p => (isPlaying p, isRecording p,
                  option_map state (mediaRecorder p), narrationAwaited p,
                  frameRequested p, bgmPaused p))
       (run [sceneWithAudio] initialPlayer [ (0, EvStart anyEncoder true) ])
     = Some (true, true, Some RecRecording, true, true, false).
Proof.
  split; [vm_compute; reflexivity|].
  split; vm_compute; reflexivity.
Qed.

(** ** The recording buffer *)

Lemma deliver_spec (ds : list Blob) :
  forall p,
    recordedChunks (deliver ds p) = recordedChunks p ++ filter nonEmpty ds
    /\ mediaRecorder (deliver ds p) = mediaRecorder p
    /\ downloads (deliver ds p) = downloads p.
Proof.
  induction ds as [|d ds IH]; intros p; simpl.
  - now rewrite app_nil_r.
  - destruct (IH (exec (ondataavailable d) p)) as (-> & -> & ->).
    unfold ondataavailable, nonEmpty. split_player p.
    destruct (0 <? size d)%nat; seq_run; repeat split; auto.
    now rewrite <- app_assoc.
Qed.

Lemma concat_nonEmpty (ds : list Blob) :
  concat (filter nonEmpty ds) = concat ds.
Proof.
  induction ds as [|d ds IH]; simpl; auto.
  destruct d as [|b d]; simpl; [exact IH|]. now rewrite IH.
Qed.

(** C7.  A recorder is recording into an empty buffer.  The fragments
    [before] arrive, the recording is stopped, and the fragments [after]
    arrive before the stop event.  The buffer then holds the non-empty
    fragments in their order of arrival; the stop event offers one more
    file, which is exactly the fragments laid end to end; stopping again
    does nothing, and the stop event cannot occur a second time. *)
Theorem recording_yields_one_file :
  forall (scenes : list (Scene Q)) (now : Q) (p : Player)
         (rcd : MediaRecorder) (before after : list Blob),
    mediaRecorder p = Some rcd -> state rcd = RecRecording ->
    recordedChunks p = [] ->
    let p1 := deliver before p in
    let p2 := exec stopRecording p1 in
    let p3 := deliver after p2 in
    recordedChunks p1 = filter nonEmpty before
    /\ recordedChunks p3 = filter nonEmpty (before ++ after)
    /\ exec stopRecording p2 = p2
    /\ exists p4,
         step scenes now p3 EvRecorderStop = Some p4
         /\ downloads p4
            = downloads p ++ [ {| fileStamp := now;
                                  fileType := "video/webm";
                                  fileData := concat (before ++ after) |} ]
         /\ forall now', step scenes now' p4 EvRecorderStop = None.
Proof.
  intros scenes now p rcd before after Hr Hs Hc p1 p2 p3.
  destruct (deliver_spec before p) as (Hc1 & Hr1 & Hd1). fold p1 in Hc1, Hr1, Hd1.
  rewrite Hc in Hc1. simpl in Hc1. rewrite Hr in Hr1.
  assert (H2 : recordedChunks p2 = filter nonEmpty before
               /\ downloads p2 = downloads p
               /\ mediaRecorder p2
                  = Some {| mimeType := mimeType rcd; state := RecInactive;
                            onstopSet := true; stopEventPending := true |}
               /\ exec stopRecording p2 = p2).
  { subst p2. revert Hc1 Hr1 Hd1. generalize p1. intros q Hq1 Hq2 Hq3.
    split_player q. subst mr ch dl. destruct rcd as [mt [|] os sp];
      [discriminate|]. seq_run. repeat split. }
  destruct H2 as (Hc2 & Hd2 & Hr2 & Hidem).
  destruct (deliver_spec after p2) as (Hc3 & Hr3 & Hd3). fold p3 in Hc3, Hr3, Hd3.
  rewrite Hc2 in Hc3. rewrite Hr2 in Hr3. rewrite Hd2 in Hd3.
  rewrite <- filter_app in Hc3.
  split; [exact Hc1|]. split; [exact Hc3|]. split; [exact Hidem|].
  revert Hc3 Hr3 Hd3. generalize p3. intros q Hq1 Hq2 Hq3.
  split_player q. subst mr ch dl. eexists. split; [reflexivity|].
  seq_run. split; [|reflexivity].
  unfold newBlob. now rewrite concat_nonEmpty.
Qed.

(** Three fragments, one of them empty, then the flush at the stop: the
    file holds the four bytes in order. *)
Lemma recording_yields_one_file_witness :
  exists p4,
    step twoScenes 9
      (deliver [[4%N]]
         (exec stopRecording
            (deliver [[1%N; 2%N]; []; [3%N]] recordingLast)))
      EvRecorderStop = Some p4
    /\ downloads p4
       = [ {| fileStamp := 9; fileType := "video/webm";
              fileData := [1%N; 2%N; 3%N; 4%N] |} ].
Proof.
  destruct (@recording_yields_one_file twoScenes 9 recordingLast _
              [[1%N; 2%N]; []; [3%N]] [[4%N]] eq_refl eq_refl eq_refl)
    as (_ & _ & _ & p4 & Hstep & Hd & _).
  exists p4. split; [exact Hstep | exact Hd].
Defined.

(** ** The closure of the render loop *)

(** The frame request is made by [startPlayback] alone, with the
    [renderFrame] of the render in which a start button was clicked, and
    that function requests itself again: in every state the player
    reaches, the render whose [renderFrame] runs saw [isPlaying] false. *)
Lemma step_frame_loop (scenes : list (Scene Q)) (now : Q) (p p' : Player)
    (e : Event) :
  (forall r, frameLoop p = Some r -> seenPlaying r = false) ->
  step scenes now p e = Some p' ->
  forall r, frameLoop p' = Some r -> seenPlaying r = false.
Proof.
  intros Hinv Hstep.
  assert (Hentry : forall q,
             frameLoop (exec (sceneEffect_cleanup ;; sceneEffect scenes now) q)
             = frameLoop q).
  { intros q. split_player q. seq_run. destruct pl; seq_run; [|reflexivity].
    destruct (nth_error scenes idx) as [scene|]; seq_run; [|reflexivity].
    destruct (url_truthy (videoUrl scene)), (url_truthy (imageUrl scene)),
      (url_truthy (audioUrl scene)), st; seq_run; reflexivity. }
  assert (Hcommit : forall old q,
             frameLoop (exec (commit scenes now old) q) = frameLoop q).
  { intros old q. rewrite exec_commit. cbv zeta.
    assert (Hl : forall x r, frameLoop (set_endedHandler r x) = frameLoop x)
      by (intros x r; split_player x; reflexivity).
    destruct (_ =? _)%nat; destruct (Bool.eqb _ _); cbn [andb];
      rewrite ?Hl, ?Hentry; reflexivity. }
  assert (Hnext : forall r q,
             frameLoop (exec (handleNext (length scenes) r) q) = frameLoop q
             \/ frameLoop (exec (handleNext (length scenes) r) q) = None).
  { intros r q. split_player q. unfold exec, handleNext, bind, get.
    cbn [currentSceneIndex].
    destruct (idx + 1 <? length scenes)%nat; [left; seq_run; reflexivity|].
    right. destruct st, r as [ri rp [|]], mr as [[mt [|] os sp]|]; seq_run;
      reflexivity. }
  destruct e as [env rec | started | | k | data |]; simpl in Hstep.
  - destruct (isPlaying p) eqn:Hpl; [discriminate|]. injection Hstep as <-.
    rewrite exec_seq, Hcommit. revert Hinv. split_player p. subst pl.
    intros Hinv r.
    destruct rec, ac as [[| |]|], (canvasMounted env) eqn:Ec, dn,
      (vp9Supported env) eqn:Ev;
      seq_run; rewrite ?Ec, ?Ev; cbn [andb];
      try (destruct (recorderThrows env _)); seq_run;
      try (intros H; injection H as <-; reflexivity); apply Hinv.
  - destruct (narrationStatus p) as [| ms r0 | | |] eqn:Hst; try discriminate.
    injection Hstep as <-. revert Hinv. split_player p.
    destruct started; seq_run; auto.
  - destruct (narrationStatus p); try discriminate. injection Hstep as <-.
    rewrite exec_seq, Hcommit. intros r.
    match goal with
    | |- frameLoop (exec (handleNext _ ?r0) ?q) = _ -> _ =>
        destruct (Hnext r0 q) as [-> | ->]; [|discriminate]
    end.
    revert Hinv. split_player p. seq_run. auto.
  - destruct (nth_error (timers p) k) as [t|]; [|discriminate].
    injection Hstep as <-. destruct (handler t) as [r0|].
    + rewrite exec_seq, Hcommit. intros r.
      match goal with
      | |- frameLoop (exec (handleNext _ ?r1) ?q) = _ -> _ =>
          destruct (Hnext r1 q) as [-> | ->]; [|discriminate]
      end.
      revert Hinv. split_player p. seq_run. auto.
    + revert Hinv. split_player p. seq_run. auto.
  - destruct (mediaRecorder p) as [rcd|]; [|discriminate].
    assert (Hd : frameLoop (exec (ondataavailable data) p) = frameLoop p).
    { unfold ondataavailable. split_player p.
      destruct (0 <? size data)%nat; seq_run; reflexivity. }
    destruct (state rcd); [destruct (stopEventPending rcd)|];
      try discriminate; injection Hstep as <-; now rewrite Hd.
  - destruct (mediaRecorder p) as [rcd|]; [|discriminate].
    destruct (stopEventPending rcd); [|discriminate].
    injection Hstep as <-. revert Hinv. split_player p.
    destruct (onstopSet rcd); seq_run; auto.
Qed.

Lemma frame_loop_sees_idle (scenes : list (Scene Q)) :
  forall es p,
    run scenes initialPlayer es = Some p ->
    forall r, frameLoop p = Some r -> seenPlaying r = false.
Proof.
  intros es p Hrun.
  assert (H0 : forall r, frameLoop initialPlayer = Some r ->
                         seenPlaying r = false) by discriminate.
  revert Hrun H0. generalize initialPlayer.
  induction es as [|[now e] es IH]; intros q Hrun Hq; simpl in Hrun.
  - now injection Hrun as <-.
  - destruct (step scenes now q e) as [q1|] eqn:Hstep; [|discriminate].
    eapply IH; [exact Hrun|]. eapply step_frame_loop; eauto.
Qed.

(** The tick that a pending frame request runs never sees [isPlaying]
    set, in any state the player reaches; so the subtitle step of
    [renderFrame], which is guarded by that flag, draws nothing in the
    running loop. *)
Theorem frame_loop_draws_no_subtitle :
  forall (scenes : list (Scene Q)) (es : list (Q * Event)) (p : Player)
         (cv : option Renderer.Canvas) (v : Renderer.Video)
         (i : Renderer.Image) (audioTime now : Q) (t : Renderer.Tick),
    run scenes initialPlayer es = Some p ->
    loopTick scenes p cv v i audioTime now = Some t ->
    Renderer.playing t = false
    /\ forall cw ch log, Renderer.drawSubtitles t cw ch log = inr (tt, log).
Proof.
  intros scenes es p cv v i audioTime now t Hrun Ht.
  unfold loopTick in Ht.
  destruct (frameLoop p) as [r|] eqn:Hr; [|discriminate].
  injection Ht as <-. cbn [Renderer.playing].
  pose proof (@frame_loop_sees_idle scenes es p Hrun r Hr) as Hf.
  split; [exact Hf|].
  intros cw ch log. unfold Renderer.drawSubtitles.
  cbn [Renderer.currentScene Renderer.playing]. rewrite Hf.
  now destruct (nth_error scenes (seenIndex r)).
Qed.

(** After [secondScenePlaying], with the second scene playing, the tick of
    the pending frame request sees nothing playing. *)
Lemma frame_loop_draws_no_subtitle_witness :
  exists p t,
    run [sceneShort; sceneLong] initialPlayer secondScenePlaying = Some p
    /\ loopTick [sceneShort; sceneLong] p None
         {| Renderer.readyState := 0; Renderer.paused := true;
            Renderer.videoWidth := 0; Renderer.videoHeight := 0 |}
         (Renderer.ImgAvailable true 1920 1080) 1 7000 = Some t
    /\ isPlaying p = true
    /\ Renderer.playing t = false.
Proof.
  eexists. eexists.
  split; [vm_compute; reflexivity|]. split; [reflexivity|].
  split; [reflexivity|].
  eapply (@frame_loop_draws_no_subtitle [sceneShort; sceneLong]
            secondScenePlaying);
    [vm_compute; reflexivity | reflexivity].
Defined.

(** C8, on the code.  [sceneShort] (2 s) has played to its end at time 2000
    and [sceneLong] (10 s) plays, its start stamped 2000.  The frame
    request still runs the [renderFrame] of the render in which the start
    button was clicked: its scene is [sceneShort] and its playing flag is
    false.  Five seconds into the ten of [sceneLong] the zoom it draws is
    1.15, reached after the 2 s of [sceneShort]; the interpolation over
    the duration of the scene that plays gives 1.075. *)
Theorem frame_loop_keeps_first_scene :
  option_map
    (fun p => (currentSceneIndex p, isPlaying p, sceneStartTime p, frameLoop p))
    (run [sceneShort; sceneLong] initialPlayer secondScenePlaying)
  = Some (1%nat, true, 2000,
          Some {| seenIndex := 0; seenPlaying := false;
                  seenRecording := false |})
  /\ match run [sceneShort; sceneLong] initialPlayer secondScenePlaying with
     | Some p =>
         match loopZoom [sceneShort; sceneLong] p 7000 with
         | Some z => z == 115 # 100
         | None => False
         end
     | None => False
     end
  /\ Renderer.kenBurnsScale (Some sceneLong) 7000 2000 == 1075 # 1000.
Proof.
  split; [vm_compute; reflexivity|].
  split; vm_compute; reflexivity.
Qed.

End SequencerFacts.

(* ================================================================== *)
(** * The project store *)
(* ================================================================== *)

Section StorageFacts.

Import Js Storage.
Local Open Scope eff_scope.

Lemma getProjects_spec (b : Browser) (s : Store) :
  getProjectsFromStorage b s = (inr (contents b s), s).
Proof.
  unfold getProjectsFromStorage, contents, try_catch, bind,
    localStorage_getItem.
  destruct (getItemThrows b); [reflexivity|].
  cbn. destruct (item s) as [[| |v]|]; reflexivity.
Qed.

Lemma save_spec (b : Browser) (now : Z) (project : Project) (s : Store) :
  saveProjectToStorage b now (project, s)
  = match contents b s with
    | PNotArray =>
        (inr tt,
         (project,
          {| item := item s;
             console := console s ++ ["Failed to save project"%string] |}))
    | PArray l =>
        let project' := Project.set_updatedAt now project in
        if setItemAccepts b (with_saved project' l)
        then (inr tt,
              (project',
               {| item := Some (Json (PArray (with_saved project' l)));
                  console := console s |}))
        else (inr tt,
              (project',
               {| item := item s;
                  console := console s ++ ["Failed to save project"%string] |}))
    end.
Proof.
  unfold saveProjectToStorage, try_catch, bind, on_store, the_project, zoom.
  cbn [fst snd]. rewrite getProjects_spec. cbn [fst snd get].
  destruct (contents b s) as [l|]; cbn; [|reflexivity].
  unfold with_saved, localStorage_setItem. cbn.
  destruct (setItemAccepts b _); reflexivity.
Qed.

Lemma delete_spec (b : Browser) (pid : string) (s : Store) :
  deleteProjectFromStorage b pid s
  = match contents b s with
    | PNotArray =>
        (inr [],
         {| item := item s;
            console := console s ++ ["Failed to delete project"%string] |})
    | PArray l =>
        if setItemAccepts b (without_id pid l)
        then (inr (without_id pid l),
              {| item := Some (Json (PArray (without_id pid l)));
                 console := console s |})
        else (inr [],
              {| item := item s;
                 console := console s ++ ["Failed to delete project"%string] |})
    end.
Proof.
  unfold deleteProjectFromStorage, try_catch, bind.
  rewrite getProjects_spec.
  destruct (contents b s) as [l|]; cbn; [|reflexivity].
  unfold localStorage_setItem, without_id.
  destruct (setItemAccepts b _); reflexivity.
Qed.

(** ** Lists of projects *)

Lemma findIndex_none {A} (f : A -> bool) (l : list A) :
  findIndex f l = None -> forall x, In x l -> f x = false.
Proof.
  induction l as [|a l IH]; cbn; [tauto|].
  destruct (f a) eqn:Ha; [discriminate|].
  destruct (findIndex f l); [discriminate|].
  intros _ x [<-|Hx]; auto.
Qed.

Lemma findIndex_some {A} (f : A -> bool) (l : list A) (i : nat) :
  findIndex f l = Some i ->
  exists x, nth_error l i = Some x /\ f x = true
            /\ forall y, In y (firstn i l) -> f y = false.
Proof.
  revert i. induction l as [|a l IH]; cbn; [discriminate|].
  intros i. destruct (f a) eqn:Ha.
  - intros [= <-]. exists a. cbn. split; [reflexivity|].
    split; [assumption|]. intros y [].
  - destruct (findIndex f l) as [j|]; [|discriminate].
    intros [= <-]. destruct (IH j eq_refl) as (x & Hx & Hfx & Hbefore).
    exists x. cbn. repeat split; auto.
    intros y [<-|Hy]; auto.
Qed.

Lemma set_nth_split {A} (i : nat) (v x : A) (l : list A) :
  nth_error l i = Some x ->
  set_nth i v l = firstn i l ++ v :: skipn (S i) l.
Proof.
  revert i. induction l as [|a l IH]; intros [|i]; cbn; try discriminate.
  - reflexivity.
  - intros H. f_equal. exact (IH i H).
Qed.

Lemma nth_error_split_at {A} (i : nat) (x : A) (l : list A) :
  nth_error l i = Some x -> l = firstn i l ++ x :: skipn (S i) l.
Proof.
  revert i. induction l as [|a l IH]; intros [|i]; cbn; try discriminate.
  - now intros [= ->].
  - intros H. f_equal. exact (IH i H).
Qed.

Lemma same_id_eq (pid : string) (p : Project) :
  same_id pid p = true <-> Project.id p = pid.
Proof. unfold same_id. apply String.eqb_eq. Qed.

Lemma same_id_stamp (now : Z) (pid : string) (p : Project) :
  same_id pid (Project.set_updatedAt now p) = same_id pid p.
Proof. reflexivity. Qed.

Lemma find_none_before {A} (f : A -> bool) (l r : list A) (v : A) :
  (forall y, In y l -> f y = false) -> f v = true ->
  find f (l ++ v :: r) = Some v.
Proof.
  induction l as [|a l IH]; cbn; intros Hl Hv.
  - now rewrite Hv.
  - rewrite (Hl a (or_introl eq_refl)). apply IH; auto.
Qed.

Lemma filter_negb_app_one {A} (f : A -> bool) (l r : list A) (v : A) :
  f v = true ->
  filter (fun p => negb (f p)) (l ++ v :: r)
  = filter (fun p => negb (f p)) (l ++ r).
Proof.
  intros Hv. rewrite !filter_app. cbn. now rewrite Hv.
Qed.

(** What a save does to the array, by whether the id was there. *)
Lemma with_saved_cases (p : Project) (l : list Project) :
  (with_saved p l = p :: l
   /\ forall q, In q l -> Project.id q <> Project.id p)
  \/ (exists before old after,
         l = before ++ old :: after
         /\ with_saved p l = before ++ p :: after
         /\ Project.id old = Project.id p
         /\ forall q, In q before -> Project.id q <> Project.id p).
Proof.
  unfold with_saved.
  destruct (findIndex (same_id (Project.id p)) l) as [i|] eqn:Hi.
  - right. destruct (findIndex_some _ _ Hi) as (old & Hnth & Hold & Hbefore).
    exists (firstn i l), old, (skipn (S i) l).
    split; [now apply nth_error_split_at|].
    split; [now apply set_nth_split with (x := old)|].
    split; [now apply same_id_eq|].
    intros q Hq Heq. apply same_id_eq in Heq.
    rewrite (Hbefore q Hq) in Heq. discriminate.
  - left. split; [reflexivity|].
    intros q Hq Heq. apply same_id_eq in Heq.
    rewrite (findIndex_none _ _ Hi q Hq) in Heq. discriminate.
Qed.

Lemma without_id_none (pid : string) (l : list Project) :
  (forall q, In q l -> Project.id q <> pid) -> without_id pid l = l.
Proof.
  unfold without_id. induction l as [|a l IH]; cbn; intros H; [reflexivity|].
  destruct (same_id pid a) eqn:Ha.
  - apply same_id_eq in Ha. now elim (H a (or_introl eq_refl)).
  - cbn. f_equal. apply IH. intros q Hq. apply H. now right.
Qed.

(** The three functions of the store never throw, and reading the
    projects writes nothing: it answers the stored array, and the empty
    array when the key is absent, when its text is empty or does not
    parse, or when the storage cannot be read. *)
Theorem storage_never_throws :
  forall (b : Browser) (s : Store),
    getProjectsFromStorage b s = (inr (contents b s), s)
    /\ (forall now project,
           returns (saveProjectToStorage b now) (project, s) = true)
    /\ (forall pid, returns (deleteProjectFromStorage b pid) s = true).
Proof.
  intros b s. split; [apply getProjects_spec|]. split.
  - intros now project. unfold returns. rewrite save_spec.
    destruct (contents b s); cbn; [|reflexivity].
    destruct (setItemAccepts b _); reflexivity.
  - intros pid. unfold returns. rewrite delete_spec.
    destruct (contents b s); cbn; [|reflexivity].
    destruct (setItemAccepts b _); reflexivity.
Qed.

(** Saving and reading back.  When the store reads as the array [l]
    and the browser accepts the write, [saveProjectToStorage] stamps
    [updatedAt] on the object it was given and stores an array in which
    looking that id up finds the stamped project; the projects with
    another id are the ones of [l], in their order; the array has the
    length of [l] when the id was there and one more, the project first,
    when it was not.  Nothing is logged. *)
Theorem save_then_lookup :
  forall (b : Browser) (now : Z) (project : Project) (s : Store)
         (l : list Project),
    contents b s = PArray l ->
    let stamped := Project.set_updatedAt now project in
    setItemAccepts b (with_saved stamped l) = true ->
    let after := state_after (saveProjectToStorage b now) (project, s) in
    let l' := with_saved stamped l in
    fst after = stamped
    /\ item (snd after) = Some (Json (PArray l'))
    /\ console (snd after) = console s
    /\ find (same_id (Project.id project)) l' = Some stamped
    /\ without_id (Project.id project) l' = without_id (Project.id project) l
    /\ (if existsb (same_id (Project.id project)) l
        then length l' = length l
        else l' = stamped :: l).
Proof.
  intros b now project s l Hc stamped Hok after l'.
  subst after. unfold state_after. rewrite save_spec, Hc. cbn zeta.
  fold stamped. rewrite Hok. cbn [fst snd item console].
  repeat (split; [reflexivity|]).
  assert (Hid : Project.id stamped = Project.id project) by reflexivity.
  destruct (with_saved_cases stamped l) as [[Hl' Hfresh]
    | (before & old & after & Hl & Hl' & Hold & Hbefore)];
    fold l' in Hl'; rewrite Hl'.
  - rewrite Hid in Hfresh. split; [|split].
    + cbn. unfold same_id at 1. cbn. now rewrite String.eqb_refl.
    + unfold without_id. cbn. unfold same_id at 1. cbn.
      now rewrite String.eqb_refl.
    + replace (existsb _ l) with false; [reflexivity|].
      symmetry. apply not_true_is_false. intros H.
      apply existsb_exists in H. destruct H as (q & Hq & Hs).
      apply same_id_eq in Hs. exact (Hfresh q Hq Hs).
  - rewrite Hid in Hold, Hbefore. split; [|split].
    + apply find_none_before.
      * intros y Hy. apply not_true_is_false. intros H.
        apply same_id_eq in H. exact (Hbefore y Hy H).
      * unfold same_id. cbn. apply String.eqb_refl.
    + unfold without_id. rewrite Hl.
      rewrite !(@filter_negb_app_one _ (same_id (Project.id project)));
        auto.
      * now apply same_id_eq.
      * unfold same_id. cbn. apply String.eqb_refl.
    + replace (existsb _ l) with true.
      * rewrite Hl, !length_app. reflexivity.
      * symmetry. apply existsb_exists. exists old. split.
        -- rewrite Hl. apply in_or_app. right. now left.
        -- now apply same_id_eq.
Qed.

Lemma save_then_lookup_witness :
  contents workingStorage demoStore
  = PArray [demoProject "a" "A"; demoProject "b" "B"]
  /\ find (same_id "b")
       (with_saved (Project.set_updatedAt 7 (demoProject "b" "B2"))
          [demoProject "a" "A"; demoProject "b" "B"])
     = Some (Project.set_updatedAt 7 (demoProject "b" "B2")).
Proof.
  split; [reflexivity|].
  exact (proj1 (proj2 (proj2 (proj2
    (@save_then_lookup workingStorage 7 (demoProject "b" "B2") demoStore
       [demoProject "a" "A"; demoProject "b" "B"] eq_refl eq_refl))))).
Defined.

Lemma NoDup_ids_replace (before after : list Project) (old p : Project) :
  Project.id old = Project.id p ->
  NoDup (ids (before ++ old :: after)) ->
  NoDup (ids (before ++ p :: after)).
Proof.
  unfold ids. rewrite !map_app. cbn. now intros ->.
Qed.

(** Saving keeps the ids of the store distinct.  When the stored
    projects have pairwise distinct ids and the write is accepted, so have
    the projects stored after [saveProjectToStorage], whatever project is
    saved. *)
Theorem save_keeps_ids_distinct :
  forall (b : Browser) (now : Z) (project : Project) (s : Store)
         (l : list Project),
    contents b s = PArray l ->
    NoDup (ids l) ->
    exists l',
      contents b (snd (state_after (saveProjectToStorage b now) (project, s)))
      = PArray l'
      /\ NoDup (ids l').
Proof.
  intros b now project s l Hc Hnd. unfold state_after.
  rewrite save_spec, Hc. cbn zeta.
  set (stamped := Project.set_updatedAt now project).
  assert (Hnew : NoDup (ids (with_saved stamped l))).
  { destruct (with_saved_cases stamped l) as [[Hl' Hfresh]
      | (before & old & after & Hl & Hl' & Hold & Hbefore)]; rewrite Hl'.
    - unfold ids. cbn. constructor; [|exact Hnd].
      intros Hin. apply in_map_iff in Hin. destruct Hin as (q & Hq & HIn).
      exact (Hfresh q HIn Hq).
    - rewrite Hl in Hnd. exact (@NoDup_ids_replace _ _ _ _ Hold Hnd). }
  destruct (setItemAccepts b _) eqn:Hok; cbn [snd].
  - unfold contents in *. cbn [item].
    destruct (getItemThrows b).
    + exists []. split; [reflexivity|constructor].
    + exists (with_saved stamped l). split; [reflexivity|exact Hnew].
  - exists l. split; [|exact Hnd]. unfold contents in *. exact Hc.
Qed.

Lemma save_keeps_ids_distinct_witness :
  exists l',
    contents workingStorage
      (snd (state_after (saveProjectToStorage workingStorage 7)
              (demoProject "b" "B2", demoStore)))
    = PArray l'
    /\ NoDup (ids l').
Proof.
  apply (@save_keeps_ids_distinct workingStorage 7 (demoProject "b" "B2")
           demoStore [demoProject "a" "A"; demoProject "b" "B"] eq_refl).
  repeat constructor; cbn; intuition discriminate.
Defined.

(** Deleting.  When the store reads as the array [l] and the browser
    accepts the write, [deleteProjectFromStorage] returns and stores the
    same array: a project is in it exactly when it is in [l] under another
    id.  An id that is not stored changes nothing, so deleting twice is
    deleting once. *)
Theorem delete_removes_id :
  forall (b : Browser) (pid : string) (s : Store) (l : list Project),
    contents b s = PArray l ->
    setItemAccepts b (without_id pid l) = true ->
    exists l',
      deleteProjectFromStorage b pid s
      = (inr l', {| item := Some (Json (PArray l')); console := console s |})
      /\ (forall q, In q l' <-> In q l /\ Project.id q <> pid)
      /\ ((forall q, In q l -> Project.id q <> pid) -> l' = l)
      /\ without_id pid l' = l'.
Proof.
  intros b pid s l Hc Hok. exists (without_id pid l).
  rewrite delete_spec, Hc, Hok. split; [reflexivity|].
  assert (Hin : forall q, In q (without_id pid l)
                          <-> In q l /\ Project.id q <> pid).
  { intros q. unfold without_id. rewrite filter_In.
    split; intros [H1 H2]; split; auto.
    - intros Heq. apply same_id_eq in Heq. rewrite Heq in H2. discriminate.
    - apply negb_true_iff, not_true_is_false. intros Heq.
      now apply same_id_eq in Heq. }
  split; [exact Hin|]. split; [apply without_id_none|].
  apply without_id_none. intros q Hq. now apply Hin in Hq.
Qed.

Lemma delete_removes_id_witness :
  exists l',
    deleteProjectFromStorage workingStorage "a" demoStore
    = (inr l', {| item := Some (Json (PArray l')); console := [] |})
    /\ (forall q, In q l'
                  <-> In q [demoProject "a" "A"; demoProject "b" "B"]
                      /\ Project.id q <> "a"%string)
    /\ ((forall q, In q [demoProject "a" "A"; demoProject "b" "B"] ->
                   Project.id q <> "a"%string) ->
        l' = [demoProject "a" "A"; demoProject "b" "B"])
    /\ without_id "a" l' = l'.
Proof.
  exact (@delete_removes_id workingStorage "a" demoStore
           [demoProject "a" "A"; demoProject "b" "B"] eq_refl eq_refl).
Defined.

(** Saving a project under an id that is not stored and deleting that
    id gives the stored array back, in a browser whose storage can be read
    and accepts both writes. *)
Theorem save_then_delete_restores :
  forall (b : Browser) (now : Z) (project : Project) (s : Store)
         (l : list Project),
    getItemThrows b = false ->
    contents b s = PArray l ->
    (forall q, In q l -> Project.id q <> Project.id project) ->
    setItemAccepts b (Project.set_updatedAt now project :: l) = true ->
    setItemAccepts b l = true ->
    let saved := snd (state_after (saveProjectToStorage b now) (project, s)) in
    contents b saved = PArray (Project.set_updatedAt now project :: l)
    /\ deleteProjectFromStorage b (Project.id project) saved
       = (inr l, {| item := Some (Json (PArray l)); console := console s |}).
Proof.
  intros b now project s l Hread Hc Hfresh Hok1 Hok2 saved.
  set (stamped := Project.set_updatedAt now project) in *.
  assert (Hsaved : with_saved stamped l = stamped :: l).
  { destruct (with_saved_cases stamped l) as [[H _]
      | (before & old & after & Hl & _ & Hold & _)]; [exact H|].
    exfalso. apply (Hfresh old); [|exact Hold].
    rewrite Hl. apply in_or_app. right. now left. }
  assert (Hs : saved = {| item := Some (Json (PArray (stamped :: l)));
                          console := console s |}).
  { subst saved. unfold state_after. rewrite save_spec, Hc. cbn zeta.
    fold stamped. rewrite Hsaved, Hok1. reflexivity. }
  assert (Hcs : contents b saved = PArray (stamped :: l)).
  { rewrite Hs. unfold contents. now rewrite Hread. }
  split; [exact Hcs|].
  rewrite delete_spec, Hcs.
  assert (Hw : without_id (Project.id project) (stamped :: l) = l).
  { unfold without_id. cbn. unfold same_id at 1. cbn.
    rewrite String.eqb_refl. cbn. now apply without_id_none. }
  rewrite Hw, Hok2, Hs. reflexivity.
Qed.

Lemma save_then_delete_restores_witness :
  contents workingStorage
    (snd (state_after (saveProjectToStorage workingStorage 7)
            (demoProject "c" "C", demoStore)))
  = PArray (Project.set_updatedAt 7 (demoProject "c" "C")
            :: [demoProject "a" "A"; demoProject "b" "B"])
  /\ deleteProjectFromStorage workingStorage "c"
       (snd (state_after (saveProjectToStorage workingStorage 7)
               (demoProject "c" "C", demoStore)))
     = (inr [demoProject "a" "A"; demoProject "b" "B"],
        {| item := Some (Json (PArray [demoProject "a" "A";
                                       demoProject "b" "B"]));
           console := [] |}).
Proof.
  apply (@save_then_delete_restores workingStorage 7 (demoProject "c" "C")
           demoStore [demoProject "a" "A"; demoProject "b" "B"]
           eq_refl eq_refl); try reflexivity.
  intros q [<-|[<-|[]]]; discriminate.
Defined.

(** A write that fails.  When the browser refuses the write, the text
    under the key stays as it was and one line goes to the console; yet
    [saveProjectToStorage] has stamped [updatedAt] on the object it was
    given, and [deleteProjectFromStorage] answers the empty array although
    every project is still stored.  When the text under the key parses to
    something that is not an array, neither function writes: the save is
    dropped with the object left as it was, and the delete answers the
    empty array. *)
Theorem failed_write_keeps_store :
  forall (b : Browser) (s : Store),
    (forall l,
        contents b s = PArray l ->
        (forall l', setItemAccepts b l' = false) ->
        (forall now project,
            saveProjectToStorage b now (project, s)
            = (inr tt,
               (Project.set_updatedAt now project,
                {| item := item s;
                   console := console s ++ ["Failed to save project"%string]
                |})))
        /\ (forall pid,
               deleteProjectFromStorage b pid s
               = (inr [],
                  {| item := item s;
                     console :=
                       console s ++ ["Failed to delete project"%string] |})))
    /\ (contents b s = PNotArray ->
        (forall now project,
            saveProjectToStorage b now (project, s)
            = (inr tt,
               (project,
                {| item := item s;
                   console := console s ++ ["Failed to save project"%string]
                |})))
        /\ (forall pid,
               deleteProjectFromStorage b pid s
               = (inr [],
                  {| item := item s;
                     console :=
                       console s ++ ["Failed to delete project"%string] |}))).
Proof.
  intros b s. split.
  - intros l Hc Hno. split.
    + intros now project. rewrite save_spec, Hc. cbn zeta.
      now rewrite Hno.
    + intros pid. rewrite delete_spec, Hc. now rewrite Hno.
  - intros Hc. split.
    + intros now project. now rewrite save_spec, Hc.
    + intros pid. now rewrite delete_spec, Hc.
Qed.

Lemma failed_write_keeps_store_witness :
  deleteProjectFromStorage fullStorage "a" demoStore
  = (inr [],
     {| item := item demoStore;
        console := ["Failed to delete project"%string] |})
  /\ saveProjectToStorage workingStorage 7 (demoProject "c" "C", brokenStore)
     = (inr tt,
        (demoProject "c" "C",
         {| item := item brokenStore;
            console := ["Failed to save project"%string] |})).
Proof.
  split.
  - exact (proj2 (proj1 (@failed_write_keeps_store fullStorage demoStore)
                    [demoProject "a" "A"; demoProject "b" "B"] eq_refl
                    (fun _ => eq_refl)) "a"%string).
  - exact (proj1 (proj2 (@failed_write_keeps_store workingStorage brokenStore)
                    eq_refl) 7%Z (demoProject "c" "C")).
Defined.

End StorageFacts.
